(** * nyxstack/cli: command resolution and execution engine

    A shallow embedding of the flag registry (flag.go), the command tree
    (command.go) and the executor (execute.go), together with the parts of
    the Go standard library they call (strings, strconv, time, reflect).

    Go strings are byte strings: [string] with one [ascii] per byte.
    Pointers are addresses into finite maps: [*Command] and [*Flag] are
    [nat] keys, and the variables a flag is bound to live in a third map.
    A function that mutates through a pointer takes and returns the world. *)

From Stdlib Require Import ZArith Lia List Ascii String Bool.
From stdpp Require Import base option list gmap strings.

Local Open Scope Z_scope.
Local Set Warnings "-register-all".

(** ** Package strings *)

Module strings.

(** [s[n:]] for [n <= len(s)]. *)
Fixpoint from (n : nat) (s : string) : string :=
  match n, s with
  | O, _ => s
  | S n', String _ s' => from n' s'
  | S _, EmptyString => EmptyString
  end.

(** [s[:n]] for [n <= len(s)]. *)
Fixpoint upto (n : nat) (s : string) : string :=
  match n, s with
  | O, _ => EmptyString
  | S n', String c s' => String c (upto n' s')
  | S _, EmptyString => EmptyString
  end.

(** [strings.HasPrefix(s, prefix)]. *)
Fixpoint HasPrefix (s pre : string) {struct pre} : bool :=
  match pre, s with
  | EmptyString, _ => true
  | String a pre', String b s' => Ascii.eqb a b && HasPrefix s' pre'
  | String _ _, EmptyString => false
  end.

(** [strings.Index(s, substr)]: the byte offset of the first occurrence,
    [None] standing for -1. *)
Fixpoint Index (s substr : string) : option nat :=
  if HasPrefix s substr then Some O
  else match s with
       | EmptyString => None
       | String _ s' => S <$> Index s' substr
       end.

(** A byte of the string equals [c]. *)
Fixpoint has_byte (c : ascii) (s : string) : bool :=
  match s with
  | EmptyString => false
  | String d s' => if Ascii.eqb c d then true else has_byte c s'
  end.

End strings.

(** ** Package strconv *)

Module strconv.

(** [*strconv.NumError]'s [Err] field. *)
Inductive NumErr := ErrSyntax | ErrRange | ErrBitSize.

(** The host's [int] size in bits; 64 on every platform Go 1.x targets
    with 64-bit words. *)
Definition IntSize : Z := 64.

Definition byte (c : ascii) : Z := Z.of_N (N_of_ascii c).

Definition is_digit (c : ascii) : bool := (48 <=? byte c) && (byte c <=? 57).

Definition maxUint64 : Z := 2 ^ 64 - 1.

(** [strconv.ParseBool(str)]. *)
Definition ParseBool (str : string) : bool + NumErr :=
  if String.eqb str "1" || String.eqb str "t" || String.eqb str "T"
     || String.eqb str "TRUE" || String.eqb str "true" || String.eqb str "True"
  then inl true
  else if String.eqb str "0" || String.eqb str "f" || String.eqb str "F"
     || String.eqb str "FALSE" || String.eqb str "false" || String.eqb str "False"
  then inl false
  else inr ErrSyntax.

(** The digit loop of [strconv.ParseUint] for base 10: [n] is the
    accumulator, a uint64 whose arithmetic wraps modulo 2^64.  With base
    10 a letter gives a digit value of at least 10, which is a syntax
    error exactly like any other non-digit byte. *)
Fixpoint ParseUint_loop (s : string) (maxVal n : Z) : Z * option NumErr :=
  match s with
  | EmptyString => (n, None)
  | String c s' =>
      if is_digit c then
        let d := byte c - 48 in
        if maxUint64 / 10 + 1 <=? n then (maxVal, Some ErrRange)
        else
          let n10 := (n * 10) mod 2 ^ 64 in
          let n1 := (n10 + d) mod 2 ^ 64 in
          if (n1 <? n10) || (maxVal <? n1) then (maxVal, Some ErrRange)
          else ParseUint_loop s' maxVal n1
      else (0, Some ErrSyntax)
  end.

(** [strconv.ParseUint(s, 10, bitSize)]: the value and the error. *)
Definition ParseUint (s : string) (bitSize : Z) : Z * option NumErr :=
  if String.eqb s EmptyString then (0, Some ErrSyntax)
  else
    let bitSize := if bitSize =? 0 then IntSize else bitSize in
    if (bitSize <? 0) || (64 <? bitSize) then (0, Some ErrBitSize)
    else ParseUint_loop s (2 ^ bitSize - 1) 0.

(** [strconv.ParseInt(s, 10, bitSize)]: the value and the error. *)
Definition ParseInt (s : string) (bitSize : Z) : Z * option NumErr :=
  match s with
  | EmptyString => (0, Some ErrSyntax)
  | String c0 s1 =>
      let neg := Ascii.eqb c0 "-" in
      let s' := if Ascii.eqb c0 "+" || neg then s1 else s in
      match ParseUint s' bitSize with
      | (_, Some ErrSyntax) => (0, Some ErrSyntax)
      | (_, Some ErrBitSize) => (0, Some ErrBitSize)
      | (un, _) =>
          let bitSize := if bitSize =? 0 then IntSize else bitSize in
          let cutoff := 2 ^ (bitSize - 1) in
          if negb neg && (cutoff <=? un) then (cutoff - 1, Some ErrRange)
          else if neg && (cutoff <? un) then (- cutoff, Some ErrRange)
          else (if neg then - un else un, None)
      end
  end.

End strconv.

(** ** Floating point

    The engine never computes with floats itself: it hands tokens to
    [strconv.ParseFloat] and, inside [time.ParseDuration], scales a decimal
    fraction in float64.  Both stay abstract. *)

Class GoFloat := {
  float : Type;
  (** the zero value of float32 and float64 *)
  float_zero : float;
  (** [strconv.ParseFloat(s, bitSize)] *)
  ParseFloat : string -> Z -> float + strconv.NumErr;
  (** [uint64(float64(f) * (float64(unit) / scale))] where [scale] is 1
      multiplied [k] times by 10 in float64 *)
  scale_fraction : Z -> nat -> Z -> Z
}.


(** The conversion of a float64 to float32, which [reflect.Value.Convert]
    does for a float32 target; abstract like the rest. *)
Class GoFloat32 `{GoFloat} := {
  float32_of : float -> float
}.

(** ** Package time *)

Module time.

Import strconv.

Inductive DurationErr :=
| InvalidDuration
| MissingUnit
| UnknownUnit (u : string).

(** [unitMap]; the two spellings of the microsecond are U+00B5 and U+03BC
    in UTF-8. *)
Definition unitMap (u : string) : option Z :=
  if String.eqb u "ns" then Some 1
  else if String.eqb u "us" then Some 1000
  else if String.eqb u (String (ascii_of_nat 194) (String (ascii_of_nat 181) "s"))
  then Some 1000
  else if String.eqb u (String (ascii_of_nat 206) (String (ascii_of_nat 188) "s"))
  then Some 1000
  else if String.eqb u "ms" then Some 1000000
  else if String.eqb u "s" then Some 1000000000
  else if String.eqb u "m" then Some 60000000000
  else if String.eqb u "h" then Some 3600000000000
  else None.

(** [leadingInt(s)] with the accumulator [x]: the value, the rest of the
    string, and whether it overflowed. *)
Fixpoint leadingInt (s : string) (x : Z) : Z * string * bool :=
  match s with
  | EmptyString => (x, s, false)
  | String c s' =>
      if negb (is_digit c) then (x, s, false)
      else if 2 ^ 63 / 10 <? x then (0, EmptyString, true)
      else
        let x' := (x * 10 + (byte c - 48)) mod 2 ^ 64 in
        if 2 ^ 63 <? x' then (0, EmptyString, true)
        else leadingInt s' x'
  end.

(** [leadingFraction(s)]: the digits read as an integer [x], the number
    [k] of digits that went into it (so that scale is 10^k) and the rest
    of the string; digits after an overflow are skipped. *)
Fixpoint leadingFraction (s : string) (x : Z) (k : nat) (overflow : bool)
  : Z * nat * string :=
  match s with
  | EmptyString => (x, k, s)
  | String c s' =>
      if negb (is_digit c) then (x, k, s)
      else if overflow then leadingFraction s' x k true
      else if (2 ^ 63 - 1) / 10 <? x then leadingFraction s' x k true
      else
        let y := (x * 10 + (byte c - 48)) mod 2 ^ 64 in
        if 2 ^ 63 <? y then leadingFraction s' x k true
        else leadingFraction s' y (S k) false
  end.

(** The length of the unit: the bytes up to the next ['.'] or digit. *)
Fixpoint unit_len (s : string) : nat :=
  match s with
  | EmptyString => O
  | String c s' =>
      if Ascii.eqb c "." || is_digit c then O else S (unit_len s')
  end.

Section Duration.
Context `{GoFloat}.

(** The loop of [time.ParseDuration] over what is left of the string;
    every round consumes at least the unit, so [fuel = len(s)] rounds are
    enough ([ParseDuration_loop_fuel] below). *)
Fixpoint ParseDuration_loop (fuel : nat) (s : string) (d : Z)
  : Z + DurationErr :=
  match s with
  | EmptyString => inl d
  | String c _ =>
      match fuel with
      | O => inr InvalidDuration
      | S fuel' =>
          if negb (Ascii.eqb c "." || is_digit c) then inr InvalidDuration
          else
            let pl := String.length s in
            match leadingInt s 0 with
            | (_, _, true) => inr InvalidDuration
            | (v, s1, false) =>
                let pre := negb (Nat.eqb pl (String.length s1)) in
                let '(f, k, s2, post) :=
                  match s1 with
                  | String c1 s1' =>
                      if Ascii.eqb c1 "." then
                        let '(f, k, s2) := leadingFraction s1' 0 O false in
                        (f, k, s2,
                         negb (Nat.eqb (String.length s1') (String.length s2)))
                      else (0, O, s1, false)
                  | EmptyString => (0, O, s1, false)
                  end in
                if negb pre && negb post then inr InvalidDuration
                else
                  let i := unit_len s2 in
                  if Nat.eqb i O then inr MissingUnit
                  else
                    let u := strings.upto i s2 in
                    let s3 := strings.from i s2 in
                    match unitMap u with
                    | None => inr (UnknownUnit u)
                    | Some unit =>
                        if 2 ^ 63 / unit <? v then inr InvalidDuration
                        else
                          let v1 := (v * unit) mod 2 ^ 64 in
                          let v2 :=
                            if 0 <? f
                            then (v1 + scale_fraction f k unit) mod 2 ^ 64
                            else v1 in
                          if (0 <? f) && (2 ^ 63 <? v2) then inr InvalidDuration
                          else
                            let d' := (d + v2) mod 2 ^ 64 in
                            if 2 ^ 63 <? d' then inr InvalidDuration
                            else ParseDuration_loop fuel' s3 d'
                    end
            end
      end
  end.

(** [time.ParseDuration(s)]: nanoseconds as an int64. *)
Definition ParseDuration (s : string) : Z + DurationErr :=
  let '(neg, s) :=
    match s with
    | String c s' =>
        if Ascii.eqb c "-" then (true, s')
        else if Ascii.eqb c "+" then (false, s')
        else (false, s)
    | EmptyString => (false, s)
    end in
  if String.eqb s "0" then inl 0
  else if String.eqb s EmptyString then inr InvalidDuration
  else
    match ParseDuration_loop (String.length s) s 0 with
    | inr e => inr e
    | inl d =>
        if neg then inl (- d)
        else if 2 ^ 63 - 1 <? d then inr InvalidDuration
        else inl d
    end.

End Duration.

End time.

(** ** Values, types and package reflect *)

Section Engine.
Context `{GoFloat}.

(** The values the engine moves around.  Signed and unsigned integers of
    every width are mathematical integers within the range of their type. *)
Inductive Val :=
| VString (s : string)
| VBool (b : bool)
| VInt (n : Z)
| VUint (n : Z)
| VFloat (f : float)
| VSlice (l : list Val)
| VOther.

#[global] Instance Val_inhabited : Inhabited Val := populate VOther.

(** Caller-owned variables, by address. *)
Abbreviation Mem := (gmap nat Val).

Inductive IntKind := Int | Int8 | Int16 | Int32 | Int64.
Inductive UintKind := Uint | Uint8 | Uint16 | Uint32 | Uint64.

(** [reflect.Type], as far as the engine tells types apart: by kind, with
    [time.Duration] singled out among the int64 types.  [TSetter] is a type of
    another kind whose pointer has a method [Set(string) error]; [TOther] is
    any other type. *)
Inductive GoType :=
| TString
| TBool
| TInt (k : IntKind)
| TDuration
| TUint (k : UintKind)
| TFloat32
| TFloat64
| TSlice (elem : GoType)
| TSetter (zero : Val) (setter : Val -> string -> Val * option string)
| TOther.

(** [Type.Bits()] *)
Definition IntBits (k : IntKind) : Z :=
  match k with
  | Int => strconv.IntSize | Int8 => 8 | Int16 => 16 | Int32 => 32 | Int64 => 64
  end.

Definition UintBits (k : UintKind) : Z :=
  match k with
  | Uint => strconv.IntSize | Uint8 => 8 | Uint16 => 16 | Uint32 => 32 | Uint64 => 64
  end.

(** What [Value.SetInt(x)] leaves in a variable of [bits] bits: the
    conversion of the int64 [x] to the narrower signed type. *)
Definition SetInt (bits x : Z) : Val :=
  VInt ((x + 2 ^ (bits - 1)) mod 2 ^ bits - 2 ^ (bits - 1)).

(** What [Value.SetUint(x)] leaves in a variable of [bits] bits. *)
Definition SetUint (bits x : Z) : Val := VUint (x mod 2 ^ bits).

(** [reflect.Zero(t)] *)
Definition Zero (t : GoType) : Val :=
  match t with
  | TString => VString EmptyString
  | TBool => VBool false
  | TInt _ | TDuration => VInt 0
  | TUint _ => VUint 0
  | TFloat32 | TFloat64 => VFloat float_zero
  | TSlice _ => VSlice []
  | TSetter zero _ => zero
  | TOther => VOther
  end.

(** The elements of a slice value. *)
Definition elems (v : Val) : list Val :=
  match v with VSlice l => l | _ => [] end.

(** ** Errors *)

(** The error a conversion fails with. *)
Inductive ConvErr :=
| NumError (Func Num : string) (Err : strconv.NumErr)
| DurationError (e : time.DurationErr)
| UnsupportedSliceType
| UnsupportedFlagType
| SetError (msg : string).

(** The three errors [FlagSet.Parse] formats with [fmt.Errorf], kept as
    their arguments rather than as text. *)
Inductive ParseErr :=
| UnknownFlag (flagName : string)
| InvalidValue (flagValue flagName : string) (err : ConvErr)
| RequiresValue (flagName : string).

(** The [Msg] field of the engine's errors. *)
Inductive Msg :=
| MsgParse (err : ParseErr)
| MsgRequiredFlagNotSet
| MsgTooManyArguments (expected got : nat)
| MsgRequiredArgumentMissing
| MsgConv (err : ConvErr).

(** The [error] values that leave [execute]; [UserError] is an error made
    by a hook or a handler. *)
Inductive Error :=
| CommandNotFoundError (Name : string) (Cmd : nat)
| FlagError (Flag : string) (msg : Msg) (Cmd : nat)
| ArgumentError (Arg : string) (msg : Msg) (Cmd : nat)
| UserError (text : string).

(** How a call ends: it returns an [error] (or nil), it panics, or it
    never returns. *)
Inductive Outcome :=
| Ret (err : option Error)
| Panic (text : string)
| Hang.

(** ** flag.go *)

Record Flag := mkFlag {
  names : list string;
  flagType : GoType;
  defValue : option Val;
  usage : string;
  value : nat;
  required : bool;
  hidden : bool;
  set : bool
}.

#[global] Instance Flag_inhabited : Inhabited Flag :=
  populate (mkFlag [] TOther None EmptyString O false false false).

Definition Flag_with_set (f : Flag) (b : bool) : Flag :=
  mkFlag (names f) (flagType f) (defValue f) (usage f) (value f)
         (required f) (hidden f) b.

Definition Flag_with_required (f : Flag) (b : bool) : Flag :=
  mkFlag (names f) (flagType f) (defValue f) (usage f) (value f)
         b (hidden f) (set f).

Definition Flag_with_hidden (f : Flag) (b : bool) : Flag :=
  mkFlag (names f) (flagType f) (defValue f) (usage f) (value f)
         (required f) b (set f).

Definition PrimaryName (f : Flag) : string :=
  match names f with n :: _ => n | [] => EmptyString end.

Definition ShortName (f : Flag) : string :=
  match names f with _ :: n :: _ => n | _ => EmptyString end.

Definition HasName (f : Flag) (name : string) : bool :=
  existsb (fun n => String.eqb n name) (names f).

(** [FlagSet.setValue(flag, value)]: parses [value] for the flag's type
    and writes the variable [flag.value] points to. *)
Definition setValue (flag : Flag) (val : string) (m : Mem) : Mem * option ConvErr :=
  match flagType flag with
  | TString => (<[value flag := VString val]> m, None)
  | TBool =>
      match strconv.ParseBool val with
      | inr e => (m, Some (NumError "ParseBool" val e))
      | inl b => (<[value flag := VBool b]> m, None)
      end
  | TDuration =>
      match time.ParseDuration val with
      | inr e => (m, Some (DurationError e))
      | inl dur => (<[value flag := SetInt 64 dur]> m, None)
      end
  | TInt k =>
      match strconv.ParseInt val (IntBits k) with
      | (_, Some e) => (m, Some (NumError "ParseInt" val e))
      | (v, None) => (<[value flag := SetInt (IntBits k) v]> m, None)
      end
  | TUint k =>
      match strconv.ParseUint val (UintBits k) with
      | (_, Some e) => (m, Some (NumError "ParseUint" val e))
      | (v, None) => (<[value flag := SetUint (UintBits k) v]> m, None)
      end
  | TFloat32 =>
      match ParseFloat val 32 with
      | inr e => (m, Some (NumError "ParseFloat" val e))
      | inl v => (<[value flag := VFloat v]> m, None)
      end
  | TFloat64 =>
      match ParseFloat val 64 with
      | inr e => (m, Some (NumError "ParseFloat" val e))
      | inl v => (<[value flag := VFloat v]> m, None)
      end
  | TSlice TString =>
      (<[value flag := VSlice (elems (m !!! value flag) ++ [VString val])]> m, None)
  | TSlice _ => (m, Some UnsupportedSliceType)
  | TSetter _ setter =>
      let '(v, r) := setter (m !!! value flag) val in
      (<[value flag := v]> m, SetError <$> r)
  | TOther => (m, Some UnsupportedFlagType)
  end.

(** ** command.go: the command tree *)

Record Argument := mkArgument {
  Name : string;
  Description : string;
  Required : bool
}.

(** A hook gets the context and the executing command, and may read and
    write the caller's variables.  It leaves the tree and the flag structs
    alone: configuration ends before execution begins. *)
Definition Hook : Type := nat -> Mem -> Mem * option Error.

(** An action: a function [func(ctx, cmd, p_1, ..., p_n [, rest ...T]) error].
    [params] are the types of p_1..p_n, [variadic] is T when the last
    parameter is variadic, and [call] is the body. *)
Record Action := mkAction {
  params : list GoType;
  variadic : option GoType;
  call : nat -> list Val -> Mem -> Mem * option Error
}.

Record Command := mkCommand {
  name : string;
  description : string;
  args : list Argument;
  flags : list nat;
  subcommands : gmap string nat;
  parent : option nat;
  action : option Action;
  cmdHidden : bool;
  persistentPreRun : option Hook;
  preRun : option Hook;
  postRun : option Hook;
  persistentPostRun : option Hook;
  helpEnabled : bool;
  helpFlag : string;
  helpShort : string
}.

(** [Cmd(name)] *)
Definition Cmd (n : string) : Command :=
  mkCommand n EmptyString [] [] ∅ None None false None None None None true "help" "h".

#[global] Instance Command_inhabited : Inhabited Command := populate (Cmd EmptyString).

(** What an execution can be seen to do, in order. *)
Inductive Event :=
| RanPersistentPreRun (owner : nat)
| RanPreRun (cmd : nat)
| RanAction (cmd : nat)
| RanPostRun (cmd : nat)
| RanPersistentPostRun (owner : nat)
| ShowedHelp (cmd : nat).


(** The world: the [Command] and [Flag] structs by address, the variables
    the flags are bound to, and the events so far. *)
Record World := mkWorld {
  cmds : gmap nat Command;
  flagStructs : gmap nat Flag;
  mem : gmap nat Val;
  trace : list Event
}.

Definition with_mem (w : World) (m : Mem) : World :=
  mkWorld (cmds w) (flagStructs w) m (trace w).

Definition with_flag (w : World) (a : nat) (f : Flag) : World :=
  mkWorld (cmds w) (<[a := f]> (flagStructs w)) (mem w) (trace w).

Definition with_cmd (w : World) (c : nat) (cmd : Command) : World :=
  mkWorld (<[c := cmd]> (cmds w)) (flagStructs w) (mem w) (trace w).

Definition emit (w : World) (e : Event) : World :=
  mkWorld (cmds w) (flagStructs w) (mem w) (trace w ++ [e]).

(** The command and the flag an address points to. *)
Definition cmdAt (w : World) (c : nat) : Command := cmds w !!! c.
Definition flagAt (w : World) (a : nat) : Flag := flagStructs w !!! a.

(** ** flag.go: the flag set

    A [FlagSet] is its slice [flags []*Flag]: a list of addresses. *)

(** [reflect]'s conversion of a value to a type: what
    [Value.Convert(t)] gives when the value's type is [ConvertibleTo(t)],
    and [None] when it is not.  It belongs to the Go library and is a
    parameter here. *)
Class GoReflect := {
  Convert : Val -> GoType -> option Val
}.

Context `{!GoReflect}.

(** [FlagSet.Add(ptr, name, shorthand, defaultValue, usage)].  [ptr] is the
    address of the caller's variable and [ty] its type, which Go reads off
    the pointer.  A default is any value, [None] for nil: the variable gets
    it converted to the flag's type when it converts, and is left alone
    otherwise; the flag struct keeps it as it was given.  The new [Flag]
    struct gets a fresh address, which is appended to the slice. *)
Definition Add (w : World) (fs : list nat) (ptr : nat) (ty : GoType)
    (n shorthand : string) (defaultValue : option Val) (use : string)
  : World * list nat :=
  let m := match defaultValue with
           | Some d =>
               match Convert d ty with
               | Some v => <[ptr := v]> (mem w)
               | None => mem w
               end
           | None => mem w
           end in
  let nms := if String.eqb shorthand EmptyString then [n] else [n; shorthand] in
  let flag := mkFlag nms ty defaultValue use ptr false false false in
  let a := fresh (dom (flagStructs w)) in
  (with_flag (with_mem w m) a flag, fs ++ [a]).

(** [FlagSet.GetFlag(name)]: the first flag of the slice with that name. *)
Definition GetFlag (w : World) (fs : list nat) (n : string) : option nat :=
  find (fun a => HasName (flagAt w a) n) fs.

(** How [Parse] splits a token that starts with a dash:
    [(flagName, flagValue, hasValue)]. *)
Definition splitFlag (arg : string) : string * string * bool :=
  let nm := if strings.HasPrefix arg "--" then strings.from 2 arg
            else strings.from 1 arg in
  match strings.Index nm "=" with
  | Some idx => (strings.upto idx nm, strings.from (S idx) nm, true)
  | None => (nm, EmptyString, false)
  end.

(** One round of the loop of [FlagSet.Parse] on a token that starts with a
    dash: the world after it, and the error that ends the loop if any. *)
Definition parseFlag (fs : list nat) (arg : string) (w : World)
  : World * option ParseErr :=
  let '(flagName, flagValue, hasValue) := splitFlag arg in
  match GetFlag w fs flagName with
  | None => (w, Some (UnknownFlag flagName))
  | Some a =>
      let flag := flagAt w a in
      match flagType flag with
      | TBool =>
          if hasValue then
            match setValue flag flagValue (mem w) with
            | (m, Some err) =>
                (with_mem w m, Some (InvalidValue flagValue flagName err))
            | (m, None) => (with_flag (with_mem w m) a (Flag_with_set flag true), None)
            end
          else
            (with_flag (with_mem w (<[value flag := VBool true]> (mem w))) a
                       (Flag_with_set flag true), None)
      | _ =>
          if negb hasValue then (w, Some (RequiresValue flagName))
          else
            match setValue flag flagValue (mem w) with
            | (m, Some err) =>
                (with_mem w m, Some (InvalidValue flagValue flagName err))
            | (m, None) => (with_flag (with_mem w m) a (Flag_with_set flag true), None)
            end
      end
  end.

(** The loop of [FlagSet.Parse]; [remaining] collects the other tokens. *)
Fixpoint Parse_loop (fs : list nat) (argv : list string) (remaining : list string)
    (w : World) : World * (list string + ParseErr) :=
  match argv with
  | [] => (w, inl remaining)
  | arg :: rest =>
      if negb (strings.HasPrefix arg "-") then
        Parse_loop fs rest (remaining ++ [arg]) w
      else
        match parseFlag fs arg w with
        | (w', Some err) => (w', inr err)
        | (w', None) => Parse_loop fs rest remaining w'
        end
  end.

(** [FlagSet.Parse(args)] *)
Definition Parse (fs : list nat) (argv : list string) (w : World)
  : World * (list string + ParseErr) :=
  Parse_loop fs argv [] w.

(** ** command.go: flag inheritance *)

(** The loop [for current != nil] that collects a command and its
    ancestors, each new one put in front: root first in the end.  It ends
    when it reaches a command without parent; on a parent cycle the Go loop
    never ends, which is [None] here.  A chain without cycle visits every
    command at most once, so [fuel] beyond the number of commands is never
    used up ([ancestors_Some] below). *)
Fixpoint ancestors_loop (fuel : nat) (w : World) (current : option nat)
    (ancestors : list nat) : option (list nat) :=
  match current with
  | None => Some ancestors
  | Some c =>
      match fuel with
      | O => None
      | S fuel' => ancestors_loop fuel' w (parent (cmdAt w c)) (c :: ancestors)
      end
  end.

Definition walk_fuel (w : World) : nat := S (size (cmds w)).

Definition ancestors (w : World) (c : nat) : option (list nat) :=
  ancestors_loop (walk_fuel w) w (Some c) [].

(** The inner loop of [getAllFlags] over one command's flags. *)
Fixpoint collectFlags (w : World) (fl : list nat)
    (acc : list nat * gset string) : list nat * gset string :=
  match fl with
  | [] => acc
  | a :: rest =>
      let primaryName := PrimaryName (flagAt w a) in
      if decide (primaryName ∈ acc.2) then collectFlags w rest acc
      else collectFlags w rest (acc.1 ++ [a], {[primaryName]} ∪ acc.2)
  end.

(** The outer loop of [getAllFlags], from the last ancestor (the command
    itself) down to index 0 (the root): [chain] is that order. *)
Fixpoint collectChain (w : World) (chain : list nat)
    (acc : list nat * gset string) : list nat * gset string :=
  match chain with
  | [] => acc
  | c :: rest => collectChain w rest (collectFlags w (flags (cmdAt w c)) acc)
  end.

(** [Command.getAllFlags()] *)
Definition getAllFlags (w : World) (c : nat) : option (list nat) :=
  match ancestors w c with
  | None => None
  | Some anc => Some (collectChain w (rev anc) ([], ∅)).1
  end.

(** ** execute.go *)

(** [convertArgument(arg, targetType)]: a temporary variable, alone in a
    memory of its own, set through a temporary flag. *)
Definition convertArgument (arg : string) (targetType : GoType) : Val + ConvErr :=
  let tempVar : Mem := {[ O := Zero targetType ]} in
  let tempFlag := mkFlag ["temp"%string] targetType None EmptyString O false false false in
  match setValue tempFlag arg tempVar with
  | (_, Some err) => inr err
  | (m, None) => inl (m !!! O)
  end.

(** The loop over the fixed parameters in [callAction], the same in the
    variadic and in the other branch: parameter [i] takes the token
    [args[i]] or, when there is none, its zero value unless argument [i] is
    declared required. *)
Fixpoint bindParams (c : nat) (decl : list Argument) (tys : list GoType)
    (i : nat) (argv : list string) (callArgs : list Val) : list Val + Error :=
  match tys with
  | [] => inl callArgs
  | argType :: tys' =>
      match argv !! i with
      | None =>
          match decl !! i with
          | Some d =>
              if Required d
              then inr (ArgumentError (Name d) MsgRequiredArgumentMissing c)
              else bindParams c decl tys' (S i) argv (callArgs ++ [Zero argType])
          | None => bindParams c decl tys' (S i) argv (callArgs ++ [Zero argType])
          end
      | Some arg =>
          match convertArgument arg argType with
          | inr err =>
              let argName := match decl !! i with Some d => Name d | None => EmptyString end in
              inr (ArgumentError argName (MsgConv err) c)
          | inl argValue => bindParams c decl tys' (S i) argv (callArgs ++ [argValue])
          end
      end
  end.

(** The loop that fills the variadic slice from [args[numFixed:]]. *)
Fixpoint bindVariadic (c : nat) (elemType : GoType) (rest : list string)
    (slice : list Val) : list Val + Error :=
  match rest with
  | [] => inl slice
  | arg :: rest' =>
      match convertArgument arg elemType with
      | inr err => inr (ArgumentError EmptyString (MsgConv err) c)
      | inl argValue => bindVariadic c elemType rest' (slice ++ [argValue])
      end
  end.

(** The arguments [callAction] builds after [ctx] and [cmd], or how it
    fails before the call.  [reflect.MakeSlice] panics on a negative
    length. *)
Definition buildCallArgs (c : nat) (decl : list Argument) (act : Action)
    (argv : list string) : list Val + Outcome :=
  match variadic act with
  | Some elemType =>
      let numFixed := length (params act) in
      match bindParams c decl (params act) O argv [] with
      | inr err => inr (Ret (Some err))
      | inl callArgs =>
          let variadicCount := Z.of_nat (length argv) - Z.of_nat numFixed in
          if variadicCount <? 0 then inr (Panic "reflect.MakeSlice: negative len")
          else
            match bindVariadic c elemType (drop numFixed argv) [] with
            | inr err => inr (Ret (Some err))
            | inl slice => inl (callArgs ++ [VSlice slice])
            end
      end
  | None =>
      match bindParams c decl (params act) O argv [] with
      | inr err => inr (Ret (Some err))
      | inl callArgs => inl callArgs
      end
  end.

(** [Command.callAction(ctx, args)] for a command whose action is [act]. *)
Definition callAction (w : World) (c : nat) (act : Action) (argv : list string)
  : World * Outcome :=
  match buildCallArgs c (args (cmdAt w c)) act argv with
  | inr out => (w, out)
  | inl callArgs =>
      let '(m, r) := call act c callArgs (mem w) in
      (with_mem (emit w (RanAction c)) m, Ret r)
  end.

(** Running a hook: its error, and the world it leaves. *)
Definition runHook (h : Hook) (c : nat) (e : Event) (w : World)
  : World * option Error :=
  let '(m, r) := h c (mem w) in (with_mem (emit w e) m, r).

(** The loop of [runPostHooks] from the command up to the root.  Errors
    are dropped. *)
Fixpoint persistentPostRun_loop (fuel : nat) (c : nat) (current : option nat)
    (w : World) : option World :=
  match current with
  | None => Some w
  | Some cur =>
      match fuel with
      | O => None
      | S fuel' =>
          let w' := match persistentPostRun (cmdAt w cur) with
                    | Some h => (runHook h c (RanPersistentPostRun cur) w).1
                    | None => w
                    end in
          persistentPostRun_loop fuel' c (parent (cmdAt w' cur)) w'
      end
  end.

(** [Command.runPostHooks(ctx)]; [None] when it never returns. *)
Definition runPostHooks (w : World) (c : nat) : option World :=
  let w1 := match postRun (cmdAt w c) with
            | Some h => (runHook h c (RanPostRun c) w).1
            | None => w
            end in
  persistentPostRun_loop (walk_fuel w1) c (Some c) w1.

(** [runPostHooks] followed by [return err]. *)
Definition unwind (w : World) (c : nat) (err : option Error) : World * Outcome :=
  match runPostHooks w c with
  | Some w' => (w', Ret err)
  | None => (w, Hang)
  end.

(** The loop over [ancestors] in [executeAction]: the world after the
    hooks that ran, and the error of the one that failed. *)
Fixpoint persistentPreRun_loop (c : nat) (anc : list nat) (w : World)
  : World * option Error :=
  match anc with
  | [] => (w, None)
  | cmd :: rest =>
      match persistentPreRun (cmdAt w cmd) with
      | Some h =>
          match runHook h c (RanPersistentPreRun cmd) w with
          | (w', Some err) => (w', Some err)
          | (w', None) => persistentPreRun_loop c rest w'
          end
      | None => persistentPreRun_loop c rest w
      end
  end.

(** [Command.executeAction(ctx, args)] *)
Definition executeAction (w : World) (c : nat) (argv : list string)
  : World * Outcome :=
  match ancestors w c with
  | None => (w, Hang)
  | Some anc =>
      match persistentPreRun_loop c anc w with
      | (w1, Some err) => unwind w1 c (Some err)
      | (w1, None) =>
          let '(w2, pre) := match preRun (cmdAt w1 c) with
                            | Some h => runHook h c (RanPreRun c) w1
                            | None => (w1, None)
                            end in
          match pre with
          | Some err => unwind w2 c (Some err)
          | None =>
              match action (cmdAt w2 c) with
              | None => unwind w2 c None
              | Some act =>
                  match callAction w2 c act argv with
                  | (w3, Ret actionErr) => unwind w3 c actionErr
                  | (w3, out) => (w3, out)
                  end
              end
          end
      end
  end.

(** Whether [arg] is the help token of [cmd]. *)
Definition isHelpArg (cmd : Command) (arg : string) : bool :=
  String.eqb arg ("--" +:+ helpFlag cmd) || String.eqb arg ("-" +:+ helpShort cmd).

(** The command help is shown for: the first token without dash that names
    a subcommand, or else the command itself. *)
Fixpoint helpTarget (cmd : Command) (c : nat) (argv : list string) : nat :=
  match argv with
  | [] => c
  | a :: rest =>
      if negb (strings.HasPrefix a "-") then
        match subcommands cmd !! a with
        | Some sub => sub
        | None => helpTarget cmd c rest
        end
      else helpTarget cmd c rest
  end.

(** [Command.showHelp()]: what it prints is not modelled, only that it
    does; it walks the parents like [getAllFlags]. *)
Definition showHelp (w : World) (c : nat) : World * Outcome :=
  match getAllFlags w c with
  | None => (w, Hang)
  | Some _ => (emit w (ShowedHelp c), Ret None)
  end.

(** What the search for a subcommand ends with. *)
Inductive Lookup :=
| Subcommand (subcommandIndex : nat) (subcmd : nat)
| Unknown (arg : string)
| NoSubcommand.

(** The loop [for i, arg := range args] that looks for a subcommand. *)
Fixpoint findSubcommand (cmd : Command) (argv : list string) (i : nat) : Lookup :=
  match argv with
  | [] => NoSubcommand
  | arg :: rest =>
      if strings.HasPrefix arg "-" then findSubcommand cmd rest (S i)
      else
        match subcommands cmd !! arg with
        | Some sub => Subcommand i sub
        | None =>
            if 0 <? Z.of_nat (size (subcommands cmd)) then Unknown arg
            else NoSubcommand
        end
  end.

(** The first required flag that is not set. *)
Definition missingRequired (w : World) (allFlags : list nat) : option nat :=
  find (fun a => required (flagAt w a) && negb (set (flagAt w a))) allFlags.

(** [Command.execute(ctx, args)].  The call on the subcommand gets fewer
    tokens, so [fuel] above [len(args)] is never used up
    ([execute_rec_fuel] below). *)
Fixpoint execute_rec (fuel : nat) (w : World) (c : nat) (argv : list string)
  : World * Outcome :=
  match fuel with
  | O => (w, Hang)
  | S fuel' =>
      let cmd := cmdAt w c in
      if helpEnabled cmd && existsb (isHelpArg cmd) argv then
        showHelp w (helpTarget cmd c argv)
      else
        match findSubcommand cmd argv O with
        | Unknown arg => (w, Ret (Some (CommandNotFoundError arg c)))
        | Subcommand subcommandIndex subcmd =>
            let beforeSubcmd := take subcommandIndex argv in
            let afterSubcmd := drop (S subcommandIndex) argv in
            match beforeSubcmd with
            | [] => execute_rec fuel' w subcmd afterSubcmd
            | _ :: _ =>
                match getAllFlags w c with
                | None => (w, Hang)
                | Some allFlags =>
                    match Parse allFlags beforeSubcmd w with
                    | (w', inr err) =>
                        (w', Ret (Some (FlagError EmptyString (MsgParse err) c)))
                    | (w', inl _) => execute_rec fuel' w' subcmd afterSubcmd
                    end
                end
            end
        | NoSubcommand =>
            match getAllFlags w c with
            | None => (w, Hang)
            | Some allFlags =>
                match Parse allFlags argv w with
                | (w', inr err) => (w', Ret (Some (FlagError EmptyString (MsgParse err) c)))
                | (w', inl remaining) =>
                    match missingRequired w' allFlags with
                    | Some a =>
                        match names (flagAt w' a) with
                        | n :: _ =>
                            (w', Ret (Some (FlagError n MsgRequiredFlagNotSet c)))
                        | [] =>
                            (w', Panic "runtime error: index out of range [0] with length 0")
                        end
                    | None =>
                        let expectedArgs := length (args cmd) in
                        let isVariadic :=
                          match action cmd with
                          | Some act => bool_decide (is_Some (variadic act))
                          | None => false
                          end in
                        if negb isVariadic && (expectedArgs <? length remaining)%nat
                        then (w', Ret (Some (ArgumentError EmptyString
                                (MsgTooManyArguments expectedArgs (length remaining)) c)))
                        else executeAction w' c remaining
                    end
                end
            end
        end
  end.

Definition execute (w : World) (c : nat) (argv : list string) : World * Outcome :=
  execute_rec (S (length argv)) w c argv.

(** ** command.go: configuration *)

Definition with_flags (cmd : Command) (fl : list nat) : Command :=
  mkCommand (name cmd) (description cmd) (args cmd) fl (subcommands cmd)
    (parent cmd) (action cmd) (cmdHidden cmd) (persistentPreRun cmd) (preRun cmd)
    (postRun cmd) (persistentPostRun cmd) (helpEnabled cmd) (helpFlag cmd)
    (helpShort cmd).

(** [Command.Flag(ptr, name, shorthand, defaultValue, usage)] *)
Definition Command_Flag (w : World) (c : nat) (ptr : nat) (ty : GoType)
    (n shorthand : string) (defaultValue : option Val) (use : string) : World :=
  let '(w', fl) := Add w (flags (cmdAt w c)) ptr ty n shorthand defaultValue use in
  with_cmd w' c (with_flags (cmdAt w' c) fl).

(** [Command.FlagRequired(...)]: adds the flag, then marks as required
    what [GetFlag] finds under its name. *)
Definition Command_FlagRequired (w : World) (c : nat) (ptr : nat) (ty : GoType)
    (n shorthand : string) (defaultValue : option Val) (use : string) : World :=
  let w' := Command_Flag w c ptr ty n shorthand defaultValue use in
  match GetFlag w' (flags (cmdAt w' c)) n with
  | Some a => with_flag w' a (Flag_with_required (flagAt w' a) true)
  | None => w'
  end.

(** [Command.FlagHidden(...)]: adds the flag, then marks as hidden what
    [GetFlag] finds under its name. *)
Definition Command_FlagHidden (w : World) (c : nat) (ptr : nat) (ty : GoType)
    (n shorthand : string) (defaultValue : option Val) (use : string) : World :=
  let w' := Command_Flag w c ptr ty n shorthand defaultValue use in
  match GetFlag w' (flags (cmdAt w' c)) n with
  | Some a => with_flag w' a (Flag_with_hidden (flagAt w' a) true)
  | None => w'
  end.


(** ** command.go: building the tree *)

Definition with_parent (cmd : Command) (p : option nat) : Command :=
  mkCommand (name cmd) (description cmd) (args cmd) (flags cmd) (subcommands cmd)
    p (action cmd) (cmdHidden cmd) (persistentPreRun cmd) (preRun cmd)
    (postRun cmd) (persistentPostRun cmd) (helpEnabled cmd) (helpFlag cmd)
    (helpShort cmd).

Definition with_subcommands (cmd : Command) (subs : gmap string nat) : Command :=
  mkCommand (name cmd) (description cmd) (args cmd) (flags cmd) subs
    (parent cmd) (action cmd) (cmdHidden cmd) (persistentPreRun cmd) (preRun cmd)
    (postRun cmd) (persistentPostRun cmd) (helpEnabled cmd) (helpFlag cmd)
    (helpShort cmd).

(** [c.AddCommand(cmd)]: first [cmd.parent = c], then
    [c.subcommands[cmd.name] = cmd]. *)
Definition AddCommand (w : World) (c cmd : nat) : World :=
  let w1 := with_cmd w cmd (with_parent (cmdAt w cmd) (Some c)) in
  with_cmd w1 c
    (with_subcommands (cmdAt w1 c)
       (<[name (cmdAt w1 cmd) := cmd]> (subcommands (cmdAt w1 c)))).

(** [Command.getCommandPath()]: the recursion on the parent.  On a parent
    cycle it never returns (the Go stack overflows), which is [None]. *)
Fixpoint getCommandPath_rec (fuel : nat) (w : World) (c : nat) : option string :=
  match fuel with
  | O => None
  | S fuel' =>
      match parent (cmdAt w c) with
      | None => Some (name (cmdAt w c))
      | Some p =>
          (fun s => s +:+ " " +:+ name (cmdAt w c)) <$> getCommandPath_rec fuel' w p
      end
  end.

Definition getCommandPath (w : World) (c : nat) : option string :=
  getCommandPath_rec (walk_fuel w) w c.

(** [CommandNotFoundError.Error()] *)
Definition CommandNotFoundError_Error (w : World) (n : string) (c : nat)
  : option string :=
  (fun p => "unknown command '" +:+ n +:+ "' for '" +:+ p +:+ "'")
    <$> getCommandPath w c.

(** ** completion.go *)

(** The words a flag contributes in [getCompletionWords]. *)
Definition flagWords (f : Flag) : list string :=
  if hidden f then []
  else ("--" +:+ PrimaryName f)
         :: (if String.eqb (ShortName f) EmptyString then []
             else ["-" +:+ ShortName f]).

(** [getCompletionWords(cmd)]: the names of the visible subcommands, then
    the words of the effective flags.  Go leaves the order in which a map
    is ranged over open; here it is the order of [map_to_list]. *)
Definition getCompletionWords (w : World) (c : nat) : option (list string) :=
  let subs :=
    List.filter (fun '(_, sub) => negb (cmdHidden (cmdAt w sub)))
                (map_to_list (subcommands (cmdAt w c))) in
  match getAllFlags w c with
  | None => None
  | Some allFlags =>
      Some (map fst subs ++ concat (map (fun a => flagWords (flagAt w a)) allFlags))
  end.

(** ** flag.go: defaults from struct tags *)

Section Defaults.
Context `{!GoFloat32}.

(** [parseDefaultValue(value, targetType)]: the default as a value of the
    target type, [None] for nil.  Integers are read at 64 bits and then
    converted to the target type, which cuts them to its width. *)
Definition parseDefaultValue (val : string) (targetType : GoType) : option Val :=
  match targetType with
  | TString => Some (VString val)
  | TBool =>
      match strconv.ParseBool val with
      | inl b => Some (VBool b)
      | inr _ => Some (VBool false)
      end
  | TDuration =>
      match time.ParseDuration val with
      | inl dur => Some (VInt dur)
      | inr _ => Some (VInt 0)
      end
  | TInt k =>
      match strconv.ParseInt val 64 with
      | (v, None) => Some (SetInt (IntBits k) v)
      | (_, Some _) => Some (Zero (TInt k))
      end
  | TUint k =>
      match strconv.ParseUint val 64 with
      | (v, None) => Some (SetUint (UintBits k) v)
      | (_, Some _) => Some (Zero (TUint k))
      end
  | TFloat32 =>
      match ParseFloat val 64 with
      | inl v => Some (VFloat (float32_of v))
      | inr _ => Some (Zero TFloat32)
      end
  | TFloat64 =>
      match ParseFloat val 64 with
      | inl v => Some (VFloat v)
      | inr _ => Some (Zero TFloat64)
      end
  | TSlice _ | TSetter _ _ | TOther => None
  end.

End Defaults.

(** ** Vocabulary of the properties *)

(** Setting the flag at [a] from the text [flagValue], as [Parse] does
    for a token [flagName=flagValue] that is the only one. *)
Definition assign (w : World) (a : nat) (flagName flagValue : string)
  : World * (list string + ParseErr) :=
  match setValue (flagAt w a) flagValue (mem w) with
  | (m, Some err) => (with_mem w m, inr (InvalidValue flagValue flagName err))
  | (m, None) => (with_flag (with_mem w m) a (Flag_with_set (flagAt w a) true), inl [])
  end.

(** Two worlds with the same flag structs up to their [set] marks. *)
Definition same_bindings (w w' : World) : Prop :=
  forall a, Flag_with_set (flagAt w' a) false = Flag_with_set (flagAt w a) false.

(** The number a string of decimal digits denotes, from the accumulator
    [acc]; [None] when a byte is not a digit. *)
Fixpoint digits_value (s : string) (acc : Z) : option Z :=
  match s with
  | EmptyString => Some acc
  | String c s' =>
      if strconv.is_digit c then digits_value s' (acc * 10 + (strconv.byte c - 48))
      else None
  end.

(** The number an unsigned decimal numeral denotes. *)
Definition base10 (s : string) : option Z :=
  match s with
  | EmptyString => None
  | _ => digits_value s 0
  end.

(** The number a decimal numeral with an optional sign denotes. *)
Definition signed_base10 (s : string) : option Z :=
  match s with
  | String c s' =>
      if Ascii.eqb c "+" then base10 s'
      else if Ascii.eqb c "-" then Z.opp <$> base10 s'
      else base10 s
  | EmptyString => None
  end.

(** Every byte is a decimal digit. *)
Fixpoint all_digits (s : string) : bool :=
  match s with
  | EmptyString => true
  | String c s' => strconv.is_digit c && all_digits s'
  end.

(** A token made of digits only: at least one, and nothing else. *)
Definition digits_only (s : string) : bool :=
  negb (String.eqb s EmptyString) && all_digits s.

(** A decimal number as a duration has it: digits, an optional point with
    more digits, and at least one digit in all. *)
Inductive numeral : string -> Prop :=
| numeral_int ds :
    all_digits ds = true -> ds <> EmptyString -> numeral ds
| numeral_frac ds fs :
    all_digits ds = true -> all_digits fs = true ->
    ds <> EmptyString \/ fs <> EmptyString ->
    numeral (ds +:+ "." +:+ fs).

(** A compound duration: one or more numbers, each followed by a unit. *)
Inductive compound : string -> Prop :=
| compound_one n u :
    numeral n -> is_Some (time.unitMap u) -> compound (n +:+ u)
| compound_more n u rest :
    numeral n -> is_Some (time.unitMap u) -> compound rest ->
    compound (n +:+ u +:+ rest).

(** [lineage w c path]: [path] is [c], its parent, and so on up to a
    command without parent.  A command has a lineage exactly when following
    [parent] from it ends, that is, when it sits in a tree. *)
Inductive lineage (w : World) : nat -> list nat -> Prop :=
| lineage_root c : parent (cmdAt w c) = None -> lineage w c [c]
| lineage_child c p path :
    parent (cmdAt w c) = Some p -> lineage w p path -> lineage w c (c :: path).

(** The primary name of the flag at [a]. *)
Definition pname (w : World) (a : nat) : string := PrimaryName (flagAt w a).

(** The flags of the commands of [path], in order. *)
Definition declared (w : World) (path : list nat) : list nat :=
  concat (map (fun c => flags (cmdAt w c)) path).



(** Every fixed parameter of an action can be given a value: its token
    converts, or it has no token and its declaration, if there is one, is
    optional. *)
Definition fixed_bindable (decl : list Argument) (tys : list GoType)
    (argv : list string) : Prop :=
  forall i ty, tys !! i = Some ty ->
    match argv !! i with
    | Some arg => exists v, convertArgument arg ty = inl v
    | None => match decl !! i with
              | Some d => Required d = false
              | None => True
              end
    end.

(** A token that does not start with a dash. *)
Definition positional (arg : string) : bool := negb (strings.HasPrefix arg "-").

(** The token [--n=v]. *)
Definition long_token (n v : string) : string := "--" +:+ n +:+ "=" +:+ v.

(** [strings.Join(l, " ")] *)
Fixpoint join_space (l : list string) : string :=
  match l with
  | [] => EmptyString
  | x :: rest =>
      match rest with
      | [] => x
      | _ :: _ => x +:+ " " +:+ join_space rest
      end
  end.

(** The names of the commands of [l]. *)
Definition cmdNames (w : World) (l : list nat) : list string :=
  map (fun x => name (cmdAt w x)) l.

End Engine.

(** * Examples

    Worlds to run the engine on.  None of them holds a float, so the float
    operations are a stand-in that rejects every token. *)

#[global] Instance no_floats : GoFloat := {|
  float := unit;
  float_zero := tt;
  ParseFloat := fun _ _ => inr strconv.ErrSyntax;
  scale_fraction := fun _ _ _ => 0
|}.

(** The conversions of [reflect] the examples use: between the integer
    types, with the wrap-around of Go's conversion, and of a boolean or a
    string to its own kind. *)
#[global] Instance example_reflect : GoReflect := {|
  Convert := fun v t =>
    match v, t with
    | VInt n, TInt k | VUint n, TInt k => Some (SetInt (IntBits k) n)
    | VInt n, TDuration | VUint n, TDuration => Some (SetInt 64 n)
    | VInt n, TUint k | VUint n, TUint k => Some (SetUint (UintBits k) n)
    | VBool b, TBool => Some (VBool b)
    | VString s, TString => Some (VString s)
    | _, _ => None
    end
|}.

Definition hook_ok : Hook := fun _ m => (m, None).


(** A command (0) with three flags: [--verbose]/[-v], a bool in variable
    0; [--port]/[-p], an int8 in variable 1 holding 7; [--timeout]/[-t], a
    required duration in variable 2. *)
Definition example_flags : World :=
  mkWorld
    {[ O := with_flags (Cmd "serve") [O; 1%nat; 2%nat] ]}
    {[ O := mkFlag ["verbose"; "v"]%string TBool None EmptyString O false false false;
       1%nat := mkFlag ["port"; "p"]%string (TInt Int8) None EmptyString 1%nat false false false;
       2%nat := mkFlag ["timeout"; "t"]%string TDuration None EmptyString 2%nat true false false ]}
    {[ O := VBool false; 1%nat := VInt 7; 2%nat := VInt 0 ]}
    [].

(** A root (0) that declares [--region] (flag 0) and [--trace] (flag 1),
    and its child (1) that declares [--region] again (flag 2). *)
Definition example_shadow : World :=
  mkWorld
    {[ O := with_flags (Cmd "root") [O; 1%nat];
       1%nat := mkCommand "sub" EmptyString [] [2%nat] ∅ (Some O) None false None None None None
                  true "help" "h" ]}
    {[ O := mkFlag ["region"%string] TString None EmptyString O false false false;
       1%nat := mkFlag ["trace"%string] TBool None EmptyString 1%nat false false false;
       2%nat := mkFlag ["region"%string] TString None EmptyString 2%nat false false false ]}
    ∅ [].

(** A root (0) whose registry holds two flags of primary name [region]
    (0 and 1), and its child (1) without flags. *)
Definition example_twice : World :=
  mkWorld
    {[ O := with_flags (Cmd "root") [O; 1%nat];
       1%nat := mkCommand "sub" EmptyString [] [] ∅ (Some O) None false None None None None
                  true "help" "h" ]}
    {[ O := mkFlag ["region"%string] TString None EmptyString O false false false;
       1%nat := mkFlag ["region"%string] TString None EmptyString 1%nat false false false ]}
    ∅ [].

(** One command (0) without flags. *)
Definition example_bare : World := mkWorld {[ O := Cmd "app" ]} ∅ ∅ [].

(** The action [func(ctx, cmd, first string, rest ...string) error] on a
    command (0) whose one declared argument is optional.  The action
    writes its arguments to variables 0 and 1. *)
Definition first_rest_action : Action :=
  mkAction [TString] (Some TString)
    (fun _ callArgs m =>
       (<[1%nat := callArgs !!! 1%nat]> (<[O := callArgs !!! O]> m), None)).

Definition example_variadic : World :=
  mkWorld
    {[ O := mkCommand "run" EmptyString [mkArgument "first" "First arg" false] [] ∅ None
              (Some first_rest_action) false None None None None true "help" "h" ]}
    ∅ ∅ [].

(** The same with two fixed string parameters. *)
Definition example_variadic2 : World :=
  let act := mkAction [TString; TString] (Some TString)
               (fun _ callArgs m => (<[O := VSlice callArgs]> m, None)) in
  mkWorld
    {[ O := mkCommand "run" EmptyString [] [] ∅ None (Some act) false None None None None
              true "help" "h" ]}
    ∅ ∅ [].

(** ** The claims the code does not meet, as they are stated *)

(** C2's last part: every flag of an ancestor whose primary name no
    command below it declares is in the effective flag set. *)
Definition inherits_every_unshadowed (w : World) (c : nat) : Prop :=
  forall path fl below d above a,
    lineage w c path ->
    getAllFlags w c = Some fl ->
    path = below ++ d :: above ->
    In a (flags (cmdAt w d)) ->
    (forall x y, In x below -> In y (flags (cmdAt w x)) -> pname w y <> pname w a) ->
    In a fl.

(** C3: after a second flag of the same primary name is added to the
    command, lookup, the effective flag set and parsing use the later
    one. *)
Definition later_binding_wins (w : World) (c ptr1 ptr2 : nat) (ty : GoType)
    (n : string) (dv1 dv2 : option Val) (v : string) : Prop :=
  let w1 := Command_Flag w c ptr1 ty n EmptyString dv1 EmptyString in
  let w2 := Command_Flag w1 c ptr2 ty n EmptyString dv2 EmptyString in
  let later := fresh (dom (flagStructs w1)) in
  GetFlag w2 (flags (cmdAt w2 c)) n = Some later
  /\ exists fl, getAllFlags w2 c = Some fl
       /\ In later fl
       /\ Parse fl ["--" +:+ n +:+ "=" +:+ v] w2 = assign w2 later n v.

(** C5's first part: a token of digits alone is a conversion error for a
    duration flag. *)
Definition digits_only_rejected (flag : Flag) : Prop :=
  forall val m, digits_only val = true ->
    exists err, (setValue flag val m).2 = Some err.

(** [example_bare] after [--port] was added twice, bound to variables 0
    and 1: the flag structs get the addresses 0 and 1. *)
Definition example_port_twice : World :=
  Command_Flag
    (Command_Flag example_bare O O (TInt Int) "port" EmptyString (Some (VInt 8080)) EmptyString)
    O 1%nat (TInt Int) "port" EmptyString (Some (VInt 9090)) EmptyString.

(** The conversion to float32 to go with [no_floats]. *)
#[global] Instance no_float32 : GoFloat32 := {| float32_of := fun f => f |}.

(** A command (0) with a string flag [--name] (0) in variable 0 and a
    flag [--tag] (1) bound to a list of strings in variable 1, which holds
    [base]. *)
Definition example_tags : World :=
  mkWorld
    {[ O := with_flags (Cmd "label") [O; 1%nat] ]}
    {[ O := mkFlag ["name"%string] TString None EmptyString O false false false;
       1%nat := mkFlag ["tag"%string] (TSlice TString) None EmptyString 1%nat
                  false false false ]}
    {[ 1%nat := VSlice [VString "base"] ]}
    [].

(** The action [func(ctx, cmd, target string) error], which writes its
    argument to variable 3. *)
Definition store_target : Action :=
  mkAction [TString] None (fun _ callArgs m => (<[3%nat := callArgs !!! O]> m, None)).

(** Three levels: [app] (0), with [--verbose]/[-v] (flag 0) and both
    persistent hooks; below it [db] (1), with the hidden flag [--dsn]
    (flag 1); below that [migrate] (2), with [--steps]/[-n] (flag 2), a
    required argument [target] and the action [store_target], and the
    hidden command [shell] (3).  A second command named [db] (4) hangs
    nowhere. *)
Definition example_deep : World :=
  mkWorld
    {[ O := mkCommand "app" EmptyString [] [O] {[ "db"%string := 1%nat ]} None None false
              (Some hook_ok) None None (Some hook_ok) true "help" "h";
       1%nat := mkCommand "db" EmptyString [] [1%nat]
                  {[ "migrate"%string := 2%nat; "shell"%string := 3%nat ]} (Some O) None
                  false None None None None true "help" "h";
       2%nat := mkCommand "migrate" EmptyString [mkArgument "target" "Version" true]
                  [2%nat] ∅ (Some 1%nat) (Some store_target) false None None None None
                  true "help" "h";
       3%nat := mkCommand "shell" EmptyString [] [] ∅ (Some 1%nat) None true None None None
                  None true "help" "h";
       4%nat := Cmd "db" ]}
    {[ O := mkFlag ["verbose"; "v"]%string TBool None EmptyString O false false false;
       1%nat := mkFlag ["dsn"%string] TString None EmptyString 1%nat false true false;
       2%nat := mkFlag ["steps"; "n"]%string (TInt Int) None EmptyString 2%nat
                  false false false ]}
    ∅ [].

(** [example_bare] after [--port]/[-p] was added: the flag struct gets the
    address 0. *)
Definition example_port : World :=
  Command_Flag example_bare O O (TInt Int) "port" "p" None EmptyString.

(** A root [app] (0) with the boolean flag [--verbose]/[-v] (flag 0, in
    variable 0), and its child [info] (1) with the boolean flag
    [--version]/[-v] (flag 1, in variable 1).  The primary names differ, so
    the child's effective flag set holds both, its own first. *)
Definition example_alias_clash : World :=
  mkWorld
    {[ O := mkCommand "app" EmptyString [] [O] {[ "info"%string := 1%nat ]} None None false
              None None None None true "help" "h";
       1%nat := mkCommand "info" EmptyString [] [1%nat] ∅ (Some O) None false None None None
                  None true "help" "h" ]}
    {[ O := mkFlag ["verbose"; "v"]%string TBool None EmptyString O false false false;
       1%nat := mkFlag ["version"; "v"]%string TBool None EmptyString 1%nat
                  false false false ]}
    {[ O := VBool false; 1%nat := VBool false ]}
    [].

(** C6: for a boolean binding with the names [verbose] and [v], each of
    the four tokens stores [true] in the binding's variable and marks the
    binding as set. *)
Definition boolean_forms_set_binding (w : World) (fs : list nat) (a : nat) : Prop :=
  In a fs ->
  names (flagAt w a) = ["verbose"; "v"]%string ->
  flagType (flagAt w a) = TBool ->
  forall tok, In tok ["-v"; "-v=true"; "--verbose"; "--verbose=true"]%string ->
    mem (Parse fs [tok] w).1 !! value (flagAt w a) = Some (VBool true)
    /\ set (flagAt (Parse fs [tok] w).1 a) = true.

(** C10: for every binding, [-name=value] with the long name and
    [--n=value] with the alias are both taken and set that binding. *)
Definition either_dash_sets_binding (w : World) (fs : list nat) (a : nat) : Prop :=
  forall long short v,
    In a fs ->
    names (flagAt w a) = [long; short] ->
    Parse fs ["-" +:+ long +:+ "=" +:+ v] w = assign w a long v
    /\ Parse fs ["--" +:+ short +:+ "=" +:+ v] w = assign w a short v.

(** [example_port] after [p] was added twice, bound to variables 1 and 2:
    the flag structs get the addresses 1 and 2. *)
Definition example_alias_twice : World :=
  Command_Flag
    (Command_Flag example_port O 1%nat TString "p" EmptyString None EmptyString)
    O 2%nat TString "p" EmptyString None EmptyString.

(** A command (0) with two required string flags, [--user] (flag 0, in
    variable 0) and [--token] (flag 1, in variable 1). *)
Definition example_two_required : World :=
  mkWorld
    {[ O := with_flags (Cmd "login") [O; 1%nat] ]}
    {[ O := mkFlag ["user"%string] TString None EmptyString O true false false;
       1%nat := mkFlag ["token"%string] TString None EmptyString 1%nat true false false ]}
    ∅ [].

(** * Properties *)

Section Properties.
Context `{GoFloat}.
Context `{!GoReflect}.

(** ** Strings *)

Lemma append_nil s : EmptyString +:+ s = s.
Proof. reflexivity. Qed.

Lemma append_cons c s r : String c s +:+ r = String c (s +:+ r).
Proof. reflexivity. Qed.

Lemma upto_app n r : strings.upto (String.length n) (n +:+ r) = n.
Proof.
  induction n as [|c n IH]; [by destruct r|].
  rewrite append_cons. cbn [String.length strings.upto]. by rewrite IH.
Qed.

Lemma from_S_app n v :
  strings.from (S (String.length n)) (n +:+ String "=" v) = v.
Proof. induction n as [|c n IH]; [done|]. rewrite append_cons. apply IH. Qed.

Lemma HasPrefix_eq_cons c s : strings.HasPrefix (String c s) "=" = Ascii.eqb "=" c.
Proof. cbn [strings.HasPrefix]. by rewrite andb_true_r. Qed.

Lemma Index_eq n v :
  strings.has_byte "=" n = false ->
  strings.Index (n +:+ String "=" v) "=" = Some (String.length n).
Proof.
  induction n as [|c n IH]; intros Hn.
  - rewrite append_nil. cbn [strings.Index]. by rewrite HasPrefix_eq_cons.
  - cbn [strings.has_byte] in Hn.
    rewrite append_cons. cbn [strings.Index]. rewrite HasPrefix_eq_cons.
    destruct (Ascii.eqb "=" c); [done|].
    by rewrite IH.
Qed.

Lemma Index_eq_absent n :
  strings.has_byte "=" n = false -> strings.Index n "=" = None.
Proof.
  induction n as [|c n IH]; intros Hn; [done|].
  cbn [strings.has_byte] in Hn. cbn [strings.Index].
  rewrite HasPrefix_eq_cons. destruct (Ascii.eqb "=" c); [done|].
  by rewrite IH.
Qed.

Lemma split_name_value n v :
  strings.has_byte "=" n = false ->
  match strings.Index (n +:+ String "=" v) "=" with
  | Some idx => (strings.upto idx (n +:+ String "=" v),
                 strings.from (S idx) (n +:+ String "=" v), true)
  | None => (n +:+ String "=" v, EmptyString, false)
  end = (n, v, true).
Proof. intros Hn. rewrite Index_eq by done. by rewrite upto_app, from_S_app. Qed.

(** [--name=value] splits into the name and the value. *)
Lemma splitFlag_two_dashes n v :
  strings.has_byte "=" n = false ->
  splitFlag ("--" +:+ n +:+ String "=" v) = (n, v, true).
Proof.
  intros Hn. unfold splitFlag. rewrite !append_cons, append_nil.
  cbn [strings.HasPrefix strings.from]. change (Ascii.eqb "-" "-") with true.
  cbn [andb]. by apply split_name_value.
Qed.

(** So does [-name=value], unless the name itself starts with a dash. *)
Lemma splitFlag_one_dash n v :
  strings.has_byte "=" n = false ->
  strings.HasPrefix n "-" = false ->
  splitFlag ("-" +:+ n +:+ String "=" v) = (n, v, true).
Proof.
  intros Hn Hd. unfold splitFlag. rewrite !append_cons, append_nil.
  replace (strings.HasPrefix (String "-" (n +:+ String "=" v)) "--") with false.
  - cbn [strings.from]. by apply split_name_value.
  - destruct n as [|c n]; [done|].
    cbn [strings.HasPrefix] in Hd. rewrite andb_true_r in Hd.
    rewrite append_cons. cbn [strings.HasPrefix]. change (Ascii.eqb "-" "-") with true.
    cbn [andb]. by rewrite Hd.
Qed.

Lemma HasPrefix_dash s : strings.HasPrefix ("-" +:+ s) "-" = true.
Proof. done. Qed.

(** ** The flag registry *)

Lemma GetFlag_first w pre a post n :
  (forall b, In b pre -> HasName (flagAt w b) n = false) ->
  HasName (flagAt w a) n = true ->
  GetFlag w (pre ++ a :: post) n = Some a.
Proof.
  unfold GetFlag. induction pre as [|b pre IH]; intros Hpre Ha; cbn [app find].
  - by rewrite Ha.
  - rewrite (Hpre b) by (by left). apply IH; [|done].
    intros b' Hb'. apply Hpre. by right.
Qed.

Lemma GetFlag_Some w fs n a :
  GetFlag w fs n = Some a -> In a fs /\ HasName (flagAt w a) n = true.
Proof. unfold GetFlag. intros Hf. by apply find_some in Hf. Qed.

(** A flag answers to a name when the name is among its names. *)
Lemma HasName_In f n : HasName f n = true <-> In n (names f).
Proof.
  unfold HasName. rewrite existsb_exists. split.
  - intros (x & Hx & Heq). apply String.eqb_eq in Heq. by subst.
  - intros Hin. exists n. split; [done|apply String.eqb_refl].
Qed.

Lemma HasName_not_In f n : ~ In n (names f) -> HasName f n = false.
Proof.
  intros Hn. destruct (HasName f n) eqn:Hh; [|done]. by apply HasName_In in Hh.
Qed.

(** Lookup gives the first flag that has the name among its names. *)
Lemma GetFlag_first_named w pre a post n :
  (forall b, In b pre -> ~ In n (names (flagAt w b))) ->
  In n (names (flagAt w a)) ->
  GetFlag w (pre ++ a :: post) n = Some a.
Proof.
  intros Hpre Ha. apply GetFlag_first.
  - intros b Hb. by apply HasName_not_In, Hpre.
  - by apply HasName_In.
Qed.

Lemma GetFlag_app w l1 l2 n :
  GetFlag w (l1 ++ l2) n =
  match GetFlag w l1 n with Some b => Some b | None => GetFlag w l2 n end.
Proof.
  unfold GetFlag. induction l1 as [|b l1 IH]; [done|]. cbn [app find].
  by destruct (HasName (flagAt w b) n).
Qed.

Lemma GetFlag_ext w w' fs n :
  (forall b, In b fs -> flagAt w' b = flagAt w b) -> GetFlag w' fs n = GetFlag w fs n.
Proof.
  unfold GetFlag. induction fs as [|b fs IH]; intros Heq; [done|]. cbn [find].
  rewrite (Heq b) by (by left). rewrite IH; [done|].
  intros b' Hb'. apply Heq. by right.
Qed.

Lemma Parse_with_value w fs arg n v a :
  strings.HasPrefix arg "-" = true ->
  splitFlag arg = (n, v, true) ->
  GetFlag w fs n = Some a ->
  Parse fs [arg] w = assign w a n v.
Proof.
  intros Hd Hs Hg. unfold Parse, assign. cbn [Parse_loop]. rewrite Hd. cbn [negb].
  unfold parseFlag. rewrite Hs, Hg.
  destruct (flagType (flagAt w a)); cbn [negb];
    by destruct (setValue (flagAt w a) v (mem w)) as [m [err|]].
Qed.

(** [setValue] writes no variable but the flag's own. *)
Lemma setValue_frame flag val m m' r l :
  setValue flag val m = (m', r) -> l <> value flag -> m' !! l = m !! l.
Proof.
  unfold setValue. intros Hs Hl.
  repeat case_match; simplify_eq; try done;
    by rewrite lookup_insert_ne.
Qed.

Lemma same_bindings_refl w : same_bindings w w.
Proof. done. Qed.

Lemma same_bindings_trans w1 w2 w3 :
  same_bindings w1 w2 -> same_bindings w2 w3 -> same_bindings w1 w3.
Proof. intros H12 H23 a. by rewrite H23, H12. Qed.

Lemma same_bindings_fields w w' a :
  same_bindings w w' ->
  names (flagAt w' a) = names (flagAt w a)
  /\ flagType (flagAt w' a) = flagType (flagAt w a)
  /\ value (flagAt w' a) = value (flagAt w a)
  /\ required (flagAt w' a) = required (flagAt w a).
Proof.
  intros Hs. specialize (Hs a).
  destruct (flagAt w' a), (flagAt w a). unfold Flag_with_set in Hs.
  cbn in Hs. injection Hs as -> -> -> -> -> -> ->. done.
Qed.

Lemma same_bindings_GetFlag w w' fs n :
  same_bindings w w' -> GetFlag w' fs n = GetFlag w fs n.
Proof.
  intros Hs. unfold GetFlag. induction fs as [|a fs IH]; [done|].
  cbn [find]. unfold HasName at 1 3.
  destruct (same_bindings_fields w w' a Hs) as [-> _].
  by rewrite IH.
Qed.

Lemma with_flag_set_same w m a :
  same_bindings w (with_flag (with_mem w m) a (Flag_with_set (flagAt w a) true)).
Proof.
  intros b. unfold flagAt, with_flag, with_mem. cbn.
  destruct (decide (a = b)) as [->|Hne].
  - by rewrite lookup_total_insert_eq.
  - by rewrite lookup_total_insert_ne.
Qed.

(** One flag token leaves the commands, the trace and every field of every
    flag struct but [set] as they were, and writes at most the variable of
    the flag it names. *)
Lemma parseFlag_effect fs arg w w' r :
  parseFlag fs arg w = (w', r) ->
  cmds w' = cmds w /\ trace w' = trace w /\ same_bindings w w'
  /\ forall l,
       (forall a, GetFlag w fs (splitFlag arg).1.1 = Some a ->
                  value (flagAt w a) <> l) ->
       mem w' !! l = mem w !! l.
Proof.
  unfold parseFlag. destruct (splitFlag arg) as [[flagName flagValue] hasValue].
  cbn [fst]. destruct (GetFlag w fs flagName) as [a|] eqn:Hg.
  2:{ intros [= <- <-]. by split_and!. }
  intros Hp.
  assert (Hset : forall m r0, setValue (flagAt w a) flagValue (mem w) = (m, r0) ->
            forall l, (forall a0, Some a = Some a0 -> value (flagAt w a0) <> l) ->
            m !! l = mem w !! l).
  { intros m r0 Hs l Hl. eapply setValue_frame; [done|]. intros ->. by eapply Hl. }
  destruct (flagType (flagAt w a)); destruct hasValue; cbn [negb] in Hp;
    try (destruct (setValue (flagAt w a) flagValue (mem w)) as [m [err|]] eqn:Hs);
    simplify_eq; cbn;
    split_and!; try done; try apply with_flag_set_same; eauto.
  all: intros l Hl; rewrite lookup_insert_ne; [done|]; by apply Hl.
Qed.

Lemma Parse_loop_effect fs argv : forall remaining w w' r,
  Parse_loop fs argv remaining w = (w', r) ->
  cmds w' = cmds w /\ trace w' = trace w /\ same_bindings w w'
  /\ forall l,
       (forall tok a, In tok argv -> GetFlag w fs (splitFlag tok).1.1 = Some a ->
                      value (flagAt w a) <> l) ->
       mem w' !! l = mem w !! l.
Proof.
  induction argv as [|arg rest IH]; intros remaining w w' r Hp; cbn [Parse_loop] in Hp.
  - by simplify_eq.
  - destruct (negb (strings.HasPrefix arg "-")).
    + apply IH in Hp as (Hc & Ht & Hb & Hm). split_and!; try done.
      intros l Hl. apply Hm. intros tok a Hin. apply Hl. by right.
    + destruct (parseFlag fs arg w) as [w1 [err|]] eqn:Hf;
        apply parseFlag_effect in Hf as (Hc1 & Ht1 & Hb1 & Hm1).
      * simplify_eq. split_and!; try done.
        intros l Hl. apply Hm1. intros a. apply Hl. by left.
      * apply IH in Hp as (Hc & Ht & Hb & Hm).
        split_and!; [congruence|congruence|by apply (same_bindings_trans w w1 w')|].
        intros l Hl. rewrite Hm.
        -- apply Hm1. intros a. apply Hl. by left.
        -- intros tok a Hin. rewrite (same_bindings_GetFlag w w1) by done.
           destruct (same_bindings_fields w w1 a Hb1) as (_ & _ & -> & _).
           apply Hl. by right.
Qed.

(** Tokens are handled one after the other: the second half of a vector
    is parsed in the world the first half left. *)
Lemma Parse_loop_app fs argv1 : forall argv2 remaining w,
  Parse_loop fs (argv1 ++ argv2) remaining w =
  match Parse_loop fs argv1 remaining w with
  | (w1, inl remaining1) => Parse_loop fs argv2 remaining1 w1
  | (w1, inr err) => (w1, inr err)
  end.
Proof.
  induction argv1 as [|arg rest IH]; intros argv2 remaining w; cbn [app Parse_loop].
  - done.
  - destruct (negb (strings.HasPrefix arg "-")); [apply IH|].
    destruct (parseFlag fs arg w) as [w1 [err|]]; [done|apply IH].
Qed.

(** A failure does not depend on the tokens set aside so far. *)
Lemma Parse_loop_error fs argv : forall remaining remaining' w w' err,
  Parse_loop fs argv remaining w = (w', inr err) ->
  Parse_loop fs argv remaining' w = (w', inr err).
Proof.
  induction argv as [|arg rest IH]; intros remaining remaining' w w' err;
    cbn [Parse_loop]; [done|].
  destruct (negb (strings.HasPrefix arg "-")); [apply IH|].
  destruct (parseFlag fs arg w) as [w1 [e|]]; [done|apply IH].
Qed.

Lemma flagAt_with_flag_eq w m a f : flagAt (with_flag (with_mem w m) a f) a = f.
Proof. unfold flagAt, with_flag. cbn. apply lookup_total_insert_eq. Qed.


(** A flag token changes no flag struct but the one it names, and that
    one only by marking it as set. *)
Lemma parseFlag_marks fs arg w w' r a :
  parseFlag fs arg w = (w', r) ->
  flagStructs w' !! a = flagStructs w !! a
  \/ (GetFlag w fs (splitFlag arg).1.1 = Some a
      /\ flagStructs w' !! a = Some (Flag_with_set (flagAt w a) true)).
Proof.
  unfold parseFlag. destruct (splitFlag arg) as [[flagName flagValue] hasValue].
  cbn [fst]. destruct (GetFlag w fs flagName) as [b|] eqn:Hg.
  2:{ intros [= <- <-]. by left. }
  intros Hp.
  assert (Hmark : forall m,
    flagStructs (with_flag (with_mem w m) b (Flag_with_set (flagAt w b) true)) !! a
      = flagStructs w !! a
    \/ (Some b = Some a
        /\ flagStructs (with_flag (with_mem w m) b (Flag_with_set (flagAt w b) true)) !! a
           = Some (Flag_with_set (flagAt w a) true))).
  { intros m. cbn. destruct (decide (b = a)) as [->|Hne].
    - right. by rewrite lookup_insert_eq.
    - left. by rewrite lookup_insert_ne. }
  destruct (flagType (flagAt w b)); destruct hasValue; cbn [negb] in Hp;
    try (destruct (setValue (flagAt w b) flagValue (mem w)) as [m [err|]] eqn:Hs);
    simplify_eq; try (by left); apply Hmark.
Qed.

Lemma Parse_loop_marks fs argv : forall remaining w w' r a,
  Parse_loop fs argv remaining w = (w', r) ->
  flagStructs w' !! a = flagStructs w !! a
  \/ (In a fs
      /\ (exists tok, In tok argv /\ positional tok = false
                      /\ GetFlag w fs (splitFlag tok).1.1 = Some a)
      /\ flagStructs w' !! a = Some (Flag_with_set (flagAt w a) true)).
Proof.
  induction argv as [|arg rest IH]; intros remaining w w' r a Hp; cbn [Parse_loop] in Hp.
  - simplify_eq. by left.
  - destruct (negb (strings.HasPrefix arg "-")) eqn:Hdash.
    + destruct (IH _ _ _ _ a Hp) as [Hs|(Hin & (tok & Htok & Hpos & Hg) & Hs)]; [by left|].
      right. split_and!; [done| |done]. exists tok. split; [by right|done].
    + destruct (parseFlag fs arg w) as [w1 [err|]] eqn:Hf.
      * simplify_eq. destruct (parseFlag_marks _ _ _ _ _ a Hf) as [Hs|[Hg Hs]]; [by left|].
        right. split_and!; [by apply GetFlag_Some in Hg as []| |done].
        exists arg. split; [by left|done].
      * pose proof (parseFlag_effect _ _ _ _ _ Hf) as (_ & _ & Hb & _).
        destruct (IH _ _ _ _ a Hp) as [Hs|(Hin & (tok & Htok & Hpos & Hg) & Hs)].
        -- destruct (parseFlag_marks _ _ _ _ _ a Hf) as [Hs1|[Hg Hs1]].
           ++ left. congruence.
           ++ right. split_and!; [by apply GetFlag_Some in Hg as []| |congruence].
              exists arg. split; [by left|done].
        -- right. split_and!; [done| |].
           ++ exists tok. split; [by right|]. split; [done|].
              by rewrite <- (same_bindings_GetFlag w w1).
           ++ rewrite Hs. f_equal.
              pose proof (Hb a) as Ha. unfold Flag_with_set in *.
              by injection Ha as -> -> -> -> -> -> ->.
Qed.

(** A [set] mark is never taken back. *)
Lemma Parse_loop_set_mono fs argv remaining w w' r a :
  Parse_loop fs argv remaining w = (w', r) ->
  set (flagAt w a) = true -> set (flagAt w' a) = true.
Proof.
  intros Hp Hset. destruct (Parse_loop_marks _ _ _ _ _ _ a Hp) as [Hs|(_ & _ & Hs)].
  - unfold flagAt. by rewrite !lookup_total_alt, Hs, <- lookup_total_alt.
  - unfold flagAt at 1. by rewrite lookup_total_alt, Hs.
Qed.

(** ** Claims about the tokenizer *)

(** C6, as the code has it.  For a boolean binding named [verbose] with
    the alias [v] before which no binding of the set has [verbose] or [v]
    among its names, each of the tokens [-v], [-v=true], [--verbose] and
    [--verbose=true], parsed on its own, leaves the same world: [true] in
    the variable the binding points to, and the binding marked as set. *)
Theorem boolean_token_forms w pre a post tok :
  (forall b, In b pre ->
     ~ In "verbose"%string (names (flagAt w b))
     /\ ~ In "v"%string (names (flagAt w b))) ->
  names (flagAt w a) = ["verbose"; "v"]%string ->
  flagType (flagAt w a) = TBool ->
  In tok ["-v"; "-v=true"; "--verbose"; "--verbose=true"]%string ->
  let w' := with_flag (with_mem w (<[value (flagAt w a) := VBool true]> (mem w)))
                      a (Flag_with_set (flagAt w a) true) in
  Parse (pre ++ a :: post) [tok] w = (w', inl [])
  /\ mem w' !! value (flagAt w a) = Some (VBool true)
  /\ set (flagAt w' a) = true.
Proof.
  intros Hpre Hn Hty Htok w'.
  assert (Hlong : GetFlag w (pre ++ a :: post) "verbose" = Some a).
  { apply GetFlag_first_named; [intros b Hb; by apply Hpre|]. rewrite Hn. by left. }
  assert (Hshort : GetFlag w (pre ++ a :: post) "v" = Some a).
  { apply GetFlag_first_named; [intros b Hb; by apply Hpre|]. rewrite Hn. right. by left. }
  split_and!.
  - assert (Hbare : forall arg n, strings.HasPrefix arg "-" = true ->
              splitFlag arg = (n, EmptyString, false) ->
              GetFlag w (pre ++ a :: post) n = Some a ->
              Parse (pre ++ a :: post) [arg] w = (w', inl [])).
    { intros arg n Hd Hs Hg. unfold Parse. cbn [Parse_loop]. rewrite Hd. cbn [negb].
      unfold parseFlag. by rewrite Hs, Hg, Hty. }
    assert (Hval : forall arg n, strings.HasPrefix arg "-" = true ->
              splitFlag arg = (n, "true"%string, true) ->
              GetFlag w (pre ++ a :: post) n = Some a ->
              Parse (pre ++ a :: post) [arg] w = (w', inl [])).
    { intros arg n Hd Hs Hg. rewrite (Parse_with_value w _ arg n "true" a) by done.
      unfold assign, setValue. by rewrite Hty. }
    cbn [In] in Htok. destruct Htok as [<-|[<-|[<-|[<-|[]]]]].
    + by apply (Hbare _ "v"%string).
    + by apply (Hval _ "v"%string).
    + by apply (Hbare _ "verbose"%string).
    + by apply (Hval _ "verbose"%string).
  - subst w'. cbn. apply lookup_insert_eq.
  - subst w'. by rewrite flagAt_with_flag_eq.
Qed.

(** One dash more in front of a token changes nothing, unless what
    follows the first dash starts with a dash itself. *)
Lemma splitFlag_dashes s :
  strings.HasPrefix s "-" = false -> splitFlag ("-" +:+ s) = splitFlag ("--" +:+ s).
Proof.
  intros Hs.
  assert (H1 : strings.HasPrefix ("-" +:+ s) "--" = false).
  { destruct s as [|ch s]; [done|]. rewrite append_cons, append_nil.
    cbn [strings.HasPrefix] in Hs |- *. rewrite andb_true_r in Hs.
    change (Ascii.eqb "-" "-") with true. cbn [andb]. by rewrite Hs. }
  assert (H2 : strings.HasPrefix ("--" +:+ s) "--" = true) by done.
  unfold splitFlag. by rewrite H1, H2.
Qed.

(** C10, as the code has it.  The number of dashes is not looked at
    beyond stripping them: a token whose text after the first dash does
    not start with a dash is parsed the same with a second dash in front,
    wherever it stands.  So for a binding with a long name and an alias,
    whose names carry no [=], whose long name does not start with a dash,
    and before which no binding of the set has either name among its
    names, [-long=value] and [--alias=value] are both looked up to that
    binding and set it from [value]. *)
Theorem dashes_not_distinguished w pre a post long short v :
  (forall b, In b pre ->
     ~ In long (names (flagAt w b)) /\ ~ In short (names (flagAt w b))) ->
  names (flagAt w a) = [long; short] ->
  strings.has_byte "=" long = false ->
  strings.has_byte "=" short = false ->
  strings.HasPrefix long "-" = false ->
  Parse (pre ++ a :: post) ["-" +:+ long +:+ "=" +:+ v] w = assign w a long v
  /\ Parse (pre ++ a :: post) ["--" +:+ short +:+ "=" +:+ v] w = assign w a short v
  /\ forall fs before s after w0,
       strings.HasPrefix s "-" = false ->
       Parse fs (before ++ ("-" +:+ s) :: after) w0
       = Parse fs (before ++ ("--" +:+ s) :: after) w0.
Proof.
  intros Hpre Hn Hl Hs Hd.
  assert (Hlong : GetFlag w (pre ++ a :: post) long = Some a).
  { apply GetFlag_first_named; [intros b Hb; by apply Hpre|]. rewrite Hn. by left. }
  assert (Hshort : GetFlag w (pre ++ a :: post) short = Some a).
  { apply GetFlag_first_named; [intros b Hb; by apply Hpre|]. rewrite Hn. right. by left. }
  split_and!.
  - apply Parse_with_value; [done| |done]. by apply splitFlag_one_dash.
  - apply Parse_with_value; [done| |done]. by apply splitFlag_two_dashes.
  - intros fs before s after w0 Hdash. unfold Parse. rewrite !Parse_loop_app.
    destruct (Parse_loop fs before [] w0) as [w1 [remaining|err]]; [|done].
    cbn [Parse_loop]. unfold parseFlag. rewrite (splitFlag_dashes s Hdash).
    by rewrite !append_cons, !append_nil.
Qed.

(** C9. [Parse] has no rollback.  When the first part of a vector parses
    and the rest fails, the whole vector fails with the same error in the
    world the rest left, and a variable that no token of the rest names
    still holds what the first part wrote.  Such vectors exist: with an
    int8 flag [--port] whose variable holds 7, [--port=5 --bogus] fails
    on the unknown flag and leaves 5 in the variable. *)
Theorem Parse_not_atomic :
  (forall fs argv1 argv2 w w1 remaining1 w2 err,
     Parse fs argv1 w = (w1, inl remaining1) ->
     Parse fs argv2 w1 = (w2, inr err) ->
     Parse fs (argv1 ++ argv2) w = (w2, inr err)
     /\ forall l,
          (forall tok a, In tok argv2 ->
             GetFlag w1 fs (splitFlag tok).1.1 = Some a -> value (flagAt w1 a) <> l) ->
          mem w2 !! l = mem w1 !! l)
  /\ exists fs argv w w' err l,
       Parse fs argv w = (w', inr err) /\ mem w' !! l <> mem w !! l.
Proof.
  split.
  - intros fs argv1 argv2 w w1 remaining1 w2 err H1 H2. unfold Parse in *. split.
    + rewrite Parse_loop_app, H1. by apply (Parse_loop_error _ _ []).
    + by apply Parse_loop_effect in H2 as (_ & _ & _ & Hm).
  - exists [1%nat], ["--port=5"; "--bogus"]%string,
      (mkWorld ∅ {[ 1%nat := mkFlag ["port"%string] (TInt Int8) None EmptyString 1%nat
                                    false false false ]}
               {[ 1%nat := VInt 7 ]} []).
    eexists _, _, 1%nat. split; [vm_compute; reflexivity|]. vm_compute. congruence.
Qed.

(** ** Integers *)

Lemma is_digit_range c :
  strconv.is_digit c = true -> 0 <= strconv.byte c - 48 <= 9.
Proof. unfold strconv.is_digit. lia. Qed.

Lemma digits_value_ge s : forall acc v,
  0 <= acc -> digits_value s acc = Some v -> acc <= v.
Proof.
  induction s as [|c s IH]; intros acc v Hacc Hv; cbn [digits_value] in Hv.
  - by simplify_eq.
  - destruct (strconv.is_digit c) eqn:Hc; [|done].
    apply is_digit_range in Hc. apply IH in Hv; lia.
Qed.

Lemma ParseUint_loop_spec s : forall maxVal n,
  0 <= n <= maxVal -> maxVal <= strconv.maxUint64 ->
  match digits_value s n with
  | Some v =>
      strconv.ParseUint_loop s maxVal n =
      if v <=? maxVal then (v, None) else (maxVal, Some strconv.ErrRange)
  | None =>
      exists e : bool, strconv.ParseUint_loop s maxVal n = ((if e then maxVal else 0),
                Some (if e then strconv.ErrRange else strconv.ErrSyntax))
  end.
Proof.
  unfold strconv.maxUint64.
  induction s as [|c s IH]; intros maxVal n Hn Hmax; cbn [digits_value strconv.ParseUint_loop].
  - destruct (Z.leb_spec n maxVal); [done|lia].
  - destruct (strconv.is_digit c) eqn:Hc; [|by exists false].
    apply is_digit_range in Hc.
    set (d := strconv.byte c - 48) in *.
    unfold strconv.maxUint64.
    change (2 ^ 64) with 18446744073709551616 in *.
    change ((18446744073709551616 - 1) / 10 + 1) with 1844674407370955162.
    destruct (Z.leb_spec 1844674407370955162 n) as [Hcut|Hcut].
    { destruct (digits_value s (n * 10 + d)) as [v|] eqn:Hv; [|by exists true].
      apply digits_value_ge in Hv; [|lia].
      destruct (Z.leb_spec v maxVal); [lia|done]. }
    rewrite (Z.mod_small (n * 10)) by lia.
    destruct (Z.ltb_spec ((n * 10 + d) mod 18446744073709551616) (n * 10)) as [Hwrap|Hwrap].
    { cbn [orb].
      assert (18446744073709551616 <= n * 10 + d).
      { destruct (Z.lt_ge_cases (n * 10 + d) 18446744073709551616); [|done].
        rewrite Z.mod_small in Hwrap; lia. }
      destruct (digits_value s (n * 10 + d)) as [v|] eqn:Hv; [|by exists true].
      apply digits_value_ge in Hv; [|lia].
      destruct (Z.leb_spec v maxVal); [lia|done]. }
    assert (n * 10 + d < 18446744073709551616).
    { destruct (Z.lt_ge_cases (n * 10 + d) 18446744073709551616); [done|].
      assert ((n * 10 + d) mod 18446744073709551616 = n * 10 + d - 18446744073709551616).
      { symmetry. apply Z.mod_unique with 1; lia. }
      lia. }
    rewrite Z.mod_small in * by lia. cbn [orb].
    destruct (Z.ltb_spec maxVal (n * 10 + d)) as [Hbig|Hbig].
    { destruct (digits_value s (n * 10 + d)) as [v|] eqn:Hv; [|by exists true].
      apply digits_value_ge in Hv; [|lia].
      destruct (Z.leb_spec v maxVal); [lia|done]. }
    apply IH; lia.
Qed.

(** [strconv.ParseUint] reads base 10 and checks the width. *)
Lemma ParseUint_spec s bits :
  1 <= bits <= 64 ->
  match base10 s with
  | Some v =>
      strconv.ParseUint s bits =
      if v <=? 2 ^ bits - 1 then (v, None) else (2 ^ bits - 1, Some strconv.ErrRange)
  | None =>
      exists e : bool, strconv.ParseUint s bits = ((if e then 2 ^ bits - 1 else 0),
                Some (if e then strconv.ErrRange else strconv.ErrSyntax))
  end.
Proof.
  intros Hb. unfold strconv.ParseUint, base10.
  destruct s as [|c s]; [by exists false|].
  cbn [String.eqb].
  destruct (Z.eqb_spec bits 0); [lia|].
  destruct (Z.ltb_spec bits 0); [lia|].
  destruct (Z.ltb_spec 64 bits); [lia|]. cbn [orb].
  apply ParseUint_loop_spec.
  - assert (0 < 2 ^ bits) by (apply Z.pow_pos_nonneg; lia). lia.
  - unfold strconv.maxUint64.
    assert (2 ^ bits <= 2 ^ 64) by (apply Z.pow_le_mono_r; lia). lia.
Qed.

Lemma base10_nonneg s v : base10 s = Some v -> 0 <= v.
Proof.
  unfold base10. destruct s; [done|]. intros Hv. by apply digits_value_ge in Hv.
Qed.

(** [strconv.ParseInt] reads an optional sign and base 10, and checks that
    the number fits [bits] bits in two's complement. *)
Lemma ParseInt_spec s bits :
  2 <= bits <= 64 ->
  match signed_base10 s with
  | Some z =>
      if (- 2 ^ (bits - 1) <=? z) && (z <? 2 ^ (bits - 1))
      then strconv.ParseInt s bits = (z, None)
      else exists v, strconv.ParseInt s bits = (v, Some strconv.ErrRange)
  | None => exists v e, strconv.ParseInt s bits = (v, Some e)
  end.
Proof.
  intros Hb. unfold strconv.ParseInt, signed_base10.
  destruct s as [|c s]; [by exists 0, strconv.ErrSyntax|].
  destruct (Z.eqb_spec bits 0); [lia|].
  assert (Hpow : 2 ^ bits = 2 * 2 ^ (bits - 1)).
  { rewrite <- Z.pow_succ_r by lia. f_equal. lia. }
  assert (Hpos : 2 <= 2 ^ (bits - 1)).
  { change 2 with (2 ^ 1) at 1. apply Z.pow_le_mono_r; lia. }
  set (cutoff := 2 ^ (bits - 1)) in *.
  assert (Hcase : forall (neg : bool) (r : string),
    match (if neg then Z.opp <$> base10 r else base10 r) with
    | Some z =>
        if (- cutoff <=? z) && (z <? cutoff)
        then (match strconv.ParseUint r bits with
              | (_, Some strconv.ErrSyntax) => (0, Some strconv.ErrSyntax)
              | (_, Some strconv.ErrBitSize) => (0, Some strconv.ErrBitSize)
              | (un, _) =>
                  if negb neg && (cutoff <=? un) then (cutoff - 1, Some strconv.ErrRange)
                  else if neg && (cutoff <? un) then (- cutoff, Some strconv.ErrRange)
                  else (if neg then - un else un, None)
              end) = (z, None)
        else exists v,
             (match strconv.ParseUint r bits with
              | (_, Some strconv.ErrSyntax) => (0, Some strconv.ErrSyntax)
              | (_, Some strconv.ErrBitSize) => (0, Some strconv.ErrBitSize)
              | (un, _) =>
                  if negb neg && (cutoff <=? un) then (cutoff - 1, Some strconv.ErrRange)
                  else if neg && (cutoff <? un) then (- cutoff, Some strconv.ErrRange)
                  else (if neg then - un else un, None)
              end) = (v, Some strconv.ErrRange)
    | None =>
        exists v e,
             (match strconv.ParseUint r bits with
              | (_, Some strconv.ErrSyntax) => (0, Some strconv.ErrSyntax)
              | (_, Some strconv.ErrBitSize) => (0, Some strconv.ErrBitSize)
              | (un, _) =>
                  if negb neg && (cutoff <=? un) then (cutoff - 1, Some strconv.ErrRange)
                  else if neg && (cutoff <? un) then (- cutoff, Some strconv.ErrRange)
                  else (if neg then - un else un, None)
              end) = (v, Some e)
    end).
  { intros neg r. pose proof (ParseUint_spec r bits ltac:(lia)) as Hu.
    pose proof (base10_nonneg r) as Hnn.
    destruct (base10 r) as [v|].
    - specialize (Hnn v eq_refl). rewrite Hu. clear Hu.
      destruct neg; cbn [fmap option_fmap option_map negb andb];
        destruct (Z.leb_spec v (2 ^ bits - 1));
        repeat (match goal with
                | |- context [Z.leb ?a ?b] => destruct (Z.leb_spec a b)
                | |- context [Z.ltb ?a ?b] => destruct (Z.ltb_spec a b)
                end; cbn [andb orb negb]); try lia; try done; eauto;
        try (f_equal; lia).
    - destruct Hu as [[|] ->];
        destruct neg; cbn [fmap option_fmap option_map negb andb]; eauto;
        repeat (match goal with
                | |- context [Z.leb ?a ?b] => destruct (Z.leb_spec a b)
                | |- context [Z.ltb ?a ?b] => destruct (Z.ltb_spec a b)
                end; cbn [andb orb negb]); try lia; eauto. }
  destruct (Ascii.eqb c "+") eqn:Hplus.
  { apply Ascii.eqb_eq in Hplus as ->. change (Ascii.eqb "+" "-") with false.
    cbn [orb]. apply (Hcase false s). }
  destruct (Ascii.eqb c "-") eqn:Hminus.
  { cbn [orb]. apply (Hcase true s). }
  cbn [orb]. apply (Hcase false (String c s)).
Qed.

Lemma IntBits_range k : 8 <= IntBits k <= 64.
Proof. destruct k; cbn; unfold strconv.IntSize; lia. Qed.

Lemma UintBits_range k : 8 <= UintBits k <= 64.
Proof. destruct k; cbn; unfold strconv.IntSize; lia. Qed.

(** A number that fits the width is stored as it is. *)
Lemma SetInt_fits bits z :
  1 <= bits -> - 2 ^ (bits - 1) <= z < 2 ^ (bits - 1) -> SetInt bits z = VInt z.
Proof.
  intros Hb Hz. unfold SetInt. f_equal.
  assert (2 ^ bits = 2 * 2 ^ (bits - 1)).
  { rewrite <- Z.pow_succ_r by lia. f_equal. lia. }
  rewrite Z.mod_small; lia.
Qed.

Lemma SetUint_fits bits z : 0 <= z < 2 ^ bits -> SetUint bits z = VUint z.
Proof. intros Hz. unfold SetUint. by rewrite Z.mod_small. Qed.

(** C7. A token for a signed or unsigned integer flag is read in base 10
    and checked against the width of the flag's type: the number it denotes
    is stored exactly when it fits, a number that does not fit is a range
    error, anything else is an error too, and an error leaves the variable
    alone.  For an int8 flag the token [200] is a range error. *)
Theorem integer_width_enforced flag val m :
  (forall k, flagType flag = TInt k ->
     match signed_base10 val with
     | Some z =>
         if (- 2 ^ (IntBits k - 1) <=? z) && (z <? 2 ^ (IntBits k - 1))
         then setValue flag val m = (<[value flag := VInt z]> m, None)
         else setValue flag val m = (m, Some (NumError "ParseInt" val strconv.ErrRange))
     | None => exists e, setValue flag val m = (m, Some (NumError "ParseInt" val e))
     end)
  /\ (forall k, flagType flag = TUint k ->
     match base10 val with
     | Some z =>
         if z <? 2 ^ UintBits k
         then setValue flag val m = (<[value flag := VUint z]> m, None)
         else setValue flag val m = (m, Some (NumError "ParseUint" val strconv.ErrRange))
     | None => exists e, setValue flag val m = (m, Some (NumError "ParseUint" val e))
     end)
  /\ (flagType flag = TInt Int8 ->
      setValue flag "200" m = (m, Some (NumError "ParseInt" "200" strconv.ErrRange))).
Proof.
  split_and!.
  - intros k Hty. unfold setValue. rewrite Hty.
    pose proof (IntBits_range k) as Hb.
    pose proof (ParseInt_spec val (IntBits k) ltac:(lia)) as Hp.
    destruct (signed_base10 val) as [z|].
    + destruct (Z.leb_spec (- 2 ^ (IntBits k - 1)) z);
        destruct (Z.ltb_spec z (2 ^ (IntBits k - 1))); cbn [andb] in *.
      * rewrite Hp. by rewrite SetInt_fits by lia.
      * by destruct Hp as [v ->].
      * by destruct Hp as [v ->].
      * by destruct Hp as [v ->].
    + destruct Hp as (v & e & ->). by exists e.
  - intros k Hty. unfold setValue. rewrite Hty.
    pose proof (UintBits_range k) as Hb.
    pose proof (ParseUint_spec val (UintBits k) ltac:(lia)) as Hp.
    pose proof (base10_nonneg val) as Hnn.
    destruct (base10 val) as [z|].
    + specialize (Hnn z eq_refl). rewrite Hp.
      destruct (Z.leb_spec z (2 ^ UintBits k - 1)); destruct (Z.ltb_spec z (2 ^ UintBits k));
        try lia; [|done].
      by rewrite SetUint_fits by lia.
    + destruct Hp as [[|] ->]; eauto.
  - intros Hty. unfold setValue. by rewrite Hty.
Qed.

(** ** Durations *)

Lemma append_assoc (a b c : string) : (a +:+ b) +:+ c = a +:+ b +:+ c.
Proof. induction a as [|x a IH]; [done|]. rewrite !append_cons. by rewrite IH. Qed.

Lemma append_nil_r (a : string) : a +:+ EmptyString = a.
Proof. induction a as [|x a IH]; [done|]. rewrite append_cons. by rewrite IH. Qed.

Lemma append_length (a b : string) :
  String.length (a +:+ b) = (String.length a + String.length b)%nat.
Proof. induction a as [|x a IH]; [done|]. rewrite append_cons. cbn. by rewrite IH. Qed.

Lemma upto_from i s : strings.upto i s +:+ strings.from i s = s.
Proof.
  revert s. induction i as [|i IH]; intros [|c s]; try done.
  cbn [strings.upto strings.from]. rewrite append_cons. by rewrite IH.
Qed.

(** [leadingInt] takes the digits off the front. *)
Lemma leadingInt_split s : forall x v s1,
  time.leadingInt s x = (v, s1, false) ->
  exists ds, s = ds +:+ s1 /\ all_digits ds = true
             /\ match s1 with
                | String c _ => strconv.is_digit c = false
                | EmptyString => True
                end.
Proof.
  induction s as [|c s IH]; intros x v s1 Hl; cbn [time.leadingInt] in Hl.
  - simplify_eq. by exists EmptyString.
  - destruct (strconv.is_digit c) eqn:Hc; cbn [negb] in Hl.
    + destruct (2 ^ 63 / 10 <? x); [done|].
      destruct (2 ^ 63 <? (x * 10 + (strconv.byte c - 48)) mod 2 ^ 64); [done|].
      apply IH in Hl as (ds & -> & Hds & Hs1).
      exists (String c ds). split_and!; [done| |done]. cbn. by rewrite Hc, Hds.
    + simplify_eq. exists EmptyString. by split_and!.
Qed.

(** On digits alone it takes them all, or overflows. *)
Lemma leadingInt_all_digits s : forall x,
  all_digits s = true ->
  (exists v, time.leadingInt s x = (v, EmptyString, false))
  \/ time.leadingInt s x = (0, EmptyString, true).
Proof.
  induction s as [|c s IH]; intros x Hs; cbn [time.leadingInt].
  - left. by exists x.
  - cbn [all_digits] in Hs. apply andb_true_iff in Hs as [Hc Hs]. rewrite Hc. cbn [negb].
    destruct (2 ^ 63 / 10 <? x); [by right|].
    destruct (2 ^ 63 <? (x * 10 + (strconv.byte c - 48)) mod 2 ^ 64); [by right|].
    by apply IH.
Qed.

(** [leadingFraction] takes the digits off the front. *)
Lemma leadingFraction_split s : forall x k o f k' s2,
  time.leadingFraction s x k o = (f, k', s2) ->
  exists ds, s = ds +:+ s2 /\ all_digits ds = true.
Proof.
  induction s as [|c s IH]; intros x k o f k' s2 Hl; cbn [time.leadingFraction] in Hl.
  - simplify_eq. by exists EmptyString.
  - destruct (strconv.is_digit c) eqn:Hc; cbn [negb] in Hl.
    + assert (exists x1 k1 o1, time.leadingFraction s x1 k1 o1 = (f, k', s2))
        as (x1 & k1 & o1 & Hrec).
      { destruct o; [eauto|].
        destruct ((2 ^ 63 - 1) / 10 <? x); [eauto|].
        destruct (2 ^ 63 <? (x * 10 + (strconv.byte c - 48)) mod 2 ^ 64); eauto. }
      apply IH in Hrec as (ds & -> & Hds).
      exists (String c ds). split; [done|]. cbn. by rewrite Hc, Hds.
    + simplify_eq. by exists EmptyString.
Qed.

Lemma length_ne_nil (ds r : string) :
  negb (String.length (ds +:+ r) =? String.length r)%nat = true -> ds <> EmptyString.
Proof. intros Hl ->. rewrite append_nil, Nat.eqb_refl in Hl. done. Qed.

(** What the loop of [time.ParseDuration] accepts is a sequence of
    numbers with units. *)
Lemma ParseDuration_loop_compound fuel : forall s d d',
  time.ParseDuration_loop fuel s d = inl d' -> s = EmptyString \/ compound s.
Proof.
  induction fuel as [|fuel IH]; intros s d d' Hp;
    (destruct s as [|c s]; [by left|]); cbn [time.ParseDuration_loop] in Hp; [done|].
  right.
  destruct (negb (Ascii.eqb c "." || strconv.is_digit c)); [done|].
  destruct (time.leadingInt (String c s) 0) as [[v s1] [|]] eqn:Hint; [done|].
  apply leadingInt_split in Hint as (ds & Hs & Hds & Hs1).
  rewrite Hs in *. clear Hs c s.
  assert (Htail : forall n s2 f k,
    numeral n ->
    (let i := time.unit_len s2 in
     if (i =? 0)%nat then inr time.MissingUnit
     else
       let u := strings.upto i s2 in
       let s3 := strings.from i s2 in
       match time.unitMap u with
       | None => inr (time.UnknownUnit u)
       | Some unit =>
           if 2 ^ 63 / unit <? v then inr time.InvalidDuration
           else
             let v1 := (v * unit) mod 2 ^ 64 in
             let v2 := if 0 <? f
                       then (v1 + scale_fraction f k unit) mod 2 ^ 64
                       else v1 in
             if (0 <? f) && (2 ^ 63 <? v2) then inr time.InvalidDuration
             else
               let d' := (d + v2) mod 2 ^ 64 in
               if 2 ^ 63 <? d' then inr time.InvalidDuration
               else time.ParseDuration_loop fuel s3 d'
       end) = inl d' ->
    compound (n +:+ s2)).
  { intros n s2 f k Hn Ht. cbv zeta in Ht.
    destruct (time.unit_len s2 =? 0)%nat; [done|].
    destruct (time.unitMap (strings.upto (time.unit_len s2) s2)) as [unit|] eqn:Hu; [|done].
    repeat (match type of Ht with (if ?b then _ else _) = _ => destruct b; [done|] end).
    apply IH in Ht. rewrite <- (upto_from (time.unit_len s2) s2).
    destruct Ht as [->|Hc].
    - rewrite append_nil_r. by constructor.
    - by constructor. }
  destruct s1 as [|c1 s1'].
  - cbv beta iota zeta in Hp.
    destruct (negb (String.length (ds +:+ EmptyString) =? String.length EmptyString)%nat) eqn:Hpre;
      [|done].
    cbn [negb andb] in Hp. apply length_ne_nil in Hpre.
    apply (Htail ds EmptyString 0 O); [by constructor|done].
  - destruct (Ascii.eqb c1 ".") eqn:Hdot.
    + apply Ascii.eqb_eq in Hdot as ->.
      destruct (time.leadingFraction s1' 0 0 false) as [[f k] s2] eqn:Hfrac.
      cbv beta iota zeta in Hp.
      apply leadingFraction_split in Hfrac as (fd & -> & Hfd).
      destruct (negb (negb (String.length (ds +:+ String "." (fd +:+ s2)) =?
                            String.length (String "." (fd +:+ s2)))%nat)
                && negb (negb (String.length (fd +:+ s2) =? String.length s2)%nat))
        eqn:Hany; [done|].
      replace (ds +:+ String "." (fd +:+ s2)) with ((ds +:+ "." +:+ fd) +:+ s2)
        by (by rewrite !append_assoc).
      apply (Htail _ s2 f k); [|done].
      constructor; [done..|].
      apply andb_false_iff in Hany as [Hany|Hany]; apply negb_false_iff in Hany.
      * left. by apply length_ne_nil in Hany.
      * right. by apply length_ne_nil in Hany.
    + cbv beta iota zeta in Hp.
      destruct (negb (String.length (ds +:+ String c1 s1') =? String.length (String c1 s1'))%nat)
        eqn:Hpre; [|done].
      cbn [negb andb] in Hp. apply length_ne_nil in Hpre.
      apply (Htail ds (String c1 s1') 0 O); [by constructor|done].
Qed.

Lemma leadingInt_length s : forall x v s1 o,
  time.leadingInt s x = (v, s1, o) -> (String.length s1 <= String.length s)%nat.
Proof.
  induction s as [|c s IH]; intros x v s1 o Hl; cbn [time.leadingInt] in Hl.
  - by simplify_eq.
  - repeat case_match; simplify_eq; cbn [String.length]; try lia.
    apply IH in Hl. lia.
Qed.

Lemma leadingFraction_length s : forall x k o f k' s2,
  time.leadingFraction s x k o = (f, k', s2) ->
  (String.length s2 <= String.length s)%nat.
Proof.
  induction s as [|c s IH]; intros x k o f k' s2 Hl; cbn [time.leadingFraction] in Hl.
  - by simplify_eq.
  - repeat case_match; simplify_eq; cbn [String.length]; try lia;
      apply IH in Hl; lia.
Qed.

Lemma from_length i s :
  (i <= String.length s)%nat ->
  String.length (strings.from i s) = (String.length s - i)%nat.
Proof.
  revert s. induction i as [|i IH]; intros [|c s] Hi; cbn in *; try lia.
  apply IH. lia.
Qed.

Lemma unit_len_le s : (time.unit_len s <= String.length s)%nat.
Proof. induction s as [|c s IH]; cbn; [lia|]. case_match; lia. Qed.

(** The loop of [time.ParseDuration] never runs out of rounds: any fuel of
    at least the length of the string gives the same result. *)
Lemma ParseDuration_loop_fuel fuel1 : forall fuel2 s d,
  (String.length s <= fuel1)%nat -> (String.length s <= fuel2)%nat ->
  time.ParseDuration_loop fuel1 s d = time.ParseDuration_loop fuel2 s d.
Proof.
  induction fuel1 as [|fuel1 IH]; intros fuel2 s d H1 H2.
  - destruct s; [by destruct fuel2|cbn in H1; lia].
  - destruct s as [|c s]; [by destruct fuel2|].
    destruct fuel2 as [|fuel2]; [cbn in H2; lia|].
    cbn [time.ParseDuration_loop].
    destruct (negb (Ascii.eqb c "." || strconv.is_digit c)); [done|].
    destruct (time.leadingInt (String c s) 0) as [[v s1] [|]] eqn:Hint; [done|].
    apply leadingInt_length in Hint.
    assert (Htail : forall (f : Z) (k : nat) (s2 : string) (post : bool),
      (String.length s2 <= String.length s1)%nat ->
      (let '(f, k, s2, post) := (f, k, s2, post) in
       if negb (negb (String.length (String c s) =? String.length s1)%nat) && negb post
       then inr time.InvalidDuration
       else
         let i := time.unit_len s2 in
         if (i =? 0)%nat then inr time.MissingUnit
         else
           let u := strings.upto i s2 in
           let s3 := strings.from i s2 in
           match time.unitMap u with
           | None => inr (time.UnknownUnit u)
           | Some unit =>
               if 2 ^ 63 / unit <? v then inr time.InvalidDuration
               else
                 let v1 := (v * unit) mod 2 ^ 64 in
                 let v2 := if 0 <? f then (v1 + scale_fraction f k unit) mod 2 ^ 64 else v1 in
                 if (0 <? f) && (2 ^ 63 <? v2) then inr time.InvalidDuration
                 else
                   let d' := (d + v2) mod 2 ^ 64 in
                   if 2 ^ 63 <? d' then inr time.InvalidDuration
                   else time.ParseDuration_loop fuel1 s3 d'
           end)
      = (let '(f, k, s2, post) := (f, k, s2, post) in
       if negb (negb (String.length (String c s) =? String.length s1)%nat) && negb post
       then inr time.InvalidDuration
       else
         let i := time.unit_len s2 in
         if (i =? 0)%nat then inr time.MissingUnit
         else
           let u := strings.upto i s2 in
           let s3 := strings.from i s2 in
           match time.unitMap u with
           | None => inr (time.UnknownUnit u)
           | Some unit =>
               if 2 ^ 63 / unit <? v then inr time.InvalidDuration
               else
                 let v1 := (v * unit) mod 2 ^ 64 in
                 let v2 := if 0 <? f then (v1 + scale_fraction f k unit) mod 2 ^ 64 else v1 in
                 if (0 <? f) && (2 ^ 63 <? v2) then inr time.InvalidDuration
                 else
                   let d' := (d + v2) mod 2 ^ 64 in
                   if 2 ^ 63 <? d' then inr time.InvalidDuration
                   else time.ParseDuration_loop fuel2 s3 d'
           end)).
    { intros f k s2 post Hs2. cbv beta iota zeta.
      destruct (negb _ && negb post); [done|].
      destruct (time.unit_len s2 =? 0)%nat eqn:Hu; [done|].
      apply Nat.eqb_neq in Hu.
      destruct (time.unitMap _); [|done].
      repeat (match goal with |- (if ?b then _ else _) = _ => destruct b; [done|] end).
      pose proof (unit_len_le s2).
      pose proof (from_length (time.unit_len s2) s2 ltac:(done)).
      cbn [String.length] in *.
      apply IH; lia. }
    destruct s1 as [|c1 s1'].
    + by apply (Htail 0 O EmptyString false).
    + destruct (Ascii.eqb c1 ".").
      * destruct (time.leadingFraction s1' 0 0 false) as [[f k] s2] eqn:Hfrac.
        apply leadingFraction_length in Hfrac.
        apply (Htail f k s2). cbn [String.length]. lia.
      * by apply (Htail 0 O (String c1 s1') false).
Qed.

Lemma is_digit_not_sign c :
  strconv.is_digit c = true -> Ascii.eqb c "-" = false /\ Ascii.eqb c "+" = false
                               /\ Ascii.eqb c "." = false.
Proof.
  intros Hc. split_and!; apply Ascii.eqb_neq; intros ->; done.
Qed.

(** A token of digits alone, other than ["0"], is no duration. *)
Lemma ParseDuration_digits_only val :
  digits_only val = true -> val <> "0"%string ->
  time.ParseDuration val = inr time.MissingUnit
  \/ time.ParseDuration val = inr time.InvalidDuration.
Proof.
  unfold digits_only. intros Hd Hz.
  destruct val as [|c s]; [done|]. cbn [String.eqb negb andb all_digits] in Hd.
  pose proof Hd as Hall.
  apply andb_true_iff in Hd as [Hc Hs].
  destruct (is_digit_not_sign c Hc) as (Hm & Hp & Hdot).
  unfold time.ParseDuration. rewrite Hm, Hp.
  destruct (String.eqb_spec (String c s) "0"); [done|].
  destruct (String.eqb_spec (String c s) EmptyString); [done|].
  cbn [String.length time.ParseDuration_loop]. rewrite Hdot, Hc. cbn [orb negb].
  destruct (leadingInt_all_digits (String c s) 0 Hall) as [[v ->]| ->]; [|by right].
  by left.
Qed.

(** C5, as the code has it.  For a flag of type [time.Duration], a token
    of digits alone is a conversion error and leaves the variable alone,
    except for the token ["0"], which is the zero duration; ["1h30m"] and
    ["500ms"] convert; and whatever converts is, after an optional sign,
    either ["0"] or a sequence of numbers each followed by a unit. *)
Theorem duration_conversion flag m :
  flagType flag = TDuration ->
  (forall val, digits_only val = true -> val <> "0"%string ->
     exists e, setValue flag val m = (m, Some (DurationError e)))
  /\ setValue flag "0" m = (<[value flag := VInt 0]> m, None)
  /\ setValue flag "1h30m" m = (<[value flag := VInt 5400000000000]> m, None)
  /\ setValue flag "500ms" m = (<[value flag := VInt 500000000]> m, None)
  /\ (forall val m', setValue flag val m = (m', None) ->
        exists body,
          (val = body \/ val = "+" +:+ body \/ val = "-" +:+ body)
          /\ (body = "0"%string \/ compound body)).
Proof.
  intros Hty. unfold setValue. rewrite Hty. split_and!.
  - intros val Hd Hz.
    destruct (ParseDuration_digits_only val Hd Hz) as [-> | ->]; eauto.
  - done.
  - done.
  - done.
  - intros val m'. destruct (time.ParseDuration val) as [dur|e] eqn:Hp; [|done].
    intros _. clear Hty. unfold time.ParseDuration in Hp.
    assert (Hgen : forall (neg : bool) (body : string),
      (if String.eqb body "0" then inl 0
       else if String.eqb body EmptyString then inr time.InvalidDuration
       else match time.ParseDuration_loop (String.length body) body 0 with
            | inr e => inr e
            | inl d => if neg then inl (- d)
                       else if 2 ^ 63 - 1 <? d then inr time.InvalidDuration
                       else inl d
            end) = inl dur ->
      body = "0"%string \/ compound body).
    { intros neg body Hb.
      destruct (String.eqb body "0") eqn:Hz; [left; by apply String.eqb_eq|].
      destruct (String.eqb body EmptyString) eqn:Hne; [done|].
      destruct (time.ParseDuration_loop (String.length body) body 0) as [d|] eqn:Hl;
        [|done].
      right. apply ParseDuration_loop_compound in Hl as [->|Hc]; done. }
    destruct val as [|c s].
    + exists EmptyString. split; [by left|]. by apply (Hgen false).
    + destruct (Ascii.eqb c "-") eqn:Hm.
      { apply Ascii.eqb_eq in Hm as ->. exists s. split; [by right; right|].
        by apply (Hgen true). }
      destruct (Ascii.eqb c "+") eqn:Hpl.
      { apply Ascii.eqb_eq in Hpl as ->. exists s. split; [by right; left|].
        by apply (Hgen false). }
      exists (String c s). split; [by left|]. by apply (Hgen false).
Qed.

(** ** The tree *)

Lemma lineage_head w c path : lineage w c path -> exists rest, path = c :: rest.
Proof. intros [? ?|? ? ? ? ?]; eauto. Qed.

Lemma lineage_functional w c p1 : forall p2,
  lineage w c p1 -> lineage w c p2 -> p1 = p2.
Proof.
  intros p2 H1. revert p2. induction H1 as [c Hc|c p path Hc H1 IH]; intros p2 H2;
    inversion H2; simplify_eq; [done|]. f_equal. by apply IH.
Qed.

Lemma lineage_suffix w c path x :
  lineage w c path -> In x path ->
  exists pre suf, path = pre ++ suf /\ lineage w x suf.
Proof.
  induction 1 as [c Hc|c p path Hc Hl IH]; intros Hx.
  - destruct Hx as [<-|[]]. exists [], [c]. split; [done|]. by constructor.
  - destruct Hx as [<-|Hx].
    + exists [], (c :: path). split; [done|]. by econstructor.
    + destruct (IH Hx) as (pre & suf & -> & Hs). by exists (c :: pre), suf.
Qed.

Lemma lineage_NoDup w c path : lineage w c path -> NoDup path.
Proof.
  induction 1 as [c Hc|c p path Hc Hl IH].
  - apply NoDup_singleton.
  - apply NoDup_cons. split; [|done]. intros Hin%list_elem_of_In.
    destruct (lineage_suffix w p path c Hl Hin) as (pre & suf & -> & Hs).
    assert (Hfull : lineage w c (c :: pre ++ suf)) by (by econstructor).
    pose proof (lineage_functional _ _ _ _ Hs Hfull) as Heq.
    apply (f_equal length) in Heq. rewrite length_cons, length_app in Heq. lia.
Qed.

Lemma parent_allocated w c p :
  parent (cmdAt w c) = Some p -> c ∈ dom (cmds w).
Proof.
  unfold cmdAt. rewrite lookup_total_alt. intros Hp.
  apply elem_of_dom. destruct (cmds w !! c); [done|]. done.
Qed.

Lemma lineage_inner_allocated w c path :
  lineage w c path -> forall x, In x (removelast path) -> x ∈ dom (cmds w).
Proof.
  induction 1 as [c Hc|c p path Hc Hl IH]; intros x Hx; [done|].
  destruct (lineage_head _ _ _ Hl) as [rest ->].
  cbn [removelast] in Hx. destruct Hx as [<-|Hx].
  - by eapply parent_allocated.
  - by apply IH.
Qed.

(** A lineage is no longer than the walk is allowed to be. *)
Lemma lineage_bounded w c path :
  lineage w c path -> (length path <= walk_fuel w)%nat.
Proof.
  intros Hl. unfold walk_fuel.
  pose proof (lineage_NoDup _ _ _ Hl) as Hnd.
  pose proof (lineage_inner_allocated _ _ _ Hl) as Hin.
  destruct (lineage_head _ _ _ Hl) as [rest Hpath].
  assert (Hne : path <> []) by (by rewrite Hpath).
  rewrite (app_removelast_last O Hne) in Hnd |- *.
  apply NoDup_app in Hnd as (Hnd & _ & _).
  rewrite length_app. cbn [length].
  assert (length (removelast path) <= size (cmds w))%nat; [|lia].
  rewrite <- size_dom.
  rewrite <- (size_list_to_set (C := gset nat) (removelast path)) by done.
  apply subseteq_size. intros x Hx%elem_of_list_to_set%list_elem_of_In. by apply Hin.
Qed.

Lemma ancestors_loop_lineage w c path :
  lineage w c path -> forall fuel acc,
  (length path <= fuel)%nat ->
  ancestors_loop fuel w (Some c) acc = Some (rev path ++ acc).
Proof.
  induction 1 as [c Hc|c p path Hc Hl IH]; intros fuel acc Hf;
    (destruct fuel as [|fuel]; [cbn in Hf; lia|]); cbn [ancestors_loop]; rewrite Hc.
  - by destruct fuel.
  - rewrite IH by (cbn in Hf; lia). cbn [rev]. by rewrite <- app_assoc.
Qed.

(** In a tree the walk to the root ends, with the lineage root first. *)
Lemma ancestors_lineage w c path :
  lineage w c path -> ancestors w c = Some (rev path).
Proof.
  intros Hl. unfold ancestors.
  rewrite (ancestors_loop_lineage _ _ _ Hl) by (by apply (lineage_bounded w c)).
  by rewrite app_nil_r.
Qed.

Lemma ancestors_loop_Some fuel w : forall current acc l,
  ancestors_loop fuel w current acc = Some l ->
  match current with
  | Some c => exists path, lineage w c path /\ l = rev path ++ acc
  | None => l = acc
  end.
Proof.
  induction fuel as [|fuel IH]; intros [c|] acc l Hl; cbn [ancestors_loop] in Hl;
    try done; try (by simplify_eq).
  apply IH in Hl. destruct (parent (cmdAt w c)) as [p|] eqn:Hp.
  - destruct Hl as (path & Hpath & ->). exists (c :: path). split.
    + by apply lineage_child with p.
    + cbn [rev]. by rewrite <- app_assoc.
  - subst l. exists [c]. split; [by apply lineage_root|done].
Qed.

(** The walk ends only in a tree: a parent cycle is what uses the fuel
    up. *)
Lemma ancestors_Some w c anc :
  ancestors w c = Some anc <-> lineage w c (rev anc).
Proof.
  split.
  - intros Ha. apply ancestors_loop_Some in Ha as (path & Hpath & ->).
    by rewrite app_nil_r, rev_involutive.
  - intros Hl. rewrite (ancestors_lineage _ _ _ Hl). by rewrite rev_involutive.
Qed.

(** ** The effective flag set *)

Lemma collectFlags_app w l1 : forall l2 acc,
  collectFlags w (l1 ++ l2) acc = collectFlags w l2 (collectFlags w l1 acc).
Proof.
  induction l1 as [|a l1 IH]; intros l2 acc; [done|].
  cbn [app collectFlags]. by destruct (decide _).
Qed.

Lemma collectChain_declared w path : forall acc,
  collectChain w path acc = collectFlags w (declared w path) acc.
Proof.
  induction path as [|c path IH]; intros acc; [done|].
  unfold declared. cbn [collectChain map concat].
  by rewrite collectFlags_app, IH.
Qed.

Lemma NoDup_map_eq {A B} (f : A -> B) (l : list A) x y :
  NoDup (map f l) -> In x l -> In y l -> f x = f y -> x = y.
Proof.
  induction l as [|z l IH]; [done|]. cbn [map].
  intros [Hz Hnd]%NoDup_cons [<-|Hx] [<-|Hy] Hf; try done.
  - exfalso. apply Hz. apply list_elem_of_In. rewrite Hf. by apply in_map.
  - exfalso. apply Hz. apply list_elem_of_In. rewrite <- Hf. by apply in_map.
  - by apply IH.
Qed.

(** The loop keeps the first flag of every primary name: the names kept
    stay distinct, nothing is made up, and a flag whose name was not seen
    before it is kept, behind flags that came before it only. *)
Lemma collectFlags_spec w fl : forall out seen,
  (forall n, n ∈ seen <-> In n (map (pname w) out)) ->
  NoDup (map (pname w) out) ->
  (forall n, n ∈ (collectFlags w fl (out, seen)).2
             <-> In n (map (pname w) (collectFlags w fl (out, seen)).1))
  /\ NoDup (map (pname w) (collectFlags w fl (out, seen)).1)
  /\ (exists ext, (collectFlags w fl (out, seen)).1 = out ++ ext
                  /\ forall a, In a ext -> In a fl)
  /\ (forall fb a fa,
        fl = fb ++ a :: fa ->
        ~ In (pname w a) (map (pname w) out) ->
        (forall y, In y fb -> pname w y <> pname w a) ->
        exists o1 o2, (collectFlags w fl (out, seen)).1 = out ++ o1 ++ a :: o2
                      /\ forall y, In y o1 -> In y fb).
Proof.
  induction fl as [|a0 rest IH]; intros out seen Hseen Hnd.
  - cbn [collectFlags fst snd]. split_and!; [done|done| |].
    + exists []. by rewrite app_nil_r.
    + intros [|??] ? ? ?; done.
  - cbn [collectFlags]. fold (pname w a0). cbn [fst snd].
    destruct (decide (pname w a0 ∈ seen)) as [Hin|Hnin].
    + destruct (IH out seen Hseen Hnd) as (H1 & H2 & (ext & Hext & Hsub) & H4).
      split_and!; [done|done| |].
      * exists ext. split; [done|]. intros a Ha. right. by apply Hsub.
      * intros fb a fa Hfl Hfresh Hfb. destruct fb as [|b fb]; cbn [app] in Hfl.
        -- injection Hfl as -> ->. exfalso. apply Hfresh. by apply Hseen.
        -- injection Hfl as -> ->.
           destruct (H4 fb a fa eq_refl Hfresh) as (o1 & o2 & Ho & Ho1).
           { intros y Hy. apply Hfb. by right. }
           exists o1, o2. split; [done|]. intros y Hy. right. by apply Ho1.
    + assert (Hseen' : forall n, n ∈ ({[pname w a0]} ∪ seen : gset string)
                  <-> In n (map (pname w) (out ++ [a0]))).
      { intros n. rewrite map_app, in_app_iff, elem_of_union, elem_of_singleton, Hseen.
        cbn [map In]. split; [intros [->|?]|intros [?|[->|[]]]]; auto. }
      assert (Hnd' : NoDup (map (pname w) (out ++ [a0]))).
      { rewrite map_app. apply NoDup_app. split_and!; [done| |apply NoDup_singleton].
        intros n Hn%list_elem_of_In [<-|[]]%list_elem_of_In. apply Hnin. by apply Hseen. }
      destruct (IH _ _ Hseen' Hnd') as (H1 & H2 & (ext & Hext & Hsub) & H4).
      split_and!; [done|done| |].
      * exists (a0 :: ext). split; [by rewrite Hext, <- app_assoc|].
        intros a [<-|Ha]; [by left|right; by apply Hsub].
      * intros fb a fa Hfl Hfresh Hfb. destruct fb as [|b fb]; cbn [app] in Hfl.
        -- injection Hfl as -> ->. exists [], ext. split; [|done].
           by rewrite Hext, <- app_assoc.
        -- injection Hfl as -> ->.
           destruct (H4 fb a fa eq_refl) as (o1 & o2 & Ho & Ho1).
           { rewrite map_app, in_app_iff. intros [Hout|[Heq|[]]]; [done|].
             by apply (Hfb b); [left|]. }
           { intros y Hy. apply Hfb. by right. }
           exists (b :: o1), o2. split; [by rewrite Ho, <- app_assoc|].
           intros y [<-|Hy]; [by left|right; by apply Ho1].
Qed.

Lemma getAllFlags_lineage w c path :
  lineage w c path ->
  getAllFlags w c = Some (collectFlags w (declared w path) ([], ∅)).1.
Proof.
  intros Hl. unfold getAllFlags. rewrite (ancestors_lineage _ _ _ Hl).
  by rewrite rev_involutive, collectChain_declared.
Qed.

Lemma In_declared w path a :
  In a (declared w path) <-> exists d, In d path /\ In a (flags (cmdAt w d)).
Proof.
  unfold declared. rewrite in_concat. split.
  - intros (l & Hl & Ha). apply in_map_iff in Hl as (d & <- & Hd). eauto.
  - intros (d & Hd & Ha). exists (flags (cmdAt w d)). split; [|done].
    apply in_map_iff. eauto.
Qed.

Lemma declared_app w p1 p2 : declared w (p1 ++ p2) = declared w p1 ++ declared w p2.
Proof. unfold declared. by rewrite map_app, concat_app. Qed.

(** The primary names of the effective flag set are distinct. *)
Lemma getAllFlags_NoDup w c path fl :
  lineage w c path -> getAllFlags w c = Some fl -> NoDup (map (pname w) fl).
Proof.
  intros Hl. rewrite (getAllFlags_lineage _ _ _ Hl). intros [= <-].
  destruct (collectFlags_spec w (declared w path) [] ∅) as (_ & Hnd & _).
  { intros n. cbn. set_solver. }
  { cbn. apply NoDup_nil_2. }
  done.
Qed.

(** C2, as the code has it.  In a tree, the effective flag set of a
    command is made of flags declared along its lineage, no two of them
    with the same primary name; and a flag is in it, ahead of every other
    flag of its name, when no command below its own on the lineage
    declares its primary name and no earlier flag of its own command
    does.  Whatever else carries that name, on an ancestor or later on the
    same command, is not in the set. *)
Theorem effective_flag_set w c path :
  lineage w c path ->
  exists fl,
    getAllFlags w c = Some fl
    /\ NoDup (map (pname w) fl)
    /\ (forall a, In a fl -> exists d, In d path /\ In a (flags (cmdAt w d)))
    /\ (forall below d above before a after,
          path = below ++ d :: above ->
          flags (cmdAt w d) = before ++ a :: after ->
          (forall x y, In x below -> In y (flags (cmdAt w x)) ->
                       pname w y <> pname w a) ->
          (forall y, In y before -> pname w y <> pname w a) ->
          In a fl /\ forall b, In b fl -> pname w b = pname w a -> b = a).
Proof.
  intros Hl. eexists. split; [by apply getAllFlags_lineage|].
  destruct (collectFlags_spec w (declared w path) [] ∅) as (_ & Hnd & (ext & Hext & Hsub) & Hkeep).
  { intros n. cbn. set_solver. }
  { cbn. apply NoDup_nil_2. }
  split_and!; [done| |].
  - intros a Ha. apply In_declared. apply Hsub. by rewrite Hext in Ha.
  - intros below d above before a after -> Hd Hbelow Hbefore.
    destruct (Hkeep (declared w below ++ before) a (after ++ declared w above))
      as (o1 & o2 & Ho & _).
    { rewrite declared_app. unfold declared at 2. cbn [map concat]. rewrite Hd.
      fold (declared w above). by rewrite <- !app_assoc. }
    { cbn. tauto. }
    { intros y [Hy|Hy]%in_app_iff; [|by apply Hbefore].
      apply In_declared in Hy as (x & Hx & Hy). by apply (Hbelow x). }
    assert (Ha : In a (collectFlags w (declared w (below ++ d :: above)) ([], ∅)).1).
    { rewrite Ho. cbn [app]. apply in_app_iff. right. by left. }
    split; [done|]. intros b Hb Hn. by apply (NoDup_map_eq (pname w) _ b a Hnd).
Qed.

(** Where the first flag of a name lands in the effective flag set. *)
Lemma getAllFlags_first_of_name w c below d above before a after :
  lineage w c (below ++ d :: above) ->
  flags (cmdAt w d) = before ++ a :: after ->
  (forall y, In y (declared w below ++ before) -> pname w y <> pname w a) ->
  exists o1 o2, getAllFlags w c = Some (o1 ++ a :: o2)
                /\ forall y, In y o1 -> In y (declared w below ++ before).
Proof.
  intros Hl Hd Hfirst. rewrite (getAllFlags_lineage _ _ _ Hl).
  destruct (collectFlags_spec w (declared w (below ++ d :: above)) [] ∅)
    as (_ & _ & _ & Hkeep).
  { intros n. cbn. set_solver. }
  { cbn. apply NoDup_nil_2. }
  destruct (Hkeep (declared w below ++ before) a (after ++ declared w above))
    as (o1 & o2 & Ho & Ho1).
  { rewrite declared_app. unfold declared at 2. cbn [map concat]. rewrite Hd.
    fold (declared w above). by rewrite <- !app_assoc. }
  { cbn. tauto. }
  { done. }
  exists o1, o2. by rewrite Ho.
Qed.

(** ** Adding a flag *)

Lemma Command_Flag_unfold w c ptr ty n sh dv us :
  Command_Flag w c ptr ty n sh dv us =
  let a := fresh (dom (flagStructs w)) in
  mkWorld
    (<[c := with_flags (cmdAt w c) (flags (cmdAt w c) ++ [a])]> (cmds w))
    (<[a := mkFlag (if String.eqb sh EmptyString then [n] else [n; sh]) ty dv us ptr
                   false false false]> (flagStructs w))
    (match dv with
     | Some d => match Convert d ty with
                 | Some v => <[ptr := v]> (mem w)
                 | None => mem w
                 end
     | None => mem w
     end)
    (trace w).
Proof. done. Qed.

Lemma Command_Flag_flags w c ptr ty n sh dv us :
  flags (cmdAt (Command_Flag w c ptr ty n sh dv us) c) =
  flags (cmdAt w c) ++ [fresh (dom (flagStructs w))].
Proof.
  rewrite Command_Flag_unfold. unfold cmdAt. cbn.
  by rewrite lookup_total_insert_eq.
Qed.

Lemma Command_Flag_parent w c ptr ty n sh dv us x :
  parent (cmdAt (Command_Flag w c ptr ty n sh dv us) x) = parent (cmdAt w x).
Proof.
  rewrite Command_Flag_unfold. unfold cmdAt. cbn.
  destruct (decide (c = x)) as [->|Hne].
  - by rewrite lookup_total_insert_eq.
  - by rewrite lookup_total_insert_ne.
Qed.

Lemma Command_Flag_new w c ptr ty n sh dv us :
  flagAt (Command_Flag w c ptr ty n sh dv us) (fresh (dom (flagStructs w))) =
  mkFlag (if String.eqb sh EmptyString then [n] else [n; sh]) ty dv us ptr false false false.
Proof.
  rewrite Command_Flag_unfold. unfold flagAt. cbn.
  by rewrite lookup_total_insert_eq.
Qed.

Lemma Command_Flag_old w c ptr ty n sh dv us b :
  b ∈ dom (flagStructs w) ->
  flagAt (Command_Flag w c ptr ty n sh dv us) b = flagAt w b
  /\ b ∈ dom (flagStructs (Command_Flag w c ptr ty n sh dv us)).
Proof.
  intros Hb. rewrite Command_Flag_unfold. unfold flagAt. cbn.
  assert (fresh (dom (flagStructs w)) <> b).
  { intros <-. by apply (is_fresh (dom (flagStructs w))). }
  split; [by rewrite lookup_total_insert_ne|].
  rewrite dom_insert. set_solver.
Qed.

Lemma Command_Flag_allocates w c ptr ty n sh dv us :
  fresh (dom (flagStructs w)) ∈ dom (flagStructs (Command_Flag w c ptr ty n sh dv us)).
Proof. rewrite Command_Flag_unfold. cbn. rewrite dom_insert. set_solver. Qed.

Lemma lineage_same_parents w w' c path :
  (forall x, parent (cmdAt w' x) = parent (cmdAt w x)) ->
  lineage w c path -> lineage w' c path.
Proof.
  intros Hp. induction 1 as [c Hc|c p path Hc Hl IH].
  - apply lineage_root. by rewrite Hp.
  - apply lineage_child with p; [by rewrite Hp|done].
Qed.

Lemma HasName_primary f n rest : names f = n :: rest -> HasName f n = true.
Proof. intros Hn. unfold HasName. rewrite Hn. cbn. by rewrite String.eqb_refl. Qed.

(** The first element of a list with a property, when there is one. *)
Lemma first_with {A} (P : A -> Prop) (l : list A) :
  (forall x, Decision (P x)) ->
  (exists x, In x l /\ P x) ->
  exists before x after,
    l = before ++ x :: after /\ P x /\ forall y, In y before -> ~ P y.
Proof.
  intros Hdec. induction l as [|y l IH]; intros (x & Hin & Hx); [done|].
  destruct (Hdec y) as [Hy|Hy].
  - exists [], y, l. by split_and!.
  - destruct IH as (before & z & after & -> & Hz & Hbefore).
    { destruct Hin as [->|Hin]; [done|]. by exists x. }
    exists (y :: before), z, after. split_and!; [done|done|].
    intros y' [<-|Hy']; [done|by apply Hbefore].
Qed.

(** C3, as the code has it.  Adding a second flag with the primary name
    of an earlier one on the same command replaces nothing: both stay in
    the command's registry, and the later one is never used: lookup by
    that name does not give it, the effective flag set does not hold it,
    and no parse against the effective flag set touches it.  Lookup by
    the name in the registry gives the first flag of the command that has
    the name among its names: an older flag when there is one, and
    otherwise the earlier of the two.  When no older flag of the command
    has the name, the earlier of the two is in the effective flag set and
    is what a token with that name sets.  The command sits in a tree and
    the flags of its registry are allocated. *)
Theorem readd_keeps_first w c path ptr1 ptr2 ty1 ty2 n sh1 sh2 dv1 dv2 us1 us2 :
  lineage w c path ->
  (forall b, In b (flags (cmdAt w c)) -> b ∈ dom (flagStructs w)) ->
  let w1 := Command_Flag w c ptr1 ty1 n sh1 dv1 us1 in
  let earlier := fresh (dom (flagStructs w)) in
  let w2 := Command_Flag w1 c ptr2 ty2 n sh2 dv2 us2 in
  let later := fresh (dom (flagStructs w1)) in
  flags (cmdAt w2 c) = flags (cmdAt w c) ++ [earlier; later]
  /\ earlier <> later
  /\ value (flagAt w2 earlier) = ptr1 /\ value (flagAt w2 later) = ptr2
  /\ pname w2 earlier = n /\ pname w2 later = n
  /\ GetFlag w2 (flags (cmdAt w2 c)) n <> Some later
  /\ (forall before b after,
        flags (cmdAt w c) = before ++ b :: after ->
        (forall y, In y before -> ~ In n (names (flagAt w y))) ->
        In n (names (flagAt w b)) ->
        GetFlag w2 (flags (cmdAt w2 c)) n = Some b)
  /\ ((forall b, In b (flags (cmdAt w c)) -> ~ In n (names (flagAt w b))) ->
      GetFlag w2 (flags (cmdAt w2 c)) n = Some earlier)
  /\ exists fl,
       getAllFlags w2 c = Some fl
       /\ ~ In later fl
       /\ (forall argv w' r,
             Parse fl argv w2 = (w', r) -> flagAt w' later = flagAt w2 later)
       /\ ((forall b, In b (flags (cmdAt w c)) -> pname w b <> n) -> In earlier fl)
       /\ ((forall b, In b (flags (cmdAt w c)) ->
              ~ In n (names (flagAt w b)) /\ pname w b <> n) ->
           GetFlag w2 fl n = Some earlier
           /\ forall tok v,
                strings.HasPrefix tok "-" = true ->
                splitFlag tok = (n, v, true) ->
                Parse fl [tok] w2 = assign w2 earlier n v).
Proof.
  intros Hl Halloc w1 earlier w2 later.
  set (old := flags (cmdAt w c)) in *.
  assert (Hflags : flags (cmdAt w2 c) = old ++ [earlier; later]).
  { subst w2 w1 earlier later old. rewrite !Command_Flag_flags. by rewrite <- app_assoc. }
  assert (Hne : earlier <> later).
  { intros Heq. apply (is_fresh (dom (flagStructs w1))). fold later. rewrite <- Heq.
    apply Command_Flag_allocates. }
  assert (Hearlier : flagAt w2 earlier =
            mkFlag (if String.eqb sh1 EmptyString then [n] else [n; sh1]) ty1 dv1 us1 ptr1
                   false false false).
  { destruct (Command_Flag_old w1 c ptr2 ty2 n sh2 dv2 us2 earlier) as [Heq _].
    - apply Command_Flag_allocates.
    - fold w2 in Heq. rewrite Heq. apply Command_Flag_new. }
  assert (Hlater : flagAt w2 later =
            mkFlag (if String.eqb sh2 EmptyString then [n] else [n; sh2]) ty2 dv2 us2 ptr2
                   false false false) by apply Command_Flag_new.
  assert (Hkept : forall b, In b old -> flagAt w2 b = flagAt w b).
  { intros b Hb. pose proof (Halloc b Hb) as Hdom.
    destruct (Command_Flag_old w c ptr1 ty1 n sh1 dv1 us1 b Hdom) as [Heq1 Hdom1].
    destruct (Command_Flag_old w1 c ptr2 ty2 n sh2 dv2 us2 b Hdom1) as [Heq2 _].
    fold w1 in Heq1. fold w2 in Heq2. congruence. }
  assert (Hold_ne : forall b, In b old -> b <> later).
  { intros b Hb Heq. apply (is_fresh (dom (flagStructs w1))). fold later. rewrite <- Heq.
    by apply (Command_Flag_old w c ptr1 ty1 n sh1 dv1 us1 b), Halloc. }
  assert (Hn1 : pname w2 earlier = n).
  { unfold pname, PrimaryName. rewrite Hearlier. cbn. by destruct (String.eqb sh1 EmptyString). }
  assert (Hn2 : pname w2 later = n).
  { unfold pname, PrimaryName. rewrite Hlater. cbn. by destruct (String.eqb sh2 EmptyString). }
  assert (Hhas : HasName (flagAt w2 earlier) n = true).
  { rewrite Hearlier. destruct (String.eqb sh1 EmptyString); by eapply HasName_primary. }
  assert (Hreg : GetFlag w2 (flags (cmdAt w2 c)) n =
            match GetFlag w old n with Some b => Some b | None => Some earlier end).
  { rewrite Hflags, GetFlag_app, (GetFlag_ext w w2 old n Hkept).
    destruct (GetFlag w old n); [done|]. unfold GetFlag. cbn [find]. by rewrite Hhas. }
  split_and!; try done.
  - by rewrite Hearlier.
  - by rewrite Hlater.
  - rewrite Hreg. destruct (GetFlag w old n) as [b|] eqn:Hg.
    + apply GetFlag_Some in Hg as [Hb _]. intros [= Heq]. by apply (Hold_ne b).
    + intros [= Heq]. by apply Hne.
  - intros before b after Hsplit Hbefore Hb. rewrite Hreg.
    fold old in Hsplit. rewrite Hsplit. by rewrite GetFlag_first_named.
  - intros Hnone. rewrite Hreg. destruct (GetFlag w old n) as [b|] eqn:Hg; [|done].
    apply GetFlag_Some in Hg as [Hb Hh]. apply HasName_In in Hh.
    by destruct (Hnone b Hb).
  - assert (Hl2 : lineage w2 c path).
    { apply (lineage_same_parents w); [|done]. intros x. subst w2 w1.
      by rewrite !Command_Flag_parent. }
    destruct (lineage_head _ _ _ Hl2) as [rest ->].
    destruct (first_with (fun y => pname w2 y = n) (old ++ [earlier]))
      as (before & x & after & Hsplit & Hx & Hbefore).
    { intros y. apply _. }
    { exists earlier. split; [|done]. apply in_app_iff. right. by left. }
    assert (Hxin : In x old \/ x = earlier).
    { assert (Hin : In x (old ++ [earlier])).
      { rewrite Hsplit. apply in_app_iff. right. by left. }
      apply in_app_iff in Hin as [Hin|[<-|[]]]; auto. }
    assert (Hxne : x <> later).
    { destruct Hxin as [Hin| ->]; [by apply Hold_ne|done]. }
    destruct (getAllFlags_first_of_name w2 c [] c rest before x (after ++ [later]))
      as (o1 & o2 & Hfl & Ho1); [done| | |].
    { rewrite Hflags.
      change (old ++ [earlier; later]) with (old ++ [earlier] ++ [later]).
      by rewrite app_assoc, Hsplit, <- app_assoc. }
    { intros y Hy. cbn [declared map concat app] in Hy. rewrite Hx. by apply Hbefore. }
    pose proof (getAllFlags_NoDup w2 c (c :: rest) _ Hl2 Hfl) as Hnd.
    assert (Hin : In x (o1 ++ x :: o2)).
    { apply in_app_iff. right. by left. }
    assert (Hbefore_old : forall y, In y before -> In y old).
    { intros y Hy.
      assert (Hyin : In y (old ++ [earlier])).
      { rewrite Hsplit. apply in_app_iff. by left. }
      apply in_app_iff in Hyin as [?|[<-|[]]]; [done|].
      by destruct (Hbefore earlier Hy). }
    assert (Hlat : ~ In later (o1 ++ x :: o2)).
    { intros Hlat. apply Hxne. symmetry.
      apply (NoDup_map_eq (pname w2) _ later x Hnd); [done|done|congruence]. }
    assert (Hfirst : (forall b, In b old -> pname w b <> n) -> x = earlier).
    { intros Hnone. destruct Hxin as [Hxold|Hxe]; [|done].
      destruct (Hnone x Hxold). unfold pname in *. by rewrite <- (Hkept x Hxold). }
    exists (o1 ++ x :: o2). split_and!; try done.
    + intros argv w' r Hp. unfold Parse in Hp.
      destruct (Parse_loop_marks _ _ _ _ _ _ later Hp) as [Hs|(Hin' & _)]; [|done].
      unfold flagAt. by rewrite !lookup_total_alt, Hs.
    + intros Hnone. by rewrite <- (Hfirst Hnone).
    + intros Hnone.
      assert (Hxe : x = earlier) by (apply Hfirst; intros b Hb; by apply Hnone).
      subst x.
      assert (Hget : GetFlag w2 (o1 ++ earlier :: o2) n = Some earlier).
      { apply GetFlag_first; [|done]. intros b Hb.
        assert (Hbold : In b old).
        { apply Hbefore_old. specialize (Ho1 b Hb).
          by cbn [declared map concat app] in Ho1. }
        rewrite (Hkept b Hbold). apply HasName_not_In. by apply Hnone. }
      split; [done|]. intros tok v Hdash Hsplit'. by apply Parse_with_value.
Qed.

(** ** The lifecycle *)

Lemma runHook_effect h c e w w' r :
  runHook h c e w = (w', r) ->
  cmds w' = cmds w /\ flagStructs w' = flagStructs w /\ trace w' = trace w ++ [e]
  /\ (mem w', r) = h c (mem w).
Proof.
  unfold runHook. destruct (h c (mem w)) as [m r0]. intros [= <- <-]. done.
Qed.

Lemma cmdAt_same w w' x : cmds w' = cmds w -> cmdAt w' x = cmdAt w x.
Proof. unfold cmdAt. by intros ->. Qed.















(** ** Help *)

Lemma findSubcommand_index cmd argv : forall i j sub,
  findSubcommand cmd argv i = Subcommand j sub ->
  (i <= j < i + length argv)%nat.
Proof.
  induction argv as [|arg rest IH]; intros i j sub Hf; cbn [findSubcommand] in Hf; [done|].
  cbn [length]. repeat case_match; simplify_eq; try lia.
  apply IH in Hf. lia.
Qed.

(** [execute] never runs out of calls: any fuel above the number of
    tokens gives the same result. *)
Lemma execute_rec_fuel fuel1 : forall fuel2 w c argv,
  (length argv < fuel1)%nat -> (length argv < fuel2)%nat ->
  execute_rec fuel1 w c argv = execute_rec fuel2 w c argv.
Proof.
  induction fuel1 as [|fuel1 IH]; intros fuel2 w c argv H1 H2; [lia|].
  destruct fuel2 as [|fuel2]; [lia|].
  cbn [execute_rec].
  destruct (helpEnabled (cmdAt w c) && existsb (isHelpArg (cmdAt w c)) argv); [done|].
  destruct (findSubcommand (cmdAt w c) argv 0) as [i sub|arg|] eqn:Hf; [|done|done].
  apply findSubcommand_index in Hf.
  assert (Hlen : (length (drop (S i) argv) < length argv)%nat).
  { rewrite length_drop. lia. }
  destruct (take i argv); [apply IH; lia|].
  destruct (getAllFlags w c); [|done].
  destruct (Parse _ _ w) as [w' [remaining|err]]; [|done].
  apply IH; lia.
Qed.


Lemma existsb_isHelpArg cmd argv tok :
  In tok argv -> isHelpArg cmd tok = true -> existsb (isHelpArg cmd) argv = true.
Proof. intros Hin Htok. apply existsb_exists. eauto. Qed.

(** With help enabled, a help token anywhere in the vector makes
    [execute] show help and return nil. *)
Lemma execute_help w c argv path tok :
  helpEnabled (cmdAt w c) = true ->
  In tok argv -> isHelpArg (cmdAt w c) tok = true ->
  lineage w (helpTarget (cmdAt w c) c argv) path ->
  execute w c argv = (emit w (ShowedHelp (helpTarget (cmdAt w c) c argv)), Ret None).
Proof.
  intros Hen Hin Htok Hl. unfold execute. cbn [execute_rec].
  rewrite Hen, (existsb_isHelpArg _ _ _ Hin Htok). cbn [andb].
  unfold showHelp. by rewrite (getAllFlags_lineage _ _ _ Hl).
Qed.

(** C8. For a command with help enabled whose help flag has the default
    names, in a tree: when the vector holds the token [--help] or [-h],
    [execute] returns nil, and all it does is show help: no variable is
    written, no flag is marked as set (so nothing is parsed and nothing
    required is checked), and no hook and no action runs. *)
Theorem help_preempts w c argv path :
  helpEnabled (cmdAt w c) = true ->
  (In "--help"%string argv /\ helpFlag (cmdAt w c) = "help"%string)
  \/ (In "-h"%string argv /\ helpShort (cmdAt w c) = "h"%string) ->
  lineage w (helpTarget (cmdAt w c) c argv) path ->
  exists w',
    execute w c argv = (w', Ret None)
    /\ mem w' = mem w
    /\ flagStructs w' = flagStructs w
    /\ cmds w' = cmds w
    /\ trace w' = trace w ++ [ShowedHelp (helpTarget (cmdAt w c) c argv)].
Proof.
  intros Hen Htok Hl.
  exists (emit w (ShowedHelp (helpTarget (cmdAt w c) c argv))). split; [|done].
  destruct Htok as [[Hin Hname]|[Hin Hname]].
  - apply (execute_help w c argv path "--help"); [done|done| |done].
    unfold isHelpArg. by rewrite Hname.
  - apply (execute_help w c argv path "-h"); [done|done| |done].
    unfold isHelpArg. rewrite Hname. by rewrite orb_true_r.
Qed.

(** ** The argument binder *)

(** String tokens go into the variadic slice as they are, in order. *)
Lemma bindVariadic_strings c rest : forall slice,
  bindVariadic c TString rest slice = inl (slice ++ map VString rest).
Proof.
  induction rest as [|arg rest IH]; intros slice; cbn [bindVariadic map].
  - by rewrite app_nil_r.
  - unfold convertArgument, setValue. cbn [flagType value].
    rewrite lookup_total_insert_eq, IH. by rewrite <- app_assoc.
Qed.

(** The loop over the fixed parameters succeeds when each of them can be
    given a value. *)
Lemma bindParams_bindable c decl argv tys : forall i callArgs,
  (forall j ty, tys !! j = Some ty ->
     match argv !! (i + j)%nat with
     | Some arg => exists v, convertArgument arg ty = inl v
     | None => match decl !! (i + j)%nat with
               | Some d => Required d = false
               | None => True
               end
     end) ->
  exists out, bindParams c decl tys i argv callArgs = inl out.
Proof.
  induction tys as [|ty tys IH]; intros i callArgs Hok; cbn [bindParams]; [by eexists|].
  assert (Hrest : forall callArgs', exists out,
            bindParams c decl tys (S i) argv callArgs' = inl out).
  { intros callArgs'. apply IH. intros j ty' Hj.
    specialize (Hok (S j) ty' Hj). by rewrite Nat.add_succ_r in Hok. }
  specialize (Hok O ty eq_refl). rewrite Nat.add_0_r in Hok.
  destruct (argv !! i) as [arg|].
  - destruct Hok as [v ->]. apply Hrest.
  - destruct (decl !! i) as [d|]; [rewrite Hok|]; apply Hrest.
Qed.

(** C4 fails on the code.  For an action with a variadic last parameter,
    when the tokens do not reach the end of the fixed parameters and every
    fixed parameter can still be given a value (the ones without token
    being optional), [callAction] does not call the action with an empty
    variadic slice: it panics in [reflect.MakeSlice], asked for a slice of
    negative length. *)
Theorem variadic_short_vector_panics w c act elemType argv :
  variadic act = Some elemType ->
  (length argv < length (params act))%nat ->
  fixed_bindable (args (cmdAt w c)) (params act) argv ->
  callAction w c act argv = (w, Panic "reflect.MakeSlice: negative len").
Proof.
  intros Hv Hlen Hok. unfold callAction, buildCallArgs. rewrite Hv.
  destruct (bindParams_bindable c (args (cmdAt w c)) argv (params act) O [])
    as [callArgs ->]; [exact Hok|].
  destruct (Z.ltb_spec (Z.of_nat (length argv) - Z.of_nat (length (params act))) 0);
    [done|lia].
Qed.

(** ** More on the tokenizer *)

Lemma Parse_loop_remaining fs argv : forall remaining w w' out,
  Parse_loop fs argv remaining w = (w', inl out) ->
  out = remaining ++ List.filter positional argv.
Proof.
  induction argv as [|arg rest IH]; intros remaining w w' out Hp;
    cbn [Parse_loop List.filter] in *.
  - simplify_eq. by rewrite app_nil_r.
  - unfold positional at 1. destruct (negb (strings.HasPrefix arg "-")).
    + apply IH in Hp. by rewrite Hp, <- app_assoc.
    + destruct (parseFlag fs arg w) as [w1 [err|]]; [done|]. by apply IH in Hp.
Qed.

(** X1. What [Parse] returns when it succeeds is the tokens without
    dash, all of them and in their order. *)
Theorem Parse_returns_positionals fs argv w w' remaining :
  Parse fs argv w = (w', inl remaining) ->
  remaining = List.filter positional argv.
Proof. intros Hp. by apply Parse_loop_remaining in Hp. Qed.

(** X2. Whatever its result, [Parse] leaves the commands and the trace
    alone, writes no variable but those the flags of its set point to,
    touches no flag struct outside its set, changes a flag struct of its
    set only in its [set] mark, and never takes a [set] mark back. *)
Theorem Parse_frame fs argv w w' r :
  Parse fs argv w = (w', r) ->
  cmds w' = cmds w
  /\ trace w' = trace w
  /\ (forall l, (forall a, In a fs -> value (flagAt w a) <> l) ->
                mem w' !! l = mem w !! l)
  /\ (forall a, ~ In a fs -> flagStructs w' !! a = flagStructs w !! a)
  /\ (forall a, Flag_with_set (flagAt w' a) false = Flag_with_set (flagAt w a) false)
  /\ (forall a, set (flagAt w a) = true -> set (flagAt w' a) = true).
Proof.
  intros Hp. unfold Parse in Hp.
  pose proof (Parse_loop_effect _ _ _ _ _ _ Hp) as (Hc & Ht & Hb & Hm).
  split_and!; try done.
  - intros l Hl. apply Hm. intros tok a _ Hg. apply Hl.
    by apply GetFlag_Some in Hg as [].
  - intros a Ha. by destruct (Parse_loop_marks _ _ _ _ _ _ a Hp) as [Hs|(Hin & _)].
  - intros a. by apply (Parse_loop_set_mono fs argv [] w w' r).
Qed.

Lemma GetFlag_None w fs n :
  (forall a, In a fs -> HasName (flagAt w a) n = false) -> GetFlag w fs n = None.
Proof.
  intros Hno. unfold GetFlag. induction fs as [|a fs IH]; [done|]. cbn [find].
  rewrite (Hno a) by (by left). apply IH. intros b Hb. apply Hno. by right.
Qed.

Lemma Parse_loop_positionals fs pre : forall rest remaining w,
  (forall t, In t pre -> positional t = true) ->
  Parse_loop fs (pre ++ rest) remaining w = Parse_loop fs rest (remaining ++ pre) w.
Proof.
  induction pre as [|t pre IH]; intros rest remaining w Hpre; cbn [app Parse_loop].
  - by rewrite app_nil_r.
  - pose proof (Hpre t (or_introl eq_refl)) as Ht. unfold positional in Ht. rewrite Ht.
    rewrite IH by (intros t' Ht'; apply Hpre; by right).
    by rewrite <- app_assoc.
Qed.

(** X3. A token with a dash whose name no flag of the set answers to
    ends [Parse] with the unknown-flag error for that name, and what
    follows the token is not looked at.  (So [--] does not end the flags:
    it is a flag of empty name like any other.) *)
Theorem Parse_unknown_flag fs pre tok rest w :
  (forall t, In t pre -> positional t = true) ->
  positional tok = false ->
  (forall a, In a fs -> HasName (flagAt w a) (splitFlag tok).1.1 = false) ->
  Parse fs (pre ++ tok :: rest) w = (w, inr (UnknownFlag (splitFlag tok).1.1)).
Proof.
  intros Hpre Htok Hno. unfold Parse. rewrite Parse_loop_positionals by done. cbn [Parse_loop].
  unfold positional in Htok. rewrite Htok. unfold parseFlag.
  destruct (splitFlag tok) as [[flagName flagValue] hasValue]. cbn [fst] in *.
  by rewrite GetFlag_None.
Qed.

Lemma has_byte_from c k : forall s,
  strings.has_byte c s = false -> strings.has_byte c (strings.from k s) = false.
Proof.
  induction k as [|k IH]; intros [|d s] Hs; try done.
  cbn [strings.from]. cbn [strings.has_byte] in Hs. destruct (Ascii.eqb c d); [done|].
  by apply IH.
Qed.

Lemma splitFlag_bare arg :
  strings.has_byte "=" arg = false ->
  splitFlag arg = (if strings.HasPrefix arg "--" then strings.from 2 arg
                   else strings.from 1 arg, EmptyString, false).
Proof.
  intros Hno. unfold splitFlag.
  destruct (strings.HasPrefix arg "--"); by rewrite Index_eq_absent by (by apply has_byte_from).
Qed.

(** X4. A flag that is not boolean never takes its value from the next
    token: a token that names it and carries no [=] ends [Parse] with the
    requires-a-value error, nothing written. *)
Theorem Parse_requires_value fs pre tok rest w a :
  (forall t, In t pre -> positional t = true) ->
  positional tok = false ->
  strings.has_byte "=" tok = false ->
  GetFlag w fs (splitFlag tok).1.1 = Some a ->
  flagType (flagAt w a) <> TBool ->
  Parse fs (pre ++ tok :: rest) w = (w, inr (RequiresValue (splitFlag tok).1.1)).
Proof.
  intros Hpre Htok Hno Hg Hty.
  unfold Parse. rewrite Parse_loop_positionals by done. cbn [Parse_loop].
  unfold positional in Htok. rewrite Htok. unfold parseFlag.
  rewrite (splitFlag_bare tok Hno) in *. cbn [fst] in *. rewrite Hg.
  by destruct (flagType (flagAt w a)).
Qed.

Lemma splitFlag_long_token n v :
  strings.has_byte "=" n = false -> splitFlag (long_token n v) = (n, v, true).
Proof. intros Hn. by apply splitFlag_two_dashes. Qed.

Lemma long_token_dash n v : strings.HasPrefix (long_token n v) "-" = true.
Proof. done. Qed.

(** One token [--n=v] for a flag that is not boolean. *)
Lemma Parse_loop_long_token fs w a n v rest remaining :
  strings.has_byte "=" n = false ->
  GetFlag w fs n = Some a ->
  Parse_loop fs (long_token n v :: rest) remaining w =
  match setValue (flagAt w a) v (mem w) with
  | (m, Some err) => (with_mem w m, inr (InvalidValue v n err))
  | (m, None) =>
      Parse_loop fs rest remaining
        (with_flag (with_mem w m) a (Flag_with_set (flagAt w a) true))
  end.
Proof.
  intros Hn Hg. cbn [Parse_loop]. rewrite long_token_dash. cbn [negb].
  unfold parseFlag. rewrite (splitFlag_long_token n v Hn), Hg.
  destruct (flagType (flagAt w a)); cbn [negb];
    by destruct (setValue (flagAt w a) v (mem w)) as [m [err|]].
Qed.

(** X5. A flag bound to a list of strings collects: tokens [--n=v1] ...
    [--n=vk] are all accepted, and leave in the variable what it held
    followed by [v1] ... [vk], in that order. *)
Theorem Parse_list_flag_appends fs w a n vs :
  strings.has_byte "=" n = false ->
  GetFlag w fs n = Some a ->
  flagType (flagAt w a) = TSlice TString ->
  exists w',
    Parse fs (map (long_token n) vs) w = (w', inl [])
    /\ elems (mem w' !!! value (flagAt w a))
       = elems (mem w !!! value (flagAt w a)) ++ map VString vs.
Proof.
  intros Hn. unfold Parse. generalize (@nil string) as remaining.
  revert w. induction vs as [|v vs IH]; intros w remaining Hg Hty; cbn [map].
  - exists w. by rewrite app_nil_r.
  - rewrite (Parse_loop_long_token fs w a n v) by done.
    unfold setValue. rewrite Hty.
    set (l := value (flagAt w a)).
    set (w1 := with_flag _ a _).
    assert (Hsame : same_bindings w w1) by apply with_flag_set_same.
    assert (Ha : flagAt w1 a = Flag_with_set (flagAt w a) true)
      by apply flagAt_with_flag_eq.
    destruct (IH w1 remaining) as (w' & Hp & He).
    { by rewrite (same_bindings_GetFlag w w1). }
    { by rewrite Ha. }
    exists w'. split; [done|]. rewrite Ha in He. cbn [Flag_with_set value] in He.
    fold l in He. rewrite He. subst w1. cbn [with_flag with_mem mem].
    rewrite lookup_total_insert_eq. cbn [elems]. by rewrite <- app_assoc.
Qed.

(** X6. A string flag keeps what it was given last: whatever tokens were
    parsed before, a final [--n=v] leaves [v] in the variable, marks the
    flag as set, and succeeds with the same remaining tokens. *)
Theorem Parse_string_flag_last_wins fs argv w w1 remaining a n v :
  strings.has_byte "=" n = false ->
  GetFlag w fs n = Some a ->
  flagType (flagAt w a) = TString ->
  Parse fs argv w = (w1, inl remaining) ->
  exists w',
    Parse fs (argv ++ [long_token n v]) w = (w', inl remaining)
    /\ mem w' !!! value (flagAt w a) = VString v
    /\ set (flagAt w' a) = true.
Proof.
  intros Hn Hg Hty Hp. unfold Parse in *.
  pose proof (Parse_loop_effect _ _ _ _ _ _ Hp) as (_ & _ & Hsame & _).
  destruct (same_bindings_fields w w1 a Hsame) as (Hnames & Hty1 & Hval & _).
  rewrite Parse_loop_app, Hp.
  assert (Hg1 : GetFlag w1 fs n = Some a) by (by rewrite (same_bindings_GetFlag w w1)).
  rewrite (Parse_loop_long_token fs w1 a n v) by done.
  unfold setValue. rewrite Hty1, Hty. cbn [Parse_loop].
  eexists. split; [done|]. split.
  - cbn [with_flag with_mem mem]. rewrite Hval. by rewrite lookup_total_insert_eq.
  - by rewrite flagAt_with_flag_eq.
Qed.

Lemma collectFlags_same w w' fl : forall acc,
  same_bindings w w' -> collectFlags w' fl acc = collectFlags w fl acc.
Proof.
  induction fl as [|a fl IH]; intros acc Hs; [done|]. cbn [collectFlags].
  unfold PrimaryName. destruct (same_bindings_fields w w' a Hs) as [-> _].
  by rewrite !IH.
Qed.

Lemma ancestors_loop_same w w' fuel : forall current acc,
  cmds w' = cmds w ->
  ancestors_loop fuel w' current acc = ancestors_loop fuel w current acc.
Proof.
  induction fuel as [|fuel IH]; intros [c|] acc Hc; try done.
  cbn [ancestors_loop]. rewrite (cmdAt_same w w') by done. by apply IH.
Qed.

Lemma collectChain_same w w' chain : forall acc,
  cmds w' = cmds w -> same_bindings w w' ->
  collectChain w' chain acc = collectChain w chain acc.
Proof.
  induction chain as [|c chain IH]; intros acc Hc Hs; [done|]. cbn [collectChain].
  rewrite (cmdAt_same w w') by done. rewrite (collectFlags_same w w') by done.
  by apply IH.
Qed.

(** The effective flag set depends on the tree and on the names of the
    flags only. *)
Lemma getAllFlags_same w w' c :
  cmds w' = cmds w -> same_bindings w w' -> getAllFlags w' c = getAllFlags w c.
Proof.
  intros Hc Hs. unfold getAllFlags, ancestors, walk_fuel. rewrite Hc.
  rewrite (ancestors_loop_same w w') by done.
  destruct (ancestors_loop _ w (Some c) []) as [anc|]; [|done].
  by rewrite (collectChain_same w w').
Qed.

(** ** More on the effective flag set *)

Lemma collectFlags_distinct w fl : forall out seen,
  NoDup (map (pname w) fl) ->
  (forall a, In a fl -> pname w a ∉ seen) ->
  (collectFlags w fl (out, seen)).1 = out ++ fl.
Proof.
  induction fl as [|a fl IH]; intros out seen Hnd Hseen; cbn [collectFlags].
  - by rewrite app_nil_r.
  - cbn [map] in Hnd. apply NoDup_cons in Hnd as [Ha Hnd]. cbn [snd fst].
    fold (pname w a). rewrite decide_False by (apply Hseen; by left).
    rewrite IH; [by rewrite <- app_assoc|done|].
    intros b Hb [Heq%elem_of_singleton|Hin]%elem_of_union.
    + apply Ha. rewrite <- Heq. apply list_elem_of_In. by apply in_map.
    + by apply (Hseen b); [right|].
Qed.

(** X7. In a tree, the effective flag set of a command is all the flags
    declared along its lineage (its own first, in the order they were
    added, then its parent's, and so on up to the root) exactly when no two
    of them have the same primary name. *)
Theorem getAllFlags_all_declared w c path :
  lineage w c path ->
  getAllFlags w c = Some (declared w path)
  <-> NoDup (map (pname w) (declared w path)).
Proof.
  intros Hl. split.
  - intros Hg. by apply (getAllFlags_NoDup w c path).
  - intros Hnd. rewrite (getAllFlags_lineage _ _ _ Hl). f_equal.
    rewrite collectFlags_distinct; [done|done|]. intros a _. set_solver.
Qed.

(** ** More on [execute] *)

Lemma findSubcommand_skips cmd pre : forall rest i,
  (forall t, In t pre -> strings.HasPrefix t "-" = true) ->
  findSubcommand cmd (pre ++ rest) i = findSubcommand cmd rest (i + length pre).
Proof.
  induction pre as [|t pre IH]; intros rest i Hpre; cbn [app findSubcommand length].
  - by rewrite Nat.add_0_r.
  - rewrite (Hpre t) by (by left). rewrite IH by (intros t' Ht'; apply Hpre; by right).
    f_equal. lia.
Qed.

(** X8. When the first token without dash names no subcommand of a
    command that has subcommands, [execute] returns the unknown-command
    error for that token and does nothing else: the flags before the token
    are not even looked at, and neither is what follows it. *)
Theorem execute_unknown_command w c pre arg rest :
  helpEnabled (cmdAt w c) && existsb (isHelpArg (cmdAt w c)) (pre ++ arg :: rest) = false ->
  (forall t, In t pre -> strings.HasPrefix t "-" = true) ->
  strings.HasPrefix arg "-" = false ->
  subcommands (cmdAt w c) !! arg = None ->
  (0 < size (subcommands (cmdAt w c)))%nat ->
  execute w c (pre ++ arg :: rest) = (w, Ret (Some (CommandNotFoundError arg c))).
Proof.
  intros Hhelp Hpre Harg Hno Hsize. unfold execute. cbn [execute_rec].
  rewrite Hhelp, findSubcommand_skips by done. cbn [findSubcommand].
  rewrite Harg, Hno.
  destruct (Z.ltb_spec 0 (Z.of_nat (size (subcommands (cmdAt w c))))); [done|lia].
Qed.

(** X9. When the first token without dash names a subcommand, hidden
    or not, the tokens before it are parsed against the effective flag set
    of the command (when there are any), and then the subcommand is
    executed on the tokens after the name, in the world the parse left.  A
    parse error ends the execution there. *)
Theorem execute_delegates w c pre nm post sub :
  helpEnabled (cmdAt w c) && existsb (isHelpArg (cmdAt w c)) (pre ++ nm :: post) = false ->
  (forall t, In t pre -> strings.HasPrefix t "-" = true) ->
  strings.HasPrefix nm "-" = false ->
  subcommands (cmdAt w c) !! nm = Some sub ->
  execute w c (pre ++ nm :: post) =
  match pre with
  | [] => execute w sub post
  | _ :: _ =>
      match getAllFlags w c with
      | None => (w, Hang)
      | Some allFlags =>
          match Parse allFlags pre w with
          | (w', inr err) => (w', Ret (Some (FlagError EmptyString (MsgParse err) c)))
          | (w', inl _) => execute w' sub post
          end
      end
  end.
Proof.
  intros Hhelp Hpre Hnm Hsub. unfold execute at 1. cbn [execute_rec].
  rewrite Hhelp, findSubcommand_skips by done. cbn [findSubcommand].
  rewrite Hnm, Hsub. cbn [Nat.add].
  rewrite take_app_length.
  replace (drop (S (length pre)) (pre ++ nm :: post)) with post.
  2:{ change (S (length pre)) with (1 + length pre)%nat.
      by rewrite Nat.add_comm, <- drop_drop, drop_app_length. }
  assert (Hfuel : forall w0,
    execute_rec (length (pre ++ nm :: post)) w0 sub post = execute w0 sub post).
  { intros w0. unfold execute. apply execute_rec_fuel; [|lia].
    rewrite length_app. cbn [length]. lia. }
  destruct pre as [|t pre']; [apply Hfuel|].
  destruct (getAllFlags w c) as [allFlags|]; [|done].
  destruct (Parse allFlags (t :: pre') w) as [w' [remaining|err]]; [apply Hfuel|done].
Qed.

Lemma Parse_loop_set_kept fs argv remaining w w' r a :
  Parse_loop fs argv remaining w = (w', r) ->
  (forall tok, In tok argv -> positional tok = false ->
     GetFlag w fs (splitFlag tok).1.1 <> Some a) ->
  set (flagAt w' a) = set (flagAt w a).
Proof.
  intros Hp Hno.
  destruct (Parse_loop_marks _ _ _ _ _ _ a Hp) as [Hs|(_ & (tok & Hin & Hpos & Hg) & _)].
  - unfold flagAt. by rewrite !lookup_total_alt, Hs.
  - by destruct (Hno tok Hin Hpos).
Qed.

(** A flag token that is taken marks the flag it names. *)
Lemma parseFlag_sets fs arg w w1 b :
  parseFlag fs arg w = (w1, None) ->
  GetFlag w fs (splitFlag arg).1.1 = Some b ->
  set (flagAt w1 b) = true.
Proof.
  unfold parseFlag. destruct (splitFlag arg) as [[flagName flagValue] hasValue].
  cbn [fst]. intros Hp Hg. rewrite Hg in Hp.
  destruct (flagType (flagAt w b)); destruct hasValue; cbn [negb] in Hp;
    try (destruct (setValue (flagAt w b) flagValue (mem w)) as [m [err|]]);
    simplify_eq; by rewrite flagAt_with_flag_eq.
Qed.

(** After a parse that succeeds, every flag a token with a dash named is
    marked. *)
Lemma Parse_loop_named_set fs argv : forall remaining w w' out tok b,
  Parse_loop fs argv remaining w = (w', inl out) ->
  In tok argv -> positional tok = false ->
  GetFlag w fs (splitFlag tok).1.1 = Some b ->
  set (flagAt w' b) = true.
Proof.
  induction argv as [|arg rest IH]; intros remaining w w' out tok b Hp Hin Hpos Hg;
    [done|]. cbn [Parse_loop] in Hp.
  destruct (negb (strings.HasPrefix arg "-")) eqn:Hdash.
  - destruct Hin as [->|Hin].
    + unfold positional in Hpos. congruence.
    + by apply (IH _ _ _ _ tok b Hp).
  - destruct (parseFlag fs arg w) as [w1 [err|]] eqn:Hf; [done|].
    pose proof (parseFlag_effect _ _ _ _ _ Hf) as (_ & _ & Hsame & _).
    destruct Hin as [->|Hin].
    + apply (Parse_loop_set_mono _ _ _ _ _ _ b Hp). by apply (parseFlag_sets fs tok w).
    + apply (IH _ _ _ _ tok b Hp); [done|done|].
      by rewrite (same_bindings_GetFlag w w1).
Qed.

(** X10. After the flags are parsed, the first flag of the effective
    flag set that is required and not marked as set ends [execute] with
    the required-flag error under its primary name, before the arguments
    are counted and before any hook runs.  A flag counts as set when it
    was marked before the call or a token with a dash of this call named
    it: the required flags ahead of the missing one are each set in one
    of the two ways, the missing one in neither. *)
Theorem execute_required_flag_missing w c argv allFlags before a after w' remaining n ns :
  helpEnabled (cmdAt w c) && existsb (isHelpArg (cmdAt w c)) argv = false ->
  findSubcommand (cmdAt w c) argv 0 = NoSubcommand ->
  getAllFlags w c = Some allFlags ->
  Parse allFlags argv w = (w', inl remaining) ->
  allFlags = before ++ a :: after ->
  (forall b, In b before -> required (flagAt w b) = true ->
     set (flagAt w b) = true
     \/ exists tok, In tok argv /\ positional tok = false
                    /\ GetFlag w allFlags (splitFlag tok).1.1 = Some b) ->
  required (flagAt w a) = true ->
  set (flagAt w a) = false ->
  (forall tok, In tok argv -> positional tok = false ->
     GetFlag w allFlags (splitFlag tok).1.1 <> Some a) ->
  names (flagAt w a) = n :: ns ->
  execute w c argv = (w', Ret (Some (FlagError n MsgRequiredFlagNotSet c)))
  /\ trace w' = trace w.
Proof.
  intros Hhelp Hfind Hall Hp Hsplit Hbefore Hreq Hset Hno Hnames.
  pose proof (Parse_loop_effect _ _ _ _ _ _ Hp) as (_ & Ht & Hsame & _).
  split; [|done].
  unfold execute. cbn [execute_rec]. rewrite Hhelp, Hfind, Hall, Hp.
  assert (Hmiss : missingRequired w' allFlags = Some a).
  { unfold missingRequired. rewrite Hsplit.
    assert (Hfields : forall b, required (flagAt w' b) = required (flagAt w b)).
    { intros b. by destruct (same_bindings_fields w w' b Hsame) as (_ & _ & _ & ->). }
    assert (Hkept : set (flagAt w' a) = false).
    { by rewrite (Parse_loop_set_kept allFlags argv [] w w' (inl remaining) a). }
    assert (Hgiven : forall b, In b before -> required (flagAt w b) = true ->
              set (flagAt w' b) = true).
    { intros b Hb Hrb. destruct (Hbefore b Hb Hrb) as [Hs|(tok & Hin & Hpos & Hg)].
      - by apply (Parse_loop_set_mono _ _ _ _ _ _ b Hp).
      - by apply (Parse_loop_named_set _ _ _ _ _ _ tok b Hp). }
    clear Hsplit Hall Hp Hno Hbefore.
    induction before as [|b before IH]; cbn [app find].
    - by rewrite Hfields, Hreq, Hkept.
    - rewrite Hfields. destruct (required (flagAt w b)) eqn:Hb.
      + rewrite Hgiven by (by left || done). cbn [negb andb].
        apply IH. intros b' Hb'. apply Hgiven. by right.
      + cbn [andb]. apply IH. intros b' Hb'. apply Hgiven. by right. }
  rewrite Hmiss.
  destruct (same_bindings_fields w w' a Hsame) as (-> & _).
  by rewrite Hnames.
Qed.

(** X11. Without a variadic action, more tokens without dash than the
    command declares arguments end [execute] with the too-many-arguments
    error, which counts the declared arguments and the tokens without
    dash.  The flags were parsed by then, but no hook ran. *)
Theorem execute_too_many_arguments w c argv allFlags w' remaining :
  helpEnabled (cmdAt w c) && existsb (isHelpArg (cmdAt w c)) argv = false ->
  findSubcommand (cmdAt w c) argv 0 = NoSubcommand ->
  getAllFlags w c = Some allFlags ->
  Parse allFlags argv w = (w', inl remaining) ->
  missingRequired w' allFlags = None ->
  (forall act, action (cmdAt w c) = Some act -> variadic act = None) ->
  (length (args (cmdAt w c)) < length (List.filter positional argv))%nat ->
  execute w c argv =
    (w', Ret (Some (ArgumentError EmptyString
                      (MsgTooManyArguments (length (args (cmdAt w c)))
                                           (length (List.filter positional argv))) c)))
  /\ trace w' = trace w.
Proof.
  intros Hhelp Hfind Hall Hp Hmiss Hvar Hlen.
  pose proof (Parse_loop_effect _ _ _ _ _ _ Hp) as (_ & Ht & _).
  pose proof (Parse_loop_remaining _ _ _ _ _ _ Hp) as Hrem. cbn [app] in Hrem.
  split; [|done].
  unfold execute. cbn [execute_rec]. rewrite Hhelp, Hfind, Hall, Hp, Hmiss.
  assert (Hnv : match action (cmdAt w c) with
                | Some act => bool_decide (is_Some (variadic act))
                | None => false
                end = false).
  { destruct (action (cmdAt w c)) as [act|]; [|done].
    rewrite (Hvar act eq_refl). apply bool_decide_eq_false_2. by intros [? ?]. }
  rewrite Hnv. cbn [negb andb]. rewrite <- Hrem in Hlen |- *.
  destruct (Nat.ltb_spec (length (args (cmdAt w c))) (length remaining)); [done|lia].
Qed.

(** ** More on the lifecycle *)

Lemma persistentPreRun_loop_frame c l : forall w w1 r,
  persistentPreRun_loop c l w = (w1, r) ->
  cmds w1 = cmds w /\ flagStructs w1 = flagStructs w.
Proof.
  induction l as [|x l IH]; intros w w1 r Hl; cbn [persistentPreRun_loop] in Hl.
  - by simplify_eq.
  - destruct (persistentPreRun (cmdAt w x)) as [h|]; [|by apply IH in Hl].
    destruct (runHook h c (RanPersistentPreRun x) w) as [w' [err|]] eqn:Hr;
      apply runHook_effect in Hr as (Hc & Hf & _).
    + by simplify_eq.
    + apply IH in Hl as [Hc1 Hf1]. split; congruence.
Qed.

Lemma persistentPostRun_loop_frame c fuel : forall current w w',
  persistentPostRun_loop fuel c current w = Some w' ->
  cmds w' = cmds w /\ flagStructs w' = flagStructs w.
Proof.
  induction fuel as [|fuel IH]; intros [cur|] w w' Hl; cbn [persistentPostRun_loop] in Hl;
    try done; try (by simplify_eq).
  apply IH in Hl as [Hc Hf].
  destruct (persistentPostRun (cmdAt w cur)) as [h|]; [|done].
  destruct (runHook h c (RanPersistentPostRun cur) w) as [w1 r] eqn:Hr.
  apply runHook_effect in Hr as (Hc1 & Hf1 & _). cbn [fst] in *. split; congruence.
Qed.

Lemma unwind_frame w c err w' out :
  unwind w c err = (w', out) ->
  cmds w' = cmds w /\ flagStructs w' = flagStructs w.
Proof.
  unfold unwind, runPostHooks.
  destruct (persistentPostRun_loop _ c (Some c) _) as [w2|] eqn:Hl; [|by intros [= <- <-]].
  intros [= <- <-]. apply persistentPostRun_loop_frame in Hl as [Hc Hf].
  destruct (postRun (cmdAt w c)) as [h|]; [|done].
  destruct (runHook h c (RanPostRun c) w) as [w1 r] eqn:Hr.
  apply runHook_effect in Hr as (Hc1 & Hf1 & _). cbn [fst] in *. split; congruence.
Qed.

Lemma callAction_frame w c act argv w' out :
  callAction w c act argv = (w', out) ->
  cmds w' = cmds w /\ flagStructs w' = flagStructs w.
Proof.
  unfold callAction. destruct (buildCallArgs _ _ _ _) as [callArgs|o].
  - destruct (call act c callArgs (mem w)) as [m r]. by intros [= <- <-].
  - by intros [= <- <-].
Qed.

(** An execution of the action with its hooks changes neither the tree
    nor a flag struct. *)
Lemma executeAction_frame w c argv w' out :
  executeAction w c argv = (w', out) ->
  cmds w' = cmds w /\ flagStructs w' = flagStructs w.
Proof.
  unfold executeAction. destruct (ancestors w c) as [anc|]; [|by intros [= <- <-]].
  destruct (persistentPreRun_loop c anc w) as [w1 r] eqn:Hpre.
  apply persistentPreRun_loop_frame in Hpre as [Hc1 Hf1].
  destruct r as [err|].
  { intros [Hc Hf]%unwind_frame. split; congruence. }
  destruct (match preRun (cmdAt w1 c) with
            | Some h => runHook h c (RanPreRun c) w1
            | None => (w1, None)
            end) as [w2 pre] eqn:Hp.
  assert (cmds w2 = cmds w1 /\ flagStructs w2 = flagStructs w1) as [Hc2 Hf2].
  { destruct (preRun (cmdAt w1 c)) as [h|]; [|by simplify_eq].
    by apply runHook_effect in Hp as (? & ? & _). }
  destruct pre as [err|].
  { intros [Hc Hf]%unwind_frame. split; congruence. }
  destruct (action (cmdAt w2 c)) as [act|].
  2:{ intros [Hc Hf]%unwind_frame. split; congruence. }
  destruct (callAction w2 c act argv) as [w3 o] eqn:Hcall.
  apply callAction_frame in Hcall as [Hc3 Hf3].
  destruct o as [actionErr| |].
  - intros [Hc Hf]%unwind_frame. split; congruence.
  - intros [= <- <-]. split; congruence.
  - intros [= <- <-]. split; congruence.
Qed.

Lemma execute_rec_frame fuel : forall w c argv w' out,
  execute_rec fuel w c argv = (w', out) ->
  cmds w' = cmds w
  /\ same_bindings w w'
  /\ (forall a, set (flagAt w a) = true -> set (flagAt w' a) = true).
Proof.
  assert (Heq : forall w w', cmds w' = cmds w -> flagStructs w' = flagStructs w ->
    cmds w' = cmds w /\ same_bindings w w'
    /\ (forall a, set (flagAt w a) = true -> set (flagAt w' a) = true)).
  { intros w w' Hc Hf. split; [done|]. unfold same_bindings, flagAt. by rewrite Hf. }
  induction fuel as [|fuel IH]; intros w c argv w' out He; cbn [execute_rec] in He.
  { simplify_eq. by apply Heq. }
  destruct (helpEnabled (cmdAt w c) && existsb (isHelpArg (cmdAt w c)) argv).
  { unfold showHelp in He. destruct (getAllFlags w _); simplify_eq; by apply Heq. }
  assert (Hparse : forall fs tokens w1 r w2,
    Parse fs tokens w = (w1, r) ->
    cmds w2 = cmds w1 /\ same_bindings w1 w2
      /\ (forall a, set (flagAt w1 a) = true -> set (flagAt w2 a) = true) ->
    cmds w2 = cmds w /\ same_bindings w w2
      /\ (forall a, set (flagAt w a) = true -> set (flagAt w2 a) = true)).
  { intros fs tokens w1 r w2 Hp (Hc2 & Hs2 & Hm2).
    pose proof (Parse_loop_effect _ _ _ _ _ _ Hp) as (Hc1 & _ & Hs1 & _).
    split_and!; [congruence|by apply (same_bindings_trans w w1 w2)|].
    intros a Ha. by apply Hm2, (Parse_loop_set_mono _ _ _ _ _ _ a Hp). }
  destruct (findSubcommand (cmdAt w c) argv 0) as [i sub|arg|].
  - destruct (take i argv) as [|t pre]; [by apply IH in He|].
    destruct (getAllFlags w c) as [allFlags|]; [|simplify_eq; by apply Heq].
    destruct (Parse allFlags (t :: pre) w) as [w1 [remaining|err]] eqn:Hp.
    + apply IH in He. by apply (Hparse _ _ _ _ _ Hp).
    + simplify_eq. apply (Hparse _ _ _ _ _ Hp). by apply Heq.
  - simplify_eq. by apply Heq.
  - destruct (getAllFlags w c) as [allFlags|]; [|simplify_eq; by apply Heq].
    destruct (Parse allFlags argv w) as [w1 [remaining|err]] eqn:Hp.
    2:{ simplify_eq. apply (Hparse _ _ _ _ _ Hp). by apply Heq. }
    apply (Hparse _ _ _ _ _ Hp).
    destruct (missingRequired w1 allFlags) as [a|].
    { destruct (names (flagAt w1 a)); simplify_eq; by apply Heq. }
    destruct (negb _ && _); [simplify_eq; by apply Heq|].
    apply executeAction_frame in He as [Hc Hf]. by apply Heq.
Qed.

(** X12. Whatever [execute] does and however it ends, it leaves the
    command tree as it was, changes a flag struct only in its [set] mark,
    and never takes a [set] mark back: a flag that was given in one
    execution still counts as set in the next.  (Hooks and actions write
    variables only.) *)
Theorem execute_keeps_marks w c argv w' out :
  execute w c argv = (w', out) ->
  cmds w' = cmds w
  /\ (forall a, Flag_with_set (flagAt w' a) false = Flag_with_set (flagAt w a) false)
  /\ (forall a, set (flagAt w a) = true -> set (flagAt w' a) = true)
  /\ (forall d, getAllFlags w' d = getAllFlags w d).
Proof.
  intros He. apply execute_rec_frame in He as (Hc & Hs & Hm).
  split_and!; [done|done|done|]. intros d. by apply getAllFlags_same.
Qed.



(** ** More on help *)

Lemma helpTarget_skips cmd c pre : forall rest,
  (forall t, In t pre ->
     strings.HasPrefix t "-" = true \/ subcommands cmd !! t = None) ->
  helpTarget cmd c (pre ++ rest) = helpTarget cmd c rest.
Proof.
  induction pre as [|t pre IH]; intros rest Hpre; [done|]. cbn [app helpTarget].
  rewrite IH by (intros t' Ht'; apply Hpre; by right).
  destruct (Hpre t (or_introl eq_refl)) as [-> | ->]; [done|].
  by destruct (negb _).
Qed.

(** X15. With help enabled and a help token somewhere in the vector,
    help is shown for the subcommand that the first token without dash
    that names one names: a direct child of the command, whatever
    follows, whatever tokens that name nothing come before it, and whether
    or not help is enabled on the child. *)
Theorem help_shown_for_first_child w c pre a post sub path :
  helpEnabled (cmdAt w c) = true ->
  existsb (isHelpArg (cmdAt w c)) (pre ++ a :: post) = true ->
  (forall t, In t pre ->
     strings.HasPrefix t "-" = true \/ subcommands (cmdAt w c) !! t = None) ->
  strings.HasPrefix a "-" = false ->
  subcommands (cmdAt w c) !! a = Some sub ->
  lineage w sub path ->
  execute w c (pre ++ a :: post) = (emit w (ShowedHelp sub), Ret None).
Proof.
  intros Hen Hhelp Hpre Ha Hsub Hl.
  assert (Ht : helpTarget (cmdAt w c) c (pre ++ a :: post) = sub).
  { rewrite helpTarget_skips by done. cbn [helpTarget]. by rewrite Ha, Hsub. }
  apply existsb_exists in Hhelp as (tok & Hin & Htok).
  rewrite <- Ht at 1.
  apply (execute_help w c _ path tok); [done|done|done|by rewrite Ht].
Qed.

(** ** Building the tree *)

Lemma cmdAt_with_cmd_eq w c cmd : cmdAt (with_cmd w c cmd) c = cmd.
Proof. unfold cmdAt, with_cmd. cbn. apply lookup_total_insert_eq. Qed.

Lemma cmdAt_with_cmd_ne w c cmd x : c <> x -> cmdAt (with_cmd w c cmd) x = cmdAt w x.
Proof. intros Hne. unfold cmdAt, with_cmd. cbn. by apply lookup_total_insert_ne. Qed.

Lemma AddCommand_parent_sub w c sub : parent (cmdAt (AddCommand w c sub) sub) = Some c.
Proof.
  unfold AddCommand. destruct (decide (c = sub)) as [->|Hne].
  - rewrite cmdAt_with_cmd_eq. cbn [with_subcommands parent].
    by rewrite cmdAt_with_cmd_eq.
  - rewrite cmdAt_with_cmd_ne by done. by rewrite cmdAt_with_cmd_eq.
Qed.

Lemma AddCommand_parent_other w c sub x :
  x <> sub -> parent (cmdAt (AddCommand w c sub) x) = parent (cmdAt w x).
Proof.
  intros Hx. unfold AddCommand. destruct (decide (c = x)) as [->|Hne].
  - rewrite cmdAt_with_cmd_eq. cbn [with_subcommands parent].
    by rewrite cmdAt_with_cmd_ne by done.
  - rewrite !cmdAt_with_cmd_ne by done. done.
Qed.

Lemma AddCommand_name w c sub x : name (cmdAt (AddCommand w c sub) x) = name (cmdAt w x).
Proof.
  unfold AddCommand. destruct (decide (c = x)) as [->|Hne].
  - rewrite cmdAt_with_cmd_eq. cbn [with_subcommands name].
    destruct (decide (sub = x)) as [->|Hne2].
    + by rewrite cmdAt_with_cmd_eq.
    + by rewrite cmdAt_with_cmd_ne.
  - rewrite cmdAt_with_cmd_ne by done.
    destruct (decide (sub = x)) as [->|Hne2].
    + by rewrite cmdAt_with_cmd_eq.
    + by rewrite cmdAt_with_cmd_ne.
Qed.

Lemma AddCommand_subcommands w c sub :
  subcommands (cmdAt (AddCommand w c sub) c)
  = <[name (cmdAt w sub) := sub]> (subcommands (cmdAt w c)).
Proof.
  unfold AddCommand. rewrite cmdAt_with_cmd_eq. cbn [with_subcommands subcommands].
  rewrite cmdAt_with_cmd_eq. cbn [with_parent name].
  destruct (decide (sub = c)) as [->|Hne].
  - by rewrite cmdAt_with_cmd_eq.
  - by rewrite cmdAt_with_cmd_ne.
Qed.

Lemma AddCommand_subcommands_other w c sub x :
  x <> c -> subcommands (cmdAt (AddCommand w c sub) x) = subcommands (cmdAt w x).
Proof.
  intros Hx. unfold AddCommand. rewrite cmdAt_with_cmd_ne by done.
  destruct (decide (sub = x)) as [->|Hne].
  - by rewrite cmdAt_with_cmd_eq.
  - by rewrite cmdAt_with_cmd_ne.
Qed.

Lemma lineage_same_parents_on w w' c path :
  (forall x, In x path -> parent (cmdAt w' x) = parent (cmdAt w x)) ->
  lineage w c path -> lineage w' c path.
Proof.
  intros Hp Hl. induction Hl as [c Hc|c p path Hc Hl IH].
  - apply lineage_root. rewrite Hp; [done|by left].
  - apply lineage_child with p; [rewrite Hp; [done|by left]|].
    apply IH. intros x Hx. apply Hp. by right.
Qed.

(** X16. Adding a command that is not on the lineage of its new parent
    hangs it below: the parent finds it under its name, its lineage is
    itself followed by the parent's, and nothing else changes in the
    tables of subcommands.  In particular a former parent still lists
    it. *)
Theorem AddCommand_links w c sub path :
  lineage w c path ->
  ~ In sub path ->
  subcommands (cmdAt (AddCommand w c sub) c) !! name (cmdAt w sub) = Some sub
  /\ lineage (AddCommand w c sub) sub (sub :: path)
  /\ (forall n, n <> name (cmdAt w sub) ->
        subcommands (cmdAt (AddCommand w c sub) c) !! n = subcommands (cmdAt w c) !! n)
  /\ (forall x, x <> c ->
        subcommands (cmdAt (AddCommand w c sub) x) = subcommands (cmdAt w x)).
Proof.
  intros Hl Hsub. split_and!.
  - by rewrite AddCommand_subcommands, lookup_insert_eq.
  - apply lineage_child with c; [apply AddCommand_parent_sub|].
    apply (lineage_same_parents_on w); [|done].
    intros x Hx. apply AddCommand_parent_other. by intros ->.
  - intros n Hn. by rewrite AddCommand_subcommands, lookup_insert_ne.
  - intros x Hx. by apply AddCommand_subcommands_other.
Qed.

(** X17. Of two commands of the same name added to a parent, the one
    added last is the one the parent finds; the first one keeps the parent
    it was given. *)
Theorem AddCommand_same_name_replaces w c s1 s2 :
  s1 <> s2 ->
  name (cmdAt w s1) = name (cmdAt w s2) ->
  subcommands (cmdAt (AddCommand (AddCommand w c s1) c s2) c) !! name (cmdAt w s1)
    = Some s2
  /\ parent (cmdAt (AddCommand (AddCommand w c s1) c s2) s1) = Some c.
Proof.
  intros Hne Hname. split.
  - rewrite AddCommand_subcommands, AddCommand_name, <- Hname.
    by rewrite lookup_insert_eq.
  - rewrite AddCommand_parent_other by done. apply AddCommand_parent_sub.
Qed.

Lemma lineage_step w x p q :
  parent (cmdAt w x) = Some p -> lineage w x q ->
  exists q', q = x :: q' /\ lineage w p q'.
Proof.
  intros Hp Hl. inversion Hl; simplify_eq. by eexists.
Qed.

Lemma lineage_around w w' c sub s : forall x post q,
  lineage w x (s ++ sub :: post) ->
  (forall y, In y s -> parent (cmdAt w' y) = parent (cmdAt w y)) ->
  parent (cmdAt w' sub) = Some c ->
  lineage w' x q ->
  exists q', q = s ++ sub :: q' /\ lineage w' c q'.
Proof.
  induction s as [|y s IH]; intros x post q Hl Hs Hsub Hq; cbn [app] in *.
  - destruct (lineage_head _ _ _ Hl) as [rest [= <- _]].
    by apply (lineage_step w' sub c q).
  - inversion Hl as [|? p ? Hp Hl']; simplify_eq.
    { by destruct s. }
    assert (Hp' : parent (cmdAt w' y) = Some p) by (rewrite Hs; [done|by left]).
    destruct (lineage_step w' y p q Hp' Hq) as (q1 & -> & Hq1).
    destruct (IH p post q1 Hl') as (q' & -> & Hc); [|done|done|by exists q'].
    intros z Hz. apply Hs. by right.
Qed.

(** X18. Adding to a command one of its own ancestors, or itself, closes
    a cycle, and nothing guards against it: after that, collecting the
    flags of the command never returns, and neither does running it. *)
Theorem AddCommand_cycle_hangs w c sub path argv :
  lineage w c path ->
  In sub path ->
  getAllFlags (AddCommand w c sub) c = None
  /\ executeAction (AddCommand w c sub) c argv = (AddCommand w c sub, Hang).
Proof.
  intros Hl Hsub.
  assert (Hnone : ancestors (AddCommand w c sub) c = None).
  { destruct (ancestors (AddCommand w c sub) c) as [anc|] eqn:Ha; [|done]. exfalso.
    apply ancestors_Some in Ha.
    apply in_split in Hsub as (s & post & ->).
    destruct (lineage_around w (AddCommand w c sub) c sub s c post (rev anc) Hl)
      as (q' & Hq & Hc); [| |done|].
    - intros y Hy. apply AddCommand_parent_other. intros ->.
      pose proof (lineage_NoDup _ _ _ Hl) as Hnd.
      apply NoDup_app in Hnd as (_ & Hnd & _). apply (Hnd sub).
      + by apply list_elem_of_In.
      + apply list_elem_of_In. by left.
    - apply AddCommand_parent_sub.
    - pose proof (lineage_functional _ _ _ _ Ha Hc) as Heq.
      rewrite Heq in Hq. apply (f_equal length) in Hq.
      rewrite length_app in Hq. cbn [length] in Hq. lia. }
  split.
  - unfold getAllFlags. by rewrite Hnone.
  - unfold executeAction. by rewrite Hnone.
Qed.

(** ** The path of a command *)

Lemma join_space_snoc l x :
  l <> [] -> join_space (l ++ [x]) = join_space l +:+ " " +:+ x.
Proof.
  induction l as [|y l IH]; intros Hne; [done|].
  destruct l as [|z l]; [done|].
  change (join_space ((y :: z :: l) ++ [x]))
    with (y +:+ " " +:+ join_space ((z :: l) ++ [x])).
  rewrite IH by done.
  change (join_space (y :: z :: l)) with (y +:+ " " +:+ join_space (z :: l)).
  by rewrite !append_assoc.
Qed.

Lemma getCommandPath_rec_lineage w c path :
  lineage w c path -> forall fuel,
  (length path <= fuel)%nat ->
  getCommandPath_rec fuel w c = Some (join_space (cmdNames w (rev path))).
Proof.
  induction 1 as [c Hc|c p path Hc Hl IH]; intros fuel Hf;
    (destruct fuel as [|fuel]; [cbn in Hf; lia|]); cbn [getCommandPath_rec]; rewrite Hc.
  - done.
  - rewrite IH by (cbn in Hf; lia). cbn [fmap option_fmap option_map rev].
    unfold cmdNames. rewrite map_app. cbn [map]. rewrite join_space_snoc; [done|].
    destruct (lineage_head _ _ _ Hl) as [rest ->]. cbn [rev].
    rewrite map_app. cbn [map]. by destruct (map _ (rev rest)).
Qed.

(** X19. In a tree, the path of a command is the names of its lineage
    from the root down to it, with a space between them; and the text of
    the unknown-command error names the token and that path. *)
Theorem getCommandPath_lineage w c path n :
  lineage w c path ->
  getCommandPath w c = Some (join_space (cmdNames w (rev path)))
  /\ CommandNotFoundError_Error w n c
     = Some ("unknown command '" +:+ n +:+ "' for '"
             +:+ join_space (cmdNames w (rev path)) +:+ "'").
Proof.
  intros Hl.
  assert (Hp : getCommandPath w c = Some (join_space (cmdNames w (rev path)))).
  { unfold getCommandPath. apply getCommandPath_rec_lineage; [done|].
    by apply (lineage_bounded w c). }
  split; [done|]. unfold CommandNotFoundError_Error. by rewrite Hp.
Qed.

(** ** Completion words *)

Lemma In_flagWords f word :
  In word (flagWords f) <->
  hidden f = false
  /\ (word = "--" +:+ PrimaryName f
      \/ (ShortName f <> EmptyString /\ word = "-" +:+ ShortName f)).
Proof.
  unfold flagWords. destruct (hidden f); [by split; [|intros [? _]]|].
  destruct (String.eqb_spec (ShortName f) EmptyString) as [He|Hne]; cbn [In].
  - split; [intros [<-|[]]; auto|]. intros [_ [->|[Hs _]]]; auto.
  - split; [intros [<-|[<-|[]]]; auto|]. intros [_ [->|[_ ->]]]; auto.
Qed.

(** X20. The completion words of a command are the names under which it
    lists a subcommand that is not hidden, and, for every flag of its
    effective flag set that is not hidden, two dashes with the primary name
    and, when there is a second name, one dash with it. *)
Theorem getCompletionWords_spec w c allFlags :
  getAllFlags w c = Some allFlags ->
  exists words,
    getCompletionWords w c = Some words
    /\ forall word,
         In word words <->
         (exists sub, subcommands (cmdAt w c) !! word = Some sub
                      /\ cmdHidden (cmdAt w sub) = false)
         \/ (exists a, In a allFlags /\ hidden (flagAt w a) = false
               /\ (word = "--" +:+ PrimaryName (flagAt w a)
                   \/ (ShortName (flagAt w a) <> EmptyString
                       /\ word = "-" +:+ ShortName (flagAt w a)))).
Proof.
  intros Hall. unfold getCompletionWords. rewrite Hall. eexists. split; [done|].
  intros word. rewrite in_app_iff, in_map_iff, in_concat.
  split.
  - intros [([k sub] & <- & [Hin Hvis]%filter_In)|(l & Hl & Hw)].
    + left. exists sub. split.
      * by apply elem_of_map_to_list, list_elem_of_In.
      * by apply negb_true_iff in Hvis.
    + right. apply in_map_iff in Hl as (a & <- & Ha).
      apply In_flagWords in Hw as [Hh Hw]. by exists a.
  - intros [(sub & Hsub & Hvis)|(a & Ha & Hh & Hw)].
    + left. exists (word, sub). split; [done|]. apply filter_In. split.
      * by apply list_elem_of_In, elem_of_map_to_list.
      * by rewrite Hvis.
    + right. exists (flagWords (flagAt w a)). split.
      * apply in_map_iff. by exists a.
      * by apply In_flagWords.
Qed.

(** ** The argument binder, continued *)

Lemma bindParams_spec c decl argv tys : forall i callArgs out,
  bindParams c decl tys i argv callArgs = inl out ->
  exists vs,
    out = callArgs ++ vs
    /\ length vs = length tys
    /\ forall j ty, tys !! j = Some ty ->
         exists v, vs !! j = Some v
           /\ match argv !! (i + j)%nat with
              | Some arg => convertArgument arg ty = inl v
              | None => v = Zero ty
              end.
Proof.
  induction tys as [|ty tys IH]; intros i callArgs out Hb; cbn [bindParams] in Hb.
  - simplify_eq. exists []. by rewrite app_nil_r.
  - assert (Hnext : forall v,
      bindParams c decl tys (S i) argv (callArgs ++ [v]) = inl out ->
      match argv !! i with
      | Some arg => convertArgument arg ty = inl v
      | None => v = Zero ty
      end ->
      exists vs, out = callArgs ++ vs /\ length vs = length (ty :: tys)
        /\ forall j ty0, (ty :: tys) !! j = Some ty0 ->
             exists v0, vs !! j = Some v0
               /\ match argv !! (i + j)%nat with
                  | Some arg => convertArgument arg ty0 = inl v0
                  | None => v0 = Zero ty0
                  end).
    { intros v Hrec Hv. apply IH in Hrec as (vs & -> & Hlen & Hpos).
      exists (v :: vs). split_and!.
      - by rewrite <- app_assoc.
      - cbn [length]. by rewrite Hlen.
      - intros [|j] ty0 Hj; cbn in Hj.
        + simplify_eq. exists v. split; [done|]. by rewrite Nat.add_0_r.
        + destruct (Hpos j ty0 Hj) as (v0 & Hv0 & Hm). exists v0. split; [done|].
          by replace (i + S j)%nat with (S i + j)%nat by lia. }
    destruct (argv !! i) as [arg|] eqn:Harg.
    + destruct (convertArgument arg ty) as [v|err] eqn:Hconv; [|done].
      by apply (Hnext v).
    + destruct (decl !! i) as [d|]; [destruct (Required d); [done|]|];
        by apply (Hnext (Zero ty)).
Qed.

Lemma bindVariadic_spec c elemType rest : forall slice out,
  bindVariadic c elemType rest slice = inl out ->
  exists vs, out = slice ++ vs
    /\ Forall2 (fun arg v => convertArgument arg elemType = inl v) rest vs.
Proof.
  induction rest as [|arg rest IH]; intros slice out Hb; cbn [bindVariadic] in Hb.
  - simplify_eq. exists []. by rewrite app_nil_r.
  - destruct (convertArgument arg elemType) as [v|err] eqn:Hconv; [|done].
    apply IH in Hb as (vs & -> & Hall). exists (v :: vs).
    split; [by rewrite <- app_assoc|by constructor].
Qed.

(** X21. When the binder gives the arguments of the call, there is one
    for every fixed parameter, and one more for a variadic action.  The
    parameter at position [i] gets the token at position [i] converted to
    its type, or the zero value of its type when the tokens are fewer; the
    variadic parameter gets the slice of the tokens beyond the fixed ones,
    each converted to the element type. *)
Theorem buildCallArgs_binds c decl act argv callArgs :
  buildCallArgs c decl act argv = inl callArgs ->
  length callArgs
    = (length (params act)
       + match variadic act with Some _ => 1 | None => 0 end)%nat
  /\ (forall i ty, params act !! i = Some ty ->
        exists v, callArgs !! i = Some v
          /\ match argv !! i with
             | Some arg => convertArgument arg ty = inl v
             | None => v = Zero ty
             end)
  /\ (forall elemType, variadic act = Some elemType ->
        exists slice,
          callArgs !! length (params act) = Some (VSlice slice)
          /\ Forall2 (fun arg v => convertArgument arg elemType = inl v)
                     (drop (length (params act)) argv) slice).
Proof.
  unfold buildCallArgs. intros Hb.
  destruct (bindParams c decl (params act) 0 argv []) as [fixed|err] eqn:Hfixed.
  2:{ by destruct (variadic act). }
  apply bindParams_spec in Hfixed as (vs & -> & Hlen & Hpos). cbn [app] in *.
  destruct (variadic act) as [elemType|].
  - destruct (_ <? 0); [done|].
    destruct (bindVariadic c elemType _ []) as [slice|err] eqn:Hvar; [|done].
    apply bindVariadic_spec in Hvar as (vs' & -> & Hall). cbn [app] in *.
    simplify_eq. split_and!.
    + rewrite length_app. cbn [length]. lia.
    + intros i ty Hi. destruct (Hpos i ty Hi) as (v & Hv & Hm). exists v.
      split; [|done]. by apply lookup_app_l_Some.
    + intros ? [= <-]. exists vs'. split; [|done].
      rewrite <- Hlen. by rewrite list_lookup_middle.
  - simplify_eq. split_and!; [lia| |done].
    intros i ty Hi. destruct (Hpos i ty Hi) as (v & Hv & Hm). by exists v.
Qed.

Lemma bindParams_missing c decl argv d : forall tys i callArgs,
  (i <= length argv)%nat ->
  (length argv < i + length tys)%nat ->
  (forall j arg ty, tys !! j = Some ty -> argv !! (i + j)%nat = Some arg ->
     exists v, convertArgument arg ty = inl v) ->
  decl !! length argv = Some d ->
  Required d = true ->
  bindParams c decl tys i argv callArgs
  = inr (ArgumentError (Name d) MsgRequiredArgumentMissing c).
Proof.
  induction tys as [|ty tys IH]; intros i callArgs Hi Hlen Hconv Hd Hreq;
    cbn [bindParams length] in *; [lia|].
  destruct (argv !! i) as [arg|] eqn:Harg.
  - destruct (Hconv O arg ty) as [v Hv]; [done|by rewrite Nat.add_0_r|].
    rewrite Hv. apply lookup_lt_Some in Harg.
    apply IH; [lia|lia| |done|done].
    intros j arg' ty' Hj Harg'. apply (Hconv (S j) arg' ty'); [done|].
    by replace (i + S j)%nat with (S i + j)%nat by lia.
  - apply lookup_ge_None in Harg. assert (i = length argv) as -> by lia.
    by rewrite Hd, Hreq.
Qed.

(** X22. When the tokens are fewer than the fixed parameters of the
    action and convert, and the argument declared at the position of the
    first parameter left without token is required, the binder fails with
    the required-argument error under that argument's name.  The action is
    not called. *)
Theorem missing_required_argument w c act argv d :
  (length argv < length (params act))%nat ->
  (forall i arg ty, params act !! i = Some ty -> argv !! i = Some arg ->
     exists v, convertArgument arg ty = inl v) ->
  args (cmdAt w c) !! length argv = Some d ->
  Required d = true ->
  callAction w c act argv
  = (w, Ret (Some (ArgumentError (Name d) MsgRequiredArgumentMissing c))).
Proof.
  intros Hlen Hconv Hd Hreq. unfold callAction, buildCallArgs.
  rewrite (bindParams_missing c (args (cmdAt w c)) argv d) by (done || lia).
  by destruct (variadic act).
Qed.

Lemma bindParams_take_decl c decl argv n : forall tys i callArgs,
  (i + length tys <= n)%nat ->
  bindParams c (take n decl) tys i argv callArgs = bindParams c decl tys i argv callArgs.
Proof.
  induction tys as [|ty tys IH]; intros i callArgs Hn; cbn [bindParams length] in *;
    [done|].
  rewrite lookup_take_lt by lia.
  destruct (argv !! i) as [arg|].
  - destruct (convertArgument arg ty); [apply IH; lia|done].
  - destruct (decl !! i) as [d|]; [destruct (Required d); [done|]|]; apply IH; lia.
Qed.

Lemma bindParams_take_argv c decl argv n : forall tys i callArgs,
  (i + length tys <= n)%nat ->
  bindParams c decl tys i (take n argv) callArgs = bindParams c decl tys i argv callArgs.
Proof.
  induction tys as [|ty tys IH]; intros i callArgs Hn; cbn [bindParams length] in *;
    [done|].
  rewrite lookup_take_lt by lia.
  destruct (argv !! i) as [arg|].
  - destruct (convertArgument arg ty); [apply IH; lia|done].
  - destruct (decl !! i) as [d|]; [destruct (Required d); [done|]|]; apply IH; lia.
Qed.

(** X23. The binder looks at as many declared arguments as the action
    has fixed parameters, and no further: an argument declared required
    beyond them is never asked for.  For an action that is not variadic it
    looks at as many tokens, and no further: what follows them is
    dropped. *)
Theorem buildCallArgs_reads_arity c decl act argv :
  buildCallArgs c (take (length (params act)) decl) act argv
    = buildCallArgs c decl act argv
  /\ (variadic act = None ->
      buildCallArgs c decl act (take (length (params act)) argv)
        = buildCallArgs c decl act argv).
Proof.
  split.
  - unfold buildCallArgs. by rewrite bindParams_take_decl by (cbn; lia).
  - intros Hv. unfold buildCallArgs. rewrite Hv.
    by rewrite bindParams_take_argv by (cbn; lia).
Qed.

(** ** Marking a flag *)


(** ** Defaults from struct tags *)

Section DefaultsProperties.
Context `{!GoFloat32}.

(** X25. The default of an integer field, signed or unsigned ([time.Duration]
    apart), is read as a 64-bit number in base 10 and then cut to the
    width of the field.  A signed numeral that fits in 64 bits gives the
    number of the field's range that differs from it by a multiple of two
    to the width, which is the number itself only when it fits; an
    unsigned numeral that fits in 64 bits gives its remainder modulo two to
    the width.  Any other text, a numeral beyond 64 bits included, gives
    zero. *)
Theorem parseDefaultValue_int_wraps s :
  (forall k z, signed_base10 s = Some z ->
     - 2 ^ 63 <= z < 2 ^ 63 ->
     exists z',
       parseDefaultValue s (TInt k) = Some (VInt z')
       /\ - 2 ^ (IntBits k - 1) <= z' < 2 ^ (IntBits k - 1)
       /\ (z' - z) mod 2 ^ IntBits k = 0)
  /\ (forall k,
        (forall z, signed_base10 s = Some z -> z < - 2 ^ 63 \/ 2 ^ 63 <= z) ->
        parseDefaultValue s (TInt k) = Some (VInt 0))
  /\ (forall k z, base10 s = Some z ->
        z < 2 ^ 64 ->
        parseDefaultValue s (TUint k) = Some (VUint (z mod 2 ^ UintBits k)))
  /\ (forall k,
        (forall z, base10 s = Some z -> 2 ^ 64 <= z) ->
        parseDefaultValue s (TUint k) = Some (VUint 0)).
Proof.
  pose proof (ParseInt_spec s 64 ltac:(lia)) as Hint.
  pose proof (ParseUint_spec s 64 ltac:(lia)) as Huint.
  change (2 ^ (64 - 1)) with (2 ^ 63) in Hint.
  unfold parseDefaultValue. split_and!.
  - intros k z Hs Hz. rewrite Hs in Hint.
    destruct (Z.leb_spec (- 2 ^ 63) z); [|lia].
    destruct (Z.ltb_spec z (2 ^ 63)); [|lia].
    cbn [andb] in Hint. rewrite Hint. unfold SetInt.
    pose proof (IntBits_range k) as Hk.
    set (b := IntBits k) in *.
    assert (Hpow : 2 ^ b = 2 * 2 ^ (b - 1)).
    { rewrite <- Z.pow_succ_r by lia. f_equal. lia. }
    assert (Hpos : 0 < 2 ^ (b - 1)) by (apply Z.pow_pos_nonneg; lia).
    eexists. split; [done|].
    pose proof (Z.mod_pos_bound (z + 2 ^ (b - 1)) (2 ^ b) ltac:(lia)) as Hm.
    split; [lia|].
    pose proof (Z_div_mod_eq_full (z + 2 ^ (b - 1)) (2 ^ b)) as Hdm.
    replace ((z + 2 ^ (b - 1)) mod 2 ^ b - 2 ^ (b - 1) - z)
      with (- ((z + 2 ^ (b - 1)) / 2 ^ b) * 2 ^ b) by lia.
    apply Z_mod_mult.
  - intros k Hout. destruct (signed_base10 s) as [z|].
    + destruct (Hout z eq_refl) as [Hlo|Hhi].
      * destruct (Z.leb_spec (- 2 ^ 63) z); [lia|]. cbn [andb] in Hint.
        by destruct Hint as (v & ->).
      * destruct (Z.ltb_spec z (2 ^ 63)); [lia|]. rewrite andb_false_r in Hint.
        by destruct Hint as (v & ->).
    + by destruct Hint as (v & e & ->).
  - intros k z Hs Hz. rewrite Hs in Huint.
    destruct (Z.leb_spec z (2 ^ 64 - 1)); [|lia]. by rewrite Huint.
  - intros k Hout. destruct (base10 s) as [z|].
    + specialize (Hout z eq_refl).
      destruct (Z.leb_spec z (2 ^ 64 - 1)); [lia|]. by rewrite Huint.
    + by destruct Huint as (e & ->).
Qed.

End DefaultsProperties.

End Properties.

(** * The claims on the examples *)



Lemma example_shadow_lineage : lineage example_shadow 1 [1%nat; O].
Proof. apply lineage_child with O; [reflexivity|]. apply lineage_root. reflexivity. Defined.

(** C2 on [example_shadow]: the child sees its own [--region] and the
    root's [--trace], not the root's [--region]. *)
Lemma effective_flag_set_witness :
  lineage example_shadow 1 [1%nat; O]
  /\ exists fl,
       getAllFlags example_shadow 1 = Some fl
       /\ NoDup (map (pname example_shadow) fl)
       /\ In 2%nat fl /\ In 1%nat fl /\ ~ In O fl.
Proof.
  split; [exact example_shadow_lineage|].
  destruct (effective_flag_set example_shadow 1 [1%nat; O] example_shadow_lineage)
    as (fl & Hfl & Hnd & _ & Hkeep).
  exists fl.
  destruct (Hkeep [] 1%nat [O] [] 2%nat []) as [Hown Honly];
    [reflexivity|reflexivity|intros x y []|intros y []|].
  destruct (Hkeep [1%nat] O [] [O] 1%nat []) as [Htrace _];
    [reflexivity|reflexivity| | |].
  { intros x y [<-|[]] [<-|[]]. vm_compute. discriminate. }
  { intros y [<-|[]]. vm_compute. discriminate. }
  split; [exact Hfl|]. split; [exact Hnd|]. split; [exact Hown|]. split; [exact Htrace|].
  intros Hroot. specialize (Honly O Hroot eq_refl). discriminate Honly.
Defined.

Lemma example_twice_lineage : lineage example_twice 1 [1%nat; O].
Proof. apply lineage_child with O; [reflexivity|]. apply lineage_root. reflexivity. Defined.

(** C2 fails as stated on [example_twice]: no command below the root
    declares [region], yet the root's second flag of that name is not in
    the child's effective flag set. *)
Lemma inherits_every_unshadowed_counterexample :
  ~ inherits_every_unshadowed example_twice 1.
Proof.
  intros Hall.
  assert (Hin : In 1%nat [O]).
  { apply (Hall [1%nat; O] [O] [1%nat] O [] 1%nat).
    - exact example_twice_lineage.
    - vm_compute. reflexivity.
    - reflexivity.
    - vm_compute. auto.
    - intros x y [<-|[]] []. }
  destruct Hin as [Heq|[]]. discriminate Heq.
Qed.

Lemma example_bare_lineage : lineage example_bare O [O].
Proof. apply lineage_root. reflexivity. Defined.

(** C3, as the code has it, on [example_port_twice]: [port] is the flag
    added first; and on [example_alias_twice], where [p] was added twice to
    a command whose older flag [--port] has the alias [p]: lookup by [p]
    gives the older flag, and neither of the two. *)
Lemma readd_keeps_first_witness :
  lineage example_bare O [O]
  /\ flags (cmdAt example_port_twice O) = [O; 1%nat]
  /\ GetFlag example_port_twice (flags (cmdAt example_port_twice O)) "port" = Some O
  /\ (exists fl,
        getAllFlags example_port_twice O = Some fl
        /\ In O fl /\ ~ In 1%nat fl
        /\ Parse fl ["--port=5"%string] example_port_twice
           = assign example_port_twice O "port" "5")
  /\ flags (cmdAt example_alias_twice O) = [O; 1%nat; 2%nat]
  /\ GetFlag example_alias_twice (flags (cmdAt example_alias_twice O)) "p" = Some O.
Proof.
  split; [exact example_bare_lineage|].
  destruct (readd_keeps_first example_bare O [O] O 1%nat (TInt Int) (TInt Int) "port"
              EmptyString EmptyString (Some (VInt 8080)) (Some (VInt 9090)) EmptyString
              EmptyString example_bare_lineage)
    as (Hflags & _ & _ & _ & _ & _ & _ & _ & Hget & fl & Hfl & Hout & _ & Hin & Hparse).
  { intros b []. }
  split; [exact Hflags|]. split; [exact (Hget (fun b (Hb : In b []) => match Hb with end))|].
  split.
  { exists fl. split; [exact Hfl|].
    split; [exact (Hin (fun b (Hb : In b []) => match Hb with end))|].
    split; [exact Hout|].
    exact (proj2 (Hparse (fun b (Hb : In b []) => match Hb with end))
                 "--port=5"%string "5"%string eq_refl eq_refl). }
  destruct (readd_keeps_first example_port O [O] 1%nat 2%nat TString TString "p"
              EmptyString EmptyString None None EmptyString EmptyString)
    as (Hflags2 & _ & _ & _ & _ & _ & _ & Hold & _).
  { apply lineage_root. reflexivity. }
  { intros b Hb. vm_compute in Hb. destruct Hb as [<-|[]].
    apply elem_of_dom. eexists. vm_compute. reflexivity. }
  split; [exact Hflags2|].
  apply (Hold [] O []).
  - vm_compute. reflexivity.
  - intros y [].
  - vm_compute. auto.
Defined.

(** [Add] on [example_bare] with the default 300 for an int8 variable:
    with Go's conversion of integers the variable gets 44, and the flag
    struct keeps 300. *)
Lemma Add_converts_default :
  let w := (Add example_bare [] O (TInt Int8) "level" EmptyString (Some (VInt 300))
                EmptyString).1 in
  mem w !! O = Some (VInt 44) /\ defValue (flagAt w O) = Some (VInt 300).
Proof. split; vm_compute; reflexivity. Qed.

(** C3 fails as stated on [example_bare]: after [--port] is added twice,
    lookup by [port] gives the flag added first. *)
Lemma later_binding_wins_counterexample :
  ~ later_binding_wins example_bare O O 1%nat (TInt Int) "port"
      (Some (VInt 8080)) (Some (VInt 9090)) "5".
Proof. intros [Hget _]. vm_compute in Hget. discriminate Hget. Qed.

(** The same on [FlagRequired]: after [--port] was added, adding it again
    as required marks the earlier flag, not the one just added. *)
Lemma FlagRequired_marks_first :
  let w := Command_FlagRequired
             (Command_Flag example_bare O O (TInt Int) "port" EmptyString None EmptyString)
             O 1%nat (TInt Int) "port" EmptyString None EmptyString in
  required (flagAt w O) = true /\ required (flagAt w 1) = false.
Proof. split; vm_compute; reflexivity. Qed.

(** C4 on [example_variadic], whose one fixed parameter is optional: on
    the empty vector [callAction] panics, and so does [execute]. *)
Lemma variadic_short_vector_panics_witness :
  variadic first_rest_action = Some TString
  /\ callAction example_variadic O first_rest_action []
     = (example_variadic, Panic "reflect.MakeSlice: negative len")
  /\ (execute example_variadic O []).2 = Panic "reflect.MakeSlice: negative len".
Proof.
  split; [reflexivity|]. split; [|vm_compute; reflexivity].
  apply (variadic_short_vector_panics example_variadic O first_rest_action TString []).
  - reflexivity.
  - cbn. lia.
  - intros [|i] ty Hty; [vm_compute; reflexivity|discriminate Hty].
Defined.

(** With enough tokens the binder does what is expected of it: on
    [example_variadic2] the tokens [a b c d] give ["a"], ["b"] and the
    slice [["c"; "d"]], and [a b] give ["a"], ["b"] and an empty slice. *)
Lemma variadic_binder_examples :
  (execute example_variadic2 O ["a"; "b"; "c"; "d"]%string).2 = Ret None
  /\ mem (execute example_variadic2 O ["a"; "b"; "c"; "d"]%string).1 !! O
     = Some (VSlice [VString "a"; VString "b"; VSlice [VString "c"; VString "d"]])
  /\ mem (execute example_variadic2 O ["a"; "b"]%string).1 !! O
     = Some (VSlice [VString "a"; VString "b"; VSlice []]).
Proof. split_and!; vm_compute; reflexivity. Qed.

(** C5 fails as stated: the token ["0"] is made of digits alone and
    converts. *)
Lemma digits_only_rejected_counterexample :
  ~ digits_only_rejected (flagAt example_flags 2).
Proof.
  intros Hrej. destruct (Hrej "0"%string ∅ eq_refl) as [err Herr].
  vm_compute in Herr. discriminate Herr.
Qed.

(** C5, as the code has it, on the [--timeout] flag of [example_flags]. *)
Lemma duration_conversion_witness :
  flagType (flagAt example_flags 2) = TDuration
  /\ (exists e, setValue (flagAt example_flags 2) "90" (mem example_flags)
                = (mem example_flags, Some (DurationError e)))
  /\ setValue (flagAt example_flags 2) "1h30m" (mem example_flags)
     = (<[value (flagAt example_flags 2) := VInt 5400000000000]> (mem example_flags), None).
Proof.
  split; [reflexivity|].
  destruct (duration_conversion (flagAt example_flags 2) (mem example_flags) eq_refl)
    as (Hdigits & _ & Hcompound & _ & _).
  split; [|exact Hcompound].
  apply Hdigits; [reflexivity|discriminate].
Defined.

(** C6, as the code has it, on the [--verbose] flag of [example_flags],
    which comes last in the set that is parsed. *)
Lemma boolean_token_forms_witness :
  names (flagAt example_flags O) = ["verbose"; "v"]%string
  /\ flagType (flagAt example_flags O) = TBool
  /\ forall tok, In tok ["-v"; "-v=true"; "--verbose"; "--verbose=true"]%string ->
       exists w', Parse [1%nat; 2%nat; O] [tok] example_flags = (w', inl [])
                  /\ mem w' !! O = Some (VBool true)
                  /\ set (flagAt w' O) = true.
Proof.
  split; [reflexivity|]. split; [reflexivity|].
  intros tok Htok.
  destruct (boolean_token_forms example_flags [1%nat; 2%nat] O [] tok)
    as (Hparse & Hmem & Hset); [|reflexivity|reflexivity|exact Htok|].
  - intros b [<-|[<-|[]]]; vm_compute; split; intros [Heq|[Heq|[]]]; discriminate Heq.
  - eexists. split; [exact Hparse|]. split; [exact Hmem|exact Hset].
Defined.

(** On [example_alias_clash], the effective flag set of [info] is its
    own [--version]/[-v] and then [--verbose]/[-v] of [app]. *)
Lemma example_alias_clash_flags :
  getAllFlags example_alias_clash 1 = Some [1%nat; O].
Proof. vm_compute. reflexivity. Qed.

(** C6 fails as stated on [example_alias_clash]: against the effective
    flag set of [info], [-v] sets [--version], and leaves the variable of
    [--verbose] at [false]. *)
Lemma boolean_forms_set_binding_counterexample :
  ~ boolean_forms_set_binding example_alias_clash [1%nat; O] O.
Proof.
  intros Hall.
  destruct (Hall (or_intror (or_introl eq_refl)) eq_refl eq_refl "-v"%string
              (or_introl eq_refl)) as [Hmem _].
  vm_compute in Hmem. discriminate Hmem.
Qed.

(** C7 on the int8 flag [--port] of [example_flags], and on a uint8 flag. *)
Lemma integer_width_enforced_witness :
  flagType (flagAt example_flags 1) = TInt Int8
  /\ setValue (flagAt example_flags 1) "200" (mem example_flags)
     = (mem example_flags, Some (NumError "ParseInt" "200" strconv.ErrRange))
  /\ setValue (flagAt example_flags 1) "-128" (mem example_flags)
     = (<[1%nat := VInt (-128)]> (mem example_flags), None)
  /\ setValue (mkFlag ["level"%string] (TUint Uint8) None EmptyString O false false false)
       "256" (mem example_flags)
     = (mem example_flags, Some (NumError "ParseUint" "256" strconv.ErrRange)).
Proof.
  split; [reflexivity|]. split; [|split].
  - destruct (integer_width_enforced (flagAt example_flags 1) "200" (mem example_flags))
      as (_ & _ & Hint8).
    exact (Hint8 eq_refl).
  - destruct (integer_width_enforced (flagAt example_flags 1) "-128" (mem example_flags))
      as (Hint & _ & _).
    exact (Hint Int8 eq_refl).
  - destruct (integer_width_enforced
                (mkFlag ["level"%string] (TUint Uint8) None EmptyString O false false false)
                "256" (mem example_flags)) as (_ & Huint & _).
    exact (Huint Uint8 eq_refl).
Defined.

Lemma example_flags_lineage : lineage example_flags O [O].
Proof. apply lineage_root. reflexivity. Defined.

(** C8 on [example_flags]: [--port=5 --help] shows help and leaves the
    port alone; without the help token the same vector fails on the
    required flag. *)
Lemma help_preempts_witness :
  helpEnabled (cmdAt example_flags O) = true
  /\ (execute example_flags O ["--port=5"%string]).2
     = Ret (Some (FlagError "timeout" MsgRequiredFlagNotSet O))
  /\ exists w',
       execute example_flags O ["--port=5"; "--help"]%string = (w', Ret None)
       /\ mem w' = mem example_flags
       /\ flagStructs w' = flagStructs example_flags
       /\ trace w' = [ShowedHelp O].
Proof.
  split; [reflexivity|]. split; [vm_compute; reflexivity|].
  destruct (help_preempts example_flags O ["--port=5"; "--help"]%string [O])
    as (w' & Hexec & Hmem & Hflags & _ & Htrace).
  - reflexivity.
  - left. split; [cbn; auto|reflexivity].
  - exact example_flags_lineage.
  - exists w'. split; [exact Hexec|]. split; [exact Hmem|]. split; [exact Hflags|].
    exact Htrace.
Defined.

(** C9 on [example_flags]: [--port=5 --bogus] fails, and the port is 5. *)
Lemma Parse_not_atomic_witness :
  exists w',
    Parse [O; 1%nat; 2%nat] ["--port=5"; "--bogus"]%string example_flags
    = (w', inr (UnknownFlag "bogus"))
    /\ mem example_flags !! 1%nat = Some (VInt 7)
    /\ mem w' !! 1%nat = Some (VInt 5).
Proof.
  destruct Parse_not_atomic as [Hcommit _].
  edestruct (Hcommit [O; 1%nat; 2%nat] ["--port=5"%string] ["--bogus"%string] example_flags)
    as [Hparse Hkeep].
  - vm_compute. reflexivity.
  - vm_compute. reflexivity.
  - eexists. split; [exact Hparse|]. split; [reflexivity|].
    etransitivity; [apply (Hkeep 1%nat)|vm_compute; reflexivity].
    intros tok a [<-|[]] Hget. vm_compute in Hget. discriminate Hget.
Defined.

(** C10, as the code has it, on the [--port]/[-p] flag of
    [example_flags]. *)
Lemma dashes_not_distinguished_witness :
  names (flagAt example_flags 1) = ["port"; "p"]%string
  /\ Parse [O; 1%nat; 2%nat] ["-port=8"%string] example_flags
     = assign example_flags 1 "port" "8"
  /\ Parse [O; 1%nat; 2%nat] ["--p=8"%string] example_flags
     = assign example_flags 1 "p" "8"
  /\ mem (assign example_flags 1 "p" "8").1 !! 1%nat = Some (VInt 8).
Proof.
  split; [reflexivity|].
  destruct (dashes_not_distinguished example_flags [O] 1%nat [2%nat] "port" "p" "8")
    as (Hlong & Hshort & _).
  - intros b [<-|[]]. vm_compute. split; intros [Heq|[Heq|[]]]; discriminate Heq.
  - reflexivity.
  - reflexivity.
  - reflexivity.
  - reflexivity.
  - split; [exact Hlong|]. split; [exact Hshort|]. vm_compute. reflexivity.
Defined.

(** C10 fails as stated on [example_alias_clash]: against the effective
    flag set of [info], [--v=true] sets [--version], not the binding
    [--verbose]/[-v]. *)
Lemma either_dash_sets_binding_counterexample :
  ~ either_dash_sets_binding example_alias_clash [1%nat; O] O.
Proof.
  intros Hall.
  destruct (Hall "verbose"%string "v"%string "true"%string
              (or_intror (or_introl eq_refl)) eq_refl) as [_ Hshort].
  apply (f_equal (fun r => mem r.1 !! O)) in Hshort.
  vm_compute in Hshort. discriminate Hshort.
Qed.

(** A name that starts with a dash or holds [=] is out of reach of one
    of the two forms: for a flag named [-x], the token [--x=1] names [x];
    for a flag named [a=b], the token [-a=b=1] names [a]. *)
Lemma odd_names_examples :
  splitFlag ("-" +:+ "-x" +:+ "=" +:+ "1") = ("x"%string, "1"%string, true)
  /\ splitFlag ("-" +:+ "a=b" +:+ "=" +:+ "1") = ("a"%string, "b=1"%string, true).
Proof. split; reflexivity. Qed.

(** * More properties on the examples *)

(** On [example_flags], the tokens around [--verbose] come back. *)
Lemma Parse_returns_positionals_witness :
  (Parse [O; 1%nat; 2%nat] ["in.txt"; "--verbose"; "out.txt"]%string example_flags).2
    = inl ["in.txt"; "out.txt"]%string
  /\ ["in.txt"; "out.txt"]%string
     = List.filter positional ["in.txt"; "--verbose"; "out.txt"]%string.
Proof.
  split; [vm_compute; reflexivity|].
  apply (Parse_returns_positionals [O; 1%nat; 2%nat] _ example_flags
           (Parse [O; 1%nat; 2%nat] ["in.txt"; "--verbose"; "out.txt"]%string
                  example_flags).1).
  vm_compute. reflexivity.
Defined.

(** On [example_flags], [--port=5 --bogus] fails and leaves the flag
    [--port] marked as set, the commands and the trace as they were. *)
Lemma Parse_frame_witness :
  exists w',
    Parse [O; 1%nat; 2%nat] ["--port=5"; "--bogus"]%string example_flags
      = (w', inr (UnknownFlag "bogus"))
    /\ cmds w' = cmds example_flags
    /\ trace w' = trace example_flags
    /\ set (flagAt w' 1) = true.
Proof.
  eexists. split; [vm_compute; reflexivity|].
  edestruct (Parse_frame [O; 1%nat; 2%nat] ["--port=5"; "--bogus"]%string example_flags)
    as (Hc & Ht & _).
  - vm_compute. reflexivity.
  - split; [exact Hc|]. split; [exact Ht|]. vm_compute. reflexivity.
Defined.

(** On [example_flags], the token [--] is an unknown flag of empty
    name, and the flag after it is not reached. *)
Lemma Parse_unknown_flag_witness :
  Parse [O; 1%nat; 2%nat] ["in.txt"; "--"; "--port=5"]%string example_flags
  = (example_flags, inr (UnknownFlag EmptyString)).
Proof.
  refine (Parse_unknown_flag [O; 1%nat; 2%nat] ["in.txt"%string] "--"
            ["--port=5"%string] example_flags _ _ _).
  - intros t [<-|[]]. reflexivity.
  - reflexivity.
  - intros a [<-|[<-|[<-|[]]]]; vm_compute; reflexivity.
Defined.

(** On [example_flags], [--port 5] does not give the port its value. *)
Lemma Parse_requires_value_witness :
  Parse [O; 1%nat; 2%nat] ["--port"; "5"]%string example_flags
  = (example_flags, inr (RequiresValue "port")).
Proof.
  refine (Parse_requires_value [O; 1%nat; 2%nat] [] "--port" ["5"%string]
            example_flags 1%nat _ _ _ _ _).
  - intros t [].
  - reflexivity.
  - reflexivity.
  - vm_compute. reflexivity.
  - vm_compute. discriminate.
Defined.

(** On [example_tags], two [--tag] tokens are appended to [base]. *)
Lemma Parse_list_flag_appends_witness :
  exists w',
    Parse [O; 1%nat] ["--tag=a"; "--tag=b"]%string example_tags = (w', inl [])
    /\ elems (mem w' !!! 1%nat) = [VString "base"; VString "a"; VString "b"].
Proof.
  destruct (Parse_list_flag_appends [O; 1%nat] example_tags 1%nat "tag" ["a"; "b"]%string)
    as (w' & Hp & He).
  - reflexivity.
  - vm_compute. reflexivity.
  - reflexivity.
  - exists w'. split; [exact Hp|exact He].
Defined.

(** On [example_tags], of [--name=x --name=y] the second stays. *)
Lemma Parse_string_flag_last_wins_witness :
  exists w',
    Parse [O; 1%nat] ["--name=x"; "--name=y"]%string example_tags = (w', inl [])
    /\ mem w' !!! O = VString "y".
Proof.
  destruct (Parse_string_flag_last_wins [O; 1%nat] ["--name=x"%string] example_tags
              (Parse [O; 1%nat] ["--name=x"%string] example_tags).1 [] O "name" "y")
    as (w' & Hp & Hv & _).
  - reflexivity.
  - vm_compute. reflexivity.
  - reflexivity.
  - vm_compute. reflexivity.
  - exists w'. split; [exact Hp|exact Hv].
Defined.

Lemma example_deep_lineage : lineage example_deep 2 [2%nat; 1%nat; O].
Proof.
  apply lineage_child with 1%nat; [reflexivity|].
  apply lineage_child with O; [reflexivity|].
  apply lineage_root. reflexivity.
Defined.

Lemma example_deep_lineage_db : lineage example_deep 1 [1%nat; O].
Proof.
  apply lineage_child with O; [reflexivity|]. apply lineage_root. reflexivity.
Defined.

(** On [example_deep], [migrate] sees its own flag, then the one of
    [db], then the one of [app]. *)
Lemma getAllFlags_all_declared_witness :
  getAllFlags example_deep 2 = Some [2%nat; 1%nat; O]
  /\ NoDup (map (pname example_deep) [2%nat; 1%nat; O]).
Proof.
  split; [vm_compute; reflexivity|].
  apply (proj1 (getAllFlags_all_declared example_deep 2 [2%nat; 1%nat; O]
                  example_deep_lineage)).
  vm_compute. reflexivity.
Defined.

(** On [example_deep], [--bogus nosuch db] is an unknown command: the
    unknown flag before it goes unnoticed. *)
Lemma execute_unknown_command_witness :
  execute example_deep O ["--bogus"; "nosuch"; "db"]%string
  = (example_deep, Ret (Some (CommandNotFoundError "nosuch" O))).
Proof.
  apply (execute_unknown_command example_deep O ["--bogus"%string] "nosuch"
           ["db"%string]).
  - vm_compute. reflexivity.
  - intros t [<-|[]]. reflexivity.
  - reflexivity.
  - vm_compute. reflexivity.
  - vm_compute. lia.
Defined.

(** On [example_deep], [--verbose db migrate v2] sets [--verbose] and goes
    on in [db] with [migrate v2]. *)
Lemma execute_delegates_witness :
  execute example_deep O ["--verbose"; "db"; "migrate"; "v2"]%string
  = execute (Parse [O] ["--verbose"%string] example_deep).1 1
            ["migrate"; "v2"]%string.
Proof.
  etransitivity.
  - apply (execute_delegates example_deep O ["--verbose"%string] "db"
             ["migrate"; "v2"]%string 1%nat).
    + vm_compute. reflexivity.
    + intros t [<-|[]]. reflexivity.
    + reflexivity.
    + vm_compute. reflexivity.
  - vm_compute. reflexivity.
Defined.

(** On [example_two_required], [--user=ann] gives the first required
    flag on this very call, and the second one is what is missing. *)
Lemma execute_required_flag_missing_witness :
  required (flagAt example_two_required O) = true
  /\ set (flagAt example_two_required O) = false
  /\ (execute example_two_required O ["--user=ann"%string]).2
     = Ret (Some (FlagError "token" MsgRequiredFlagNotSet O)).
Proof.
  split; [reflexivity|]. split; [reflexivity|].
  destruct (execute_required_flag_missing example_two_required O ["--user=ann"%string]
              [O; 1%nat] [O] 1%nat []
              (Parse [O; 1%nat] ["--user=ann"%string] example_two_required).1
              [] "token" [])
    as [Hexec _].
  - vm_compute. reflexivity.
  - reflexivity.
  - vm_compute. reflexivity.
  - vm_compute. reflexivity.
  - reflexivity.
  - intros b [<-|[]] _. right. exists "--user=ann"%string.
    split; [cbn; auto|]. split; [reflexivity|]. vm_compute. reflexivity.
  - reflexivity.
  - reflexivity.
  - intros tok [<-|[]] _ Hg. vm_compute in Hg. discriminate Hg.
  - reflexivity.
  - rewrite Hexec. reflexivity.
Defined.

(** On [example_deep], [migrate] declares one argument and gets two
    tokens. *)
Lemma execute_too_many_arguments_witness :
  execute example_deep 2 ["v1"; "v2"]%string
  = (example_deep, Ret (Some (ArgumentError EmptyString (MsgTooManyArguments 1 2) 2))).
Proof.
  refine (proj1 (execute_too_many_arguments example_deep 2 ["v1"; "v2"]%string
                   [2%nat; 1%nat; O] example_deep ["v1"; "v2"]%string _ _ _ _ _ _ _)).
  - vm_compute. reflexivity.
  - vm_compute. reflexivity.
  - vm_compute. reflexivity.
  - vm_compute. reflexivity.
  - vm_compute. reflexivity.
  - intros act Hact. vm_compute in Hact. injection Hact as <-. reflexivity.
  - vm_compute. lia.
Defined.

(** On [example_flags], once [--timeout] was given, a run without it
    passes the check of the required flags. *)
Lemma execute_keeps_marks_witness :
  let w1 := (execute example_flags O ["--timeout=1s"%string]).1 in
  set (flagAt w1 2) = true
  /\ set (flagAt (execute w1 O []).1 2) = true
  /\ (execute w1 O []).2 = Ret None.
Proof.
  intros w1. split; [vm_compute; reflexivity|]. split; [|vm_compute; reflexivity].
  destruct (execute_keeps_marks w1 O [] (execute w1 O []).1 (execute w1 O []).2)
    as (_ & _ & Hmono & _).
  - vm_compute. reflexivity.
  - apply Hmono. vm_compute. reflexivity.
Defined.



(** On [example_deep], [db migrate --help] given to [app] shows the help
    of [db], not of [migrate]. *)
Lemma help_shown_for_first_child_witness :
  execute example_deep O ["db"; "migrate"; "--help"]%string
  = (emit example_deep (ShowedHelp 1), Ret None).
Proof.
  apply (help_shown_for_first_child example_deep O [] "db" ["migrate"; "--help"]%string
           1%nat [1%nat; O]).
  - reflexivity.
  - vm_compute. reflexivity.
  - intros t [].
  - reflexivity.
  - vm_compute. reflexivity.
  - exact example_deep_lineage_db.
Defined.

(** On [example_deep], [shell] is added to [migrate]: it hangs below
    it, and [db] still lists it. *)
Lemma AddCommand_links_witness :
  subcommands (cmdAt (AddCommand example_deep 2 3) 2) !! "shell"%string = Some 3%nat
  /\ lineage (AddCommand example_deep 2 3) 3 [3%nat; 2%nat; 1%nat; O]
  /\ subcommands (cmdAt (AddCommand example_deep 2 3) 1) !! "shell"%string = Some 3%nat.
Proof.
  destruct (AddCommand_links example_deep 2 3 [2%nat; 1%nat; O] example_deep_lineage)
    as (Hsub & Hl & _ & Hother).
  - intros [Heq|[Heq|[Heq|[]]]]; discriminate Heq.
  - split; [exact Hsub|]. split; [exact Hl|].
    rewrite (Hother 1%nat) by discriminate. vm_compute. reflexivity.
Defined.

(** On [example_deep], the second [db] added to [app] takes the place of
    the first, which keeps [app] as parent. *)
Lemma AddCommand_same_name_replaces_witness :
  subcommands (cmdAt (AddCommand (AddCommand example_deep O 1) O 4) O) !! "db"%string
    = Some 4%nat
  /\ parent (cmdAt (AddCommand (AddCommand example_deep O 1) O 4) 1) = Some O.
Proof.
  apply (AddCommand_same_name_replaces example_deep O 1 4).
  - discriminate.
  - reflexivity.
Defined.

(** On [example_deep], [app] added below [migrate] closes a cycle. *)
Lemma AddCommand_cycle_hangs_witness :
  getAllFlags (AddCommand example_deep 2 O) 2 = None
  /\ (executeAction (AddCommand example_deep 2 O) 2 []).2 = Hang.
Proof.
  destruct (AddCommand_cycle_hangs example_deep 2 O [2%nat; 1%nat; O] []
              example_deep_lineage) as [Hflags Hexec].
  - cbn. auto.
  - split; [exact Hflags|]. rewrite Hexec. reflexivity.
Defined.

(** On [example_deep], the path of [migrate]. *)
Lemma getCommandPath_lineage_witness :
  getCommandPath example_deep 2 = Some "app db migrate"%string
  /\ CommandNotFoundError_Error example_deep "up" 2
     = Some "unknown command 'up' for 'app db migrate'"%string.
Proof.
  exact (getCommandPath_lineage example_deep 2 [2%nat; 1%nat; O] "up"
           example_deep_lineage).
Defined.

(** On [example_deep], the words of [db] hold [migrate] and the flag of
    [app] under both names. *)
Lemma getCompletionWords_spec_witness :
  exists words,
    getCompletionWords example_deep 1 = Some words
    /\ In "migrate"%string words /\ In "--verbose"%string words /\ In "-v"%string words.
Proof.
  destruct (getCompletionWords_spec example_deep 1 [1%nat; O]) as (words & Hw & Hspec).
  - vm_compute. reflexivity.
  - exists words. split; [exact Hw|]. split; [|split].
    + apply Hspec. left. exists 2%nat. split; vm_compute; reflexivity.
    + apply Hspec. right. exists O. split; [cbn; auto|]. split; [reflexivity|].
      left. reflexivity.
    + apply Hspec. right. exists O. split; [cbn; auto|]. split; [reflexivity|].
      right. split; [discriminate|reflexivity].
Defined.

(** On [first_rest_action], three tokens give two arguments: the first
    token, and the slice of the other two. *)
Lemma buildCallArgs_binds_witness :
  buildCallArgs O [mkArgument "first" "First arg" false] first_rest_action
                ["a"; "b"; "c"]%string
    = inl [VString "a"; VSlice [VString "b"; VString "c"]]
  /\ length [VString "a"; VSlice [VString "b"; VString "c"]] = 2%nat.
Proof.
  split; [vm_compute; reflexivity|].
  apply (buildCallArgs_binds O [mkArgument "first" "First arg" false] first_rest_action
           ["a"; "b"; "c"]%string).
  vm_compute. reflexivity.
Defined.

(** On [example_deep], [migrate] without token misses [target]. *)
Lemma missing_required_argument_witness :
  callAction example_deep 2 store_target []
  = (example_deep, Ret (Some (ArgumentError "target" MsgRequiredArgumentMissing 2))).
Proof.
  apply (missing_required_argument example_deep 2 store_target []
           (mkArgument "target" "Version" true)).
  - cbn. lia.
  - intros i arg ty _ Harg. destruct i; discriminate Harg.
  - reflexivity.
  - reflexivity.
Defined.

(** On [store_target], a second token and a second declared argument,
    though required, change nothing. *)
Lemma buildCallArgs_reads_arity_witness :
  buildCallArgs 2 [mkArgument "target" "Version" true] store_target ["v2"%string]
  = buildCallArgs 2 [mkArgument "target" "Version" true; mkArgument "env" "Where" true]
                  store_target ["v2"; "prod"]%string.
Proof.
  destruct (buildCallArgs_reads_arity 2
              [mkArgument "target" "Version" true; mkArgument "env" "Where" true]
              store_target ["v2"; "prod"]%string) as [_ Hargv].
  etransitivity; [|exact (Hargv eq_refl)].
  exact (proj1 (buildCallArgs_reads_arity 2
                  [mkArgument "target" "Version" true; mkArgument "env" "Where" true]
                  store_target ["v2"%string])).
Defined.


(** The default [300] of an int8 field is 44 and that of a uint8 field
    too; a numeral beyond 64 bits gives 0. *)
Lemma parseDefaultValue_int_wraps_witness :
  parseDefaultValue "300" (TInt Int8) = Some (VInt 44)
  /\ (exists z',
        parseDefaultValue "300" (TInt Int8) = Some (VInt z')
        /\ - 2 ^ 7 <= z' < 2 ^ 7
        /\ (z' - 300) mod 2 ^ 8 = 0)
  /\ parseDefaultValue "300" (TUint Uint8) = Some (VUint 44)
  /\ parseDefaultValue "9223372036854775808" (TInt Int64) = Some (VInt 0)
  /\ parseDefaultValue "18446744073709551616" (TUint Uint64) = Some (VUint 0).
Proof.
  split; [vm_compute; reflexivity|].
  split.
  { apply (proj1 (parseDefaultValue_int_wraps "300") Int8 300).
    - vm_compute. reflexivity.
    - lia. }
  split.
  { apply (proj1 (proj2 (proj2 (parseDefaultValue_int_wraps "300"))) Uint8 300).
    - vm_compute. reflexivity.
    - lia. }
  split.
  { apply (proj1 (proj2 (parseDefaultValue_int_wraps "9223372036854775808")) Int64).
    intros z Hz. vm_compute in Hz. injection Hz as <-. right. lia. }
  apply (proj2 (proj2 (proj2 (parseDefaultValue_int_wraps "18446744073709551616"))) Uint64).
  intros z Hz. vm_compute in Hz. injection Hz as <-. lia.
Defined.
